(** * BusTub buffer pool: extendible hash directory, LRU-K replacer and
      buffer pool manager instance.

    A shallow embedding of
    - [src/container/hash/extendible_hash_table.cpp],
    - [src/buffer/lru_k_replacer.cpp] (with [include/buffer/lru_k_replacer.h]),
    - [src/buffer/buffer_pool_manager_instance.cpp],
    followed by the properties of the three components.

    Conventions.  Objects held through [std::shared_ptr] live in an explicit
    store and are referred to by their address, so that aliasing is visible.
    An assertion failure ([BUSTUB_ASSERT]) or an access the language leaves
    undefined ends a run: fallible operations return [option], [None] being
    such an end.  Mutexes are not modelled: every operation is taken as one
    atomic step. *)

From Stdlib Require Import NArith ZArith List Lia Bool.
From stdpp Require Import base option list gmap.

Local Open Scope N_scope.

(** ** Buckets of the extendible hash table *)

Module Bucket.
Section Bucket.
Context {K V : Type} `{EqDecision K}.

(** The members of [ExtendibleHashTable::Bucket]: capacity, local depth and
    the key/value pairs in insertion order. *)
Record t : Type := Build { size_ : nat; depth_ : N; list_ : list (K * V) }.

(** [Bucket::Find]: the value of the first pair whose key matches. *)
Fixpoint Find_items (key : K) (l : list (K * V)) : option V :=
  match l with
  | [] => None
  | kv :: l' => if decide (kv.1 = key) then Some kv.2 else Find_items key l'
  end.

Definition Find (key : K) (b : t) : option V := Find_items key (list_ b).

(** [Bucket::Remove]: erase the first pair whose key matches. *)
Fixpoint Remove_items (key : K) (l : list (K * V)) : bool * list (K * V) :=
  match l with
  | [] => (false, [])
  | kv :: l' =>
      if decide (kv.1 = key) then (true, l')
      else let r := Remove_items key l' in (r.1, kv :: r.2)
  end.

Definition Remove (key : K) (b : t) : bool * t :=
  let r := Remove_items key (list_ b) in
  (r.1, Build (size_ b) (depth_ b) r.2).

(** [Bucket::Insert]: overwrite the value of the first pair whose key
    matches, else [push_back].  No capacity test is made here. *)
Fixpoint Insert_items (key : K) (value : V) (l : list (K * V)) : list (K * V) :=
  match l with
  | [] => [(key, value)]
  | kv :: l' =>
      if decide (kv.1 = key) then (kv.1, value) :: l'
      else kv :: Insert_items key value l'
  end.

Definition Insert (key : K) (value : V) (b : t) : t :=
  Build (size_ b) (depth_ b) (Insert_items key value (list_ b)).

(** Modelled from the spec: [Bucket::IsFull] is declared in
    [extendible_hash_table.h], which is not part of the sources at hand.  A
    bucket of capacity [B] "has room" while it holds fewer than [B] pairs. *)
Definition IsFull (b : t) : bool := negb (Nat.ltb (length (list_ b)) (size_ b)).

End Bucket.
Global Arguments t : clear implicits.
End Bucket.

(** ** The extendible hash table *)

Module ExtendibleHashTable.
Section Table.
Context {K V : Type} `{EqDecision K}.
(** [std::hash<K>()], a [size_t]. *)
Variable hash : K -> N.

(** [dir_] is a vector of shared pointers to buckets: [dir_] holds
    addresses into [store_], the buckets allocated so far.  Several slots
    hold the same address when they share a bucket. *)
Record t : Type := Build {
  global_depth_ : N;
  bucket_size_ : nat;
  num_buckets_ : N;
  dir_ : list nat;
  store_ : list (Bucket.t K V)
}.

(** The constructor: one empty bucket of depth 0, global depth 0. *)
Definition ExtendibleHashTable (bucket_size : nat) : t :=
  Build 0 bucket_size 1 [0%nat] [Bucket.Build bucket_size 0 []].

(** [dir_[index]] and the bucket it points to.  Both are read only at
    indices below [dir_.size()] (see [IndexOf_lt] under the invariant); the
    defaults stand for reads that never happen. *)
Definition slot (tb : t) (index : N) : nat :=
  default 0%nat (dir_ tb !! N.to_nat index).

Definition deref (tb : t) (a : nat) : Bucket.t K V :=
  default (Bucket.Build 0 0 []) (store_ tb !! a).

Definition bucket_at (tb : t) (index : N) : Bucket.t K V := deref tb (slot tb index).

(** [int mask = (1 << global_depth_) - 1] is computed in [int]: the shift is
    defined for depths up to 30. *)
Definition shift_defined (tb : t) : bool := global_depth_ tb <=? 30.

Definition IndexOf (tb : t) (key : K) : N :=
  let mask := N.shiftl 1 (global_depth_ tb) - 1 in
  N.land (hash key) mask.

Definition Hash (key : K) : N := hash key.

Definition GetGlobalDepthInternal (tb : t) : N := global_depth_ tb.

Definition GetLocalDepthInternal (tb : t) (dir_index : N) : N :=
  Bucket.depth_ (bucket_at tb dir_index).

Definition GetNumBucketsInternal (tb : t) : N := num_buckets_ tb.

Definition Find (tb : t) (key : K) : option V :=
  Bucket.Find key (bucket_at tb (IndexOf tb key)).

(** Writing through a shared pointer: the bucket at address [a] changes for
    every slot that holds [a]. *)
Definition set_bucket (tb : t) (a : nat) (b : Bucket.t K V) : t :=
  Build (global_depth_ tb) (bucket_size_ tb) (num_buckets_ tb) (dir_ tb)
        (<[a := b]> (store_ tb)).

Definition Remove (tb : t) (key : K) : bool * t :=
  let a := slot tb (IndexOf tb key) in
  let r := Bucket.Remove key (deref tb a) in
  (r.1, set_bucket tb a r.2).

(** [GrowGlobal]: append a copy of the directory to itself. *)
Definition GrowGlobal (tb : t) (index : N) : t :=
  Build (global_depth_ tb + 1) (bucket_size_ tb) (num_buckets_ tb)
        (dir_ tb ++ dir_ tb) (store_ tb).

(** The first loop of [GrowLocal]: distribute the pairs of the split bucket
    over the two fresh buckets by the bit [mask] of their hash. *)
Fixpoint split_items (mask : N) (items : list (K * V))
    (new_bucket old_bucket : Bucket.t K V) : Bucket.t K V * Bucket.t K V :=
  match items with
  | [] => (new_bucket, old_bucket)
  | kv :: rest =>
      if N.land (Hash kv.1) mask =? 0
      then split_items mask rest new_bucket (Bucket.Insert kv.1 kv.2 old_bucket)
      else split_items mask rest (Bucket.Insert kv.1 kv.2 new_bucket) old_bucket
  end.

(** The second loop of [GrowLocal]:
    [for (i = ...; i < dir_.size(); i += mask)].  With [mask >= 1] it makes at
    most [dir_.size()] rounds, which is the [rounds] given by [GrowLocal]. *)
Fixpoint redirect (rounds : nat) (i mask : N) (new_a old_a : nat)
    (dir : list nat) : list nat :=
  match rounds with
  | O => dir
  | S rounds' =>
      if i <? N.of_nat (length dir)
      then redirect rounds' (i + mask) mask new_a old_a
             (<[N.to_nat i := if N.land i mask =? 0 then old_a else new_a]> dir)
      else dir
  end.

Definition GrowLocal (tb : t) (index : N) : t :=
  let bucket := bucket_at tb index in
  let local_depth := GetLocalDepthInternal tb index in
  let mask := N.shiftl 1 local_depth in
  let new_a := length (store_ tb) in
  let old_a := S (length (store_ tb)) in
  let nb := split_items mask (Bucket.list_ bucket)
              (Bucket.Build (bucket_size_ tb) (local_depth + 1) [])
              (Bucket.Build (bucket_size_ tb) (local_depth + 1) []) in
  Build (global_depth_ tb) (bucket_size_ tb) (num_buckets_ tb + 1)
        (redirect (length (dir_ tb)) (N.land index (mask - 1)) mask new_a old_a (dir_ tb))
        (store_ tb ++ [nb.1; nb.2]).

(** One activation of [Insert], up to its recursive call. *)
Inductive step : Type :=
| Return (tb : t)      (* the activation returns *)
| Retry (tb : t)       (* the activation calls [Insert(key, value)] again *)
| Stuck.               (* [1 << global_depth_] is not defined *)

Definition Insert_body (tb : t) (key : K) (value : V) : step :=
  if shift_defined tb then
    let index := IndexOf tb key in
    let a := slot tb index in
    let bucket := deref tb a in
    if negb (Bucket.IsFull bucket) then
      Return (set_bucket tb a (Bucket.Insert key value bucket))
    else
      let grown := GetLocalDepthInternal tb index =? GetGlobalDepthInternal tb in
      let tb1 := if grown then GrowGlobal tb index else tb in
      if shift_defined tb1 then
        let index1 := if grown then IndexOf tb1 key else index in
        if GetGlobalDepthInternal tb1 <=? GetLocalDepthInternal tb1 index1
        then Return tb1
        else Retry (GrowLocal tb1 index1)
      else Stuck
  else Stuck.

Inductive outcome : Type :=
| Done (tb : t)
| OutOfFuel
| Undefined.

(** [Insert] is recursive without a bound of its own; [fuel] counts the
    activations allowed. *)
Fixpoint Insert (fuel : nat) (tb : t) (key : K) (value : V) : outcome :=
  match fuel with
  | O => OutOfFuel
  | S fuel' =>
      match Insert_body tb key value with
      | Return tb' => Done tb'
      | Retry tb' => Insert fuel' tb' key value
      | Stuck => Undefined
      end
  end.

(** All the pairs stored, bucket by bucket, each shared bucket once. *)
Definition entries (tb : t) : list (K * V) :=
  remove_dups (dir_ tb) ≫= (fun a => Bucket.list_ (deref tb a)).

End Table.
Global Arguments t : clear implicits.
Global Arguments outcome : clear implicits.
Global Arguments step : clear implicits.
End ExtendibleHashTable.

Module EHT := ExtendibleHashTable.

(** ** The LRU-K replacer *)

Module LRUKReplacer.

(** [FrameInfo].  Its [iter_] member, the position of the record in
    [frameinfo_list_], is represented by the frame id itself: the list below
    holds frame ids, every id at most once, and a list node is found by its
    id. *)
Record FrameInfo : Type := BuildInfo {
  frame_id_ : nat;
  evictable_ : bool;
  k_accesstime_list_ : list Z
}.

(** The replacer.  [frameinfo_map_] owns the records; [frameinfo_list_] holds,
    in order, the ids of the records its shared pointers point to.  Both are
    always updated together by the code. *)
Record t : Type := Build {
  curr_size_ : N;
  replacer_size_ : N;
  k_ : N;
  frameinfo_map_ : gmap nat FrameInfo;
  frameinfo_list_ : list nat;
  ticks_ : Z
}.

Definition LRUKReplacer (num_frames k : N) : t := Build 0 num_frames k ∅ [] 0.

Definition INT32_MAX : Z := 2147483647.

(** [--] and [++] on the [size_t] counter [curr_size_]. *)
Definition size_dec (c : N) : N := (c + (2 ^ 64 - 1)) mod 2 ^ 64.
Definition size_inc (c : N) : N := (c + 1) mod 2 ^ 64.

Definition GetHistory (fi : FrameInfo) : list Z := k_accesstime_list_ fi.

(** [KDistance]: newest minus oldest time stamp of the history kept. *)
Definition KDistance (r : t) (frame_id : nat) : Z :=
  match frameinfo_map_ r !! frame_id with
  | None => (-1)%Z
  | Some fi =>
      if N.of_nat (length (GetHistory fi)) <? k_ r then INT32_MAX
      else (List.last (GetHistory fi) 0 - hd 0 (GetHistory fi))%Z
  end.

(** Erasing the list node of a frame. *)
Fixpoint erase (frame_id : nat) (l : list nat) : list nat :=
  match l with
  | [] => []
  | x :: l' => if decide (x = frame_id) then l' else x :: erase frame_id l'
  end.

(** One round of the loop of [Evict]; [acc] is [(evict_iter, k_distance)],
    [evict_iter = None] standing for [frameinfo_list_.end()]. *)
Definition Evict_round (r : t) (acc : option FrameInfo * Z) (node : nat)
    : option FrameInfo * Z :=
  match frameinfo_map_ r !! node with
  | None => acc
  | Some fi =>
      if negb (evictable_ fi) then acc
      else
        let kdis := KDistance r (frame_id_ fi) in
        if (kdis =? -1)%Z then acc
        else
          match acc.1 with
          | None => (Some fi, kdis)
          | Some ev =>
              if ((kdis >? acc.2) ||
                  ((kdis =? acc.2) && (hd 0 (GetHistory fi) <? hd 0 (GetHistory ev))))%Z
              then (Some fi, kdis)
              else acc
          end
  end.

(** [Evict]: [Some (None, r)] is the return of [false]; the outer [None] is
    the dereference of [end()] when no candidate was found. *)
Definition Evict (r : t) : option (option nat * t) :=
  if curr_size_ r =? 0 then Some (None, r)
  else
    match (foldl (Evict_round r) (None, 0%Z) (frameinfo_list_ r)).1 with
    | None => None
    | Some ev =>
        let frame_id := frame_id_ ev in
        Some (Some frame_id,
              Build (size_dec (curr_size_ r)) (replacer_size_ r) (k_ r)
                    (delete frame_id (frameinfo_map_ r))
                    (erase frame_id (frameinfo_list_ r))
                    (ticks_ r))
    end.

(** [RecordAccess].  A record made by [std::make_shared<FrameInfo>()] is
    value-initialised: [evictable_] starts as [false]. *)
Definition RecordAccess (r : t) (frame_id : nat) : option t :=
  if N.of_nat frame_id <=? replacer_size_ r then
    match frameinfo_map_ r !! frame_id with
    | Some fi =>
        let h := if N.of_nat (length (GetHistory fi)) =? k_ r
                 then tl (GetHistory fi) else GetHistory fi in
        let fi' := BuildInfo (frame_id_ fi) (evictable_ fi) (h ++ [ticks_ r]) in
        Some (Build (curr_size_ r) (replacer_size_ r) (k_ r)
                    (<[frame_id := fi']> (frameinfo_map_ r))
                    (erase frame_id (frameinfo_list_ r) ++ [frame_id])
                    (ticks_ r + 1)%Z)
    | None =>
        let fi := BuildInfo frame_id false [ticks_ r] in
        Some (Build (curr_size_ r) (replacer_size_ r) (k_ r)
                    (<[frame_id := fi]> (frameinfo_map_ r))
                    (frameinfo_list_ r ++ [frame_id])
                    (ticks_ r + 1)%Z)
    end
  else None.

Definition SetEvictable (r : t) (frame_id : nat) (set_evictable : bool) : option t :=
  if N.of_nat frame_id <=? replacer_size_ r then
    match frameinfo_map_ r !! frame_id with
    | None => None
    | Some fi =>
        if evictable_ fi && negb set_evictable then
          Some (Build (size_dec (curr_size_ r)) (replacer_size_ r) (k_ r)
                  (<[frame_id := BuildInfo (frame_id_ fi) set_evictable (GetHistory fi)]>
                     (frameinfo_map_ r))
                  (frameinfo_list_ r) (ticks_ r))
        else if negb (evictable_ fi) && set_evictable then
          Some (Build (size_inc (curr_size_ r)) (replacer_size_ r) (k_ r)
                  (<[frame_id := BuildInfo (frame_id_ fi) set_evictable (GetHistory fi)]>
                     (frameinfo_map_ r))
                  (frameinfo_list_ r) (ticks_ r))
        else Some r
    end
  else None.

Definition Remove (r : t) (frame_id : nat) : option t :=
  if N.of_nat frame_id <=? replacer_size_ r then
    match frameinfo_map_ r !! frame_id with
    | None => Some r
    | Some fi =>
        if evictable_ fi then
          Some (Build (size_dec (curr_size_ r)) (replacer_size_ r) (k_ r)
                  (delete frame_id (frameinfo_map_ r))
                  (erase frame_id (frameinfo_list_ r))
                  (ticks_ r))
        else None
    end
  else None.

Definition Size (r : t) : N := curr_size_ r.

(** The k-distance of the header's documentation and of the specification:
    current time stamp minus the time stamp of the k-th most recent access,
    [None] standing for +inf when fewer than [k] accesses are recorded.
    [history] is the full access history of a frame, oldest first. *)
Definition backward_k_distance (now : Z) (k : nat) (history : list Z) : option Z :=
  if Nat.ltb (length history) k then None
  else Some (now - nth (length history - k) history 0)%Z.

End LRUKReplacer.

Module LRUK := LRUKReplacer.

(** ** Pages and the disk *)

(** Modelled from the spec: the sentinel page id [INVALID] ([config.h] is not
    part of the sources at hand).  Page ids are non-negative; the sentinel is
    -1, outside of them. *)
Definition INVALID_PAGE_ID : Z := (-1)%Z.

Module Page.

(** Modelled from the spec: class [Page] ([storage/page/page.h] is not part
    of the sources at hand).  A frame owns a payload buffer, the id of the
    resident page, a pin count and a dirty flag. *)
Record t : Type := Build {
  data_ : list Byte.byte;
  page_id_ : Z;
  pin_count_ : Z;
  is_dirty_ : bool
}.

Definition GetData (p : t) := data_ p.
Definition GetPageId (p : t) := page_id_ p.
Definition GetPinCount (p : t) := pin_count_ p.
Definition IsDirty (p : t) := is_dirty_ p.

(** [ResetMemory]: the payload becomes [page_size] zero bytes. *)
Definition zeroed (page_size : nat) : list Byte.byte := repeat Byte.x00 page_size.

Definition ResetMemory (page_size : nat) (p : t) : t :=
  Build (zeroed page_size) (page_id_ p) (pin_count_ p) (is_dirty_ p).

(** A frame as the pool is constructed: empty, not pinned, clean. *)
Definition fresh (page_size : nat) : t :=
  Build (zeroed page_size) INVALID_PAGE_ID 0 false.

Definition set_data (d : list Byte.byte) (p : t) : t :=
  Build d (page_id_ p) (pin_count_ p) (is_dirty_ p).
Definition set_page_id (i : Z) (p : t) : t :=
  Build (data_ p) i (pin_count_ p) (is_dirty_ p).
Definition set_pin_count (c : Z) (p : t) : t :=
  Build (data_ p) (page_id_ p) c (is_dirty_ p).
Definition set_is_dirty (b : bool) (p : t) : t :=
  Build (data_ p) (page_id_ p) (pin_count_ p) b.

End Page.

Module DiskManager.

(** Modelled from the spec: the disk manager, an external collaborator with
    two blocking operations.  [WritePage] persists the bytes of a page;
    [ReadPage] gives back the bytes last written, zero bytes for a page never
    written. *)
Abbreviation t := (gmap Z (list Byte.byte)).

Definition WritePage (page_id : Z) (data : list Byte.byte) (d : t) : t :=
  <[page_id := data]> d.

Definition ReadPage (page_size : nat) (page_id : Z) (d : t) : list Byte.byte :=
  default (Page.zeroed page_size) (d !! page_id).

End DiskManager.

(** ** The buffer pool manager *)

Module BufferPoolManagerInstance.
Section Pool.
(** [BUSTUB_PAGE_SIZE] and [std::hash<page_id_t>]. *)
Variable BUSTUB_PAGE_SIZE : nat.
Variable hash : Z -> N.

Record t : Type := Build {
  pool_size_ : nat;
  pages_ : list Page.t;
  page_table_ : EHT.t Z nat;
  replacer_ : LRUK.t;
  free_list_ : list nat;
  next_page_id_ : Z;
  disk_manager_ : gmap Z (list Byte.byte)
}.

Definition set_pages (v : list Page.t) (s : t) : t :=
  Build (pool_size_ s) v (page_table_ s) (replacer_ s) (free_list_ s)
        (next_page_id_ s) (disk_manager_ s).
Definition set_page_table (v : EHT.t Z nat) (s : t) : t :=
  Build (pool_size_ s) (pages_ s) v (replacer_ s) (free_list_ s)
        (next_page_id_ s) (disk_manager_ s).
Definition set_replacer (v : LRUK.t) (s : t) : t :=
  Build (pool_size_ s) (pages_ s) (page_table_ s) v (free_list_ s)
        (next_page_id_ s) (disk_manager_ s).
Definition set_free_list (v : list nat) (s : t) : t :=
  Build (pool_size_ s) (pages_ s) (page_table_ s) (replacer_ s) v
        (next_page_id_ s) (disk_manager_ s).
Definition set_next_page_id (v : Z) (s : t) : t :=
  Build (pool_size_ s) (pages_ s) (page_table_ s) (replacer_ s) (free_list_ s)
        v (disk_manager_ s).
Definition set_disk (v : gmap Z (list Byte.byte)) (s : t) : t :=
  Build (pool_size_ s) (pages_ s) (page_table_ s) (replacer_ s) (free_list_ s)
        (next_page_id_ s) v.

(** [pages_[frame_id] = pg]. *)
Definition set_page (frame_id : nat) (pg : Page.t) (s : t) : t :=
  set_pages (<[frame_id := pg]> (pages_ s)) s.

(** The constructor.  [bucket_size] stands for the member constant
    [bucket_size_] of the header; the first page id handed out is 0. *)
Definition BufferPoolManagerInstance (pool_size : nat) (replacer_k : N)
    (bucket_size : nat) (disk : gmap Z (list Byte.byte)) : t :=
  Build pool_size
        (repeat (Page.fresh BUSTUB_PAGE_SIZE) pool_size)
        (EHT.ExtendibleHashTable bucket_size)
        (LRUK.LRUKReplacer (N.of_nat pool_size) replacer_k)
        (seq 0 pool_size)
        0
        disk.

(** [page_table_->Insert], which has to return for the caller to go on. *)
Definition table_insert (fuel : nat) (page_id : Z) (frame_id : nat) (s : t) : option t :=
  match EHT.Insert hash fuel (page_table_ s) page_id frame_id with
  | EHT.Done tb => Some (set_page_table tb s)
  | _ => None
  end.

(** Step 2 of [NewPgImp] and [FetchPgImp]: write a dirty occupant back under
    the page id the frame holds. *)
Definition write_back (frame_id : nat) (pg : Page.t) (s : t) : t :=
  if Page.IsDirty pg then
    set_page frame_id (Page.set_is_dirty false pg)
      (set_disk (DiskManager.WritePage (Page.GetPageId pg) (Page.GetData pg)
                   (disk_manager_ s)) s)
  else s.

(** [page_id_t] is declared in [common/config.h], which is not part of the
    sources at hand: a 32-bit signed integer, [next_page_id_] being an atomic
    counter of that type.  [++] on it wraps around, from 2^31 - 1 to
    -2^31. *)
Definition page_id_wrap (x : Z) : Z := ((x + 2 ^ 31) mod 2 ^ 32 - 2 ^ 31)%Z.

(** [AllocatePage]: [next_page_id_++]. *)
Definition AllocatePage (s : t) : Z * t :=
  (next_page_id_ s, set_next_page_id (page_id_wrap (next_page_id_ s + 1)) s).

(** Modelled from the spec: [DeallocatePage] is defined in the header, which
    is not part of the sources at hand.  Deallocation is advisory and ids are
    not reused. *)
Definition DeallocatePage (page_id : Z) (s : t) : t := s.

(** [NewPgImp].  The result [None] is [nullptr]; otherwise the new page id and
    the frame whose [Page] is returned. *)
Definition NewPgImp (fuel : nat) (s : t) : option (option (Z * nat) * t) :=
  acquired ← match free_list_ s with
             | f :: rest => Some (Some f, set_free_list rest s)
             | [] => r ← LRUK.Evict (replacer_ s); Some (r.1, set_replacer r.2 s)
             end;
  match acquired.1 with
  | None => Some (None, s)
  | Some frame_id =>
      let s := acquired.2 in
      pg ← pages_ s !! frame_id;
      let s := write_back frame_id pg s in
      let al := AllocatePage s in
      let page_id := al.1 in
      let s := al.2 in
      pg ← pages_ s !! frame_id;
      let s := set_page_table (EHT.Remove hash (page_table_ s) (Page.page_id_ pg)).2 s in
      s ← table_insert fuel page_id frame_id s;
      let pg := Page.set_pin_count 1
                  (Page.ResetMemory BUSTUB_PAGE_SIZE (Page.set_page_id page_id pg)) in
      let s := set_page frame_id pg s in
      r ← LRUK.RecordAccess (replacer_ s) frame_id;
      r ← LRUK.SetEvictable r frame_id false;
      Some (Some (page_id, frame_id), set_replacer r s)
  end.

(** [FetchPgImp].  The result [None] is [nullptr]. *)
Definition FetchPgImp (fuel : nat) (page_id : Z) (s : t) : option (option nat * t) :=
  match EHT.Find hash (page_table_ s) page_id with
  | None =>
      r ← LRUK.Evict (replacer_ s);
      match r.1 with
      | None => Some (None, s)
      | Some frame_id =>
          let s := set_replacer r.2 s in
          pg ← pages_ s !! frame_id;
          let s := write_back frame_id pg s in
          pg ← pages_ s !! frame_id;
          let pg := Page.ResetMemory BUSTUB_PAGE_SIZE
                      (Page.set_pin_count 1 (Page.set_page_id page_id pg)) in
          let pg := Page.set_data
                      (DiskManager.ReadPage BUSTUB_PAGE_SIZE page_id (disk_manager_ s)) pg in
          let s := set_page frame_id pg s in
          r ← LRUK.RecordAccess (replacer_ s) frame_id;
          r ← LRUK.SetEvictable r frame_id false;
          let s := set_replacer r s in
          s ← table_insert fuel page_id frame_id s;
          Some (Some frame_id, s)
      end
  | Some frame_id =>
      pg ← pages_ s !! frame_id;
      Some (Some frame_id,
            set_page frame_id (Page.set_pin_count (Page.pin_count_ pg + 1)%Z pg) s)
  end.

Definition UnpinPgImp (page_id : Z) (is_dirty : bool) (s : t) : option (bool * t) :=
  match EHT.Find hash (page_table_ s) page_id with
  | None => Some (false, s)
  | Some frame_id =>
      pg ← pages_ s !! frame_id;
      if (Page.GetPinCount pg <=? 0)%Z then Some (false, s)
      else
        let pg := if is_dirty then Page.set_is_dirty is_dirty pg else pg in
        let pg := Page.set_pin_count (Page.pin_count_ pg - 1)%Z pg in
        let s := set_page frame_id pg s in
        if (Page.pin_count_ pg =? 0)%Z then
          r ← LRUK.SetEvictable (replacer_ s) frame_id true;
          Some (true, set_replacer r s)
        else Some (true, s)
  end.

Definition FlushPgImp (page_id : Z) (s : t) : option (bool * t) :=
  match EHT.Find hash (page_table_ s) page_id with
  | None => Some (false, s)
  | Some frame_id =>
      pg ← pages_ s !! frame_id;
      let s := set_disk (DiskManager.WritePage page_id (Page.data_ pg) (disk_manager_ s)) s in
      Some (true, set_page frame_id (Page.set_is_dirty false pg) s)
  end.

(** One round of the loop of [FlushAllPgsImp]. *)
Definition FlushAll_round (d : gmap Z (list Byte.byte)) (pg : Page.t)
    : gmap Z (list Byte.byte) :=
  if Page.IsDirty pg then DiskManager.WritePage (Page.page_id_ pg) (Page.data_ pg) d
  else d.

(** [FlushAllPgsImp] visits [pages_[0]] to [pages_[pool_size_ - 1]], that is
    all of [pages_]. *)
Definition FlushAllPgsImp (s : t) : t :=
  set_disk (foldl FlushAll_round (disk_manager_ s) (pages_ s)) s.

Definition DeletePgImp (page_id : Z) (s : t) : option (bool * t) :=
  match EHT.Find hash (page_table_ s) page_id with
  | None => Some (true, s)
  | Some frame_id =>
      pg ← pages_ s !! frame_id;
      if (Page.pin_count_ pg >? 0)%Z then Some (false, s)
      else
        let s := set_page_table (EHT.Remove hash (page_table_ s) page_id).2 s in
        r ← LRUK.Remove (replacer_ s) frame_id;
        let s := set_replacer r s in
        let pg := Page.set_page_id INVALID_PAGE_ID (Page.ResetMemory BUSTUB_PAGE_SIZE pg) in
        let s := set_page frame_id pg s in
        let s := set_free_list (free_list_ s ++ [frame_id]) s in
        Some (true, DeallocatePage page_id s)
  end.

(** A caller holding the [Page*] of a frame writes its payload. *)
Definition WriteData (frame_id : nat) (bytes : list Byte.byte) (s : t) : option t :=
  pg ← pages_ s !! frame_id;
  Some (set_page frame_id (Page.set_data bytes pg) s).

(** The pool states reached from a fresh pool by calls that return. *)
Inductive reachable (pool_size : nat) (replacer_k : N) (bucket_size : nat)
    (disk : gmap Z (list Byte.byte)) : t -> Prop :=
| reach_init :
    reachable pool_size replacer_k bucket_size disk
      (BufferPoolManagerInstance pool_size replacer_k bucket_size disk)
| reach_NewPg s fuel res s' :
    reachable pool_size replacer_k bucket_size disk s ->
    NewPgImp fuel s = Some (res, s') ->
    reachable pool_size replacer_k bucket_size disk s'
| reach_FetchPg s fuel page_id res s' :
    reachable pool_size replacer_k bucket_size disk s ->
    FetchPgImp fuel page_id s = Some (res, s') ->
    reachable pool_size replacer_k bucket_size disk s'
| reach_UnpinPg s page_id is_dirty res s' :
    reachable pool_size replacer_k bucket_size disk s ->
    UnpinPgImp page_id is_dirty s = Some (res, s') ->
    reachable pool_size replacer_k bucket_size disk s'
| reach_FlushPg s page_id res s' :
    reachable pool_size replacer_k bucket_size disk s ->
    FlushPgImp page_id s = Some (res, s') ->
    reachable pool_size replacer_k bucket_size disk s'
| reach_FlushAllPgs s :
    reachable pool_size replacer_k bucket_size disk s ->
    reachable pool_size replacer_k bucket_size disk (FlushAllPgsImp s)
| reach_DeletePg s page_id res s' :
    reachable pool_size replacer_k bucket_size disk s ->
    DeletePgImp page_id s = Some (res, s') ->
    reachable pool_size replacer_k bucket_size disk s'
| reach_WriteData s frame_id bytes s' :
    reachable pool_size replacer_k bucket_size disk s ->
    WriteData frame_id bytes s = Some s' ->
    reachable pool_size replacer_k bucket_size disk s'.

End Pool.
End BufferPoolManagerInstance.

Module BPM := BufferPoolManagerInstance.

(** [std::hash<int>] as the usual standard libraries define it: the value
    converted to [size_t]. *)
Definition hash_int (x : Z) : N := Z.to_N (x mod 2 ^ 64).

(** * Invariants, reachable states and scenarios

    The notions the properties below are stated with. *)

(** [agree n x y]: [x] and [y] have the same [n] low bits. *)
Definition agree (n x y : N) : Prop := x mod 2 ^ n = y mod 2 ^ n.

Global Instance agree_dec n x y : Decision (agree n x y).
Proof. unfold agree. apply _. Defined.

(** ** The directory of the extendible hash table *)

Section TableSpec.
Context {K V : Type} `{EqDecision K}.
Variable hash : K -> N.

(** The invariant of the directory, slot by slot: [i] is a slot, [a] the
    address it holds and [b] the bucket at that address.  The discriminant of
    [b] is the value of the [depth_ b] low bits of [i]. *)
Record wf (tb : EHT.t K V) : Prop := {
  wf_depth : EHT.global_depth_ tb <= 30;
  wf_dir : N.of_nat (length (EHT.dir_ tb)) = 2 ^ EHT.global_depth_ tb;
  wf_addr : forall i a, EHT.dir_ tb !! i = Some a -> is_Some (EHT.store_ tb !! a);
  wf_local : forall i a b,
    EHT.dir_ tb !! i = Some a -> EHT.store_ tb !! a = Some b ->
    Bucket.depth_ b <= EHT.global_depth_ tb;
  wf_keys : forall i a b kv,
    EHT.dir_ tb !! i = Some a -> EHT.store_ tb !! a = Some b ->
    kv ∈ Bucket.list_ b ->
    agree (Bucket.depth_ b) (hash kv.1) (N.of_nat i);
  wf_share : forall i j a b,
    EHT.dir_ tb !! i = Some a -> EHT.store_ tb !! a = Some b ->
    (j < length (EHT.dir_ tb))%nat ->
    (EHT.dir_ tb !! j = Some a <-> agree (Bucket.depth_ b) (N.of_nat j) (N.of_nat i));
  wf_nodup : forall i a b,
    EHT.dir_ tb !! i = Some a -> EHT.store_ tb !! a = Some b ->
    NoDup (Bucket.list_ b).*1
}.

(** The tables reached from a fresh one by [Insert]s that return and by
    [Remove]s ([Find] leaves the table as it is). *)
Inductive table_reachable (bucket_size : nat) : EHT.t K V -> Prop :=
| table_init : table_reachable bucket_size (EHT.ExtendibleHashTable bucket_size)
| table_Insert tb fuel k v tb' :
    table_reachable bucket_size tb ->
    EHT.Insert hash fuel tb k v = EHT.Done tb' ->
    table_reachable bucket_size tb'
| table_Remove tb k :
    table_reachable bucket_size tb ->
    table_reachable bucket_size (EHT.Remove hash tb k).2.

(** The two buckets made by [GrowLocal] for the bucket [b0] of slot [i]. *)
Definition split_new (tb : EHT.t K V) (b0 : Bucket.t K V) : Bucket.t K V :=
  Bucket.Build (EHT.bucket_size_ tb) (Bucket.depth_ b0 + 1)
    (filter (fun kv => N.testbit (hash kv.1) (Bucket.depth_ b0) = true) (Bucket.list_ b0)).

Definition split_old (tb : EHT.t K V) (b0 : Bucket.t K V) : Bucket.t K V :=
  Bucket.Build (EHT.bucket_size_ tb) (Bucket.depth_ b0 + 1)
    (filter (fun kv => N.testbit (hash kv.1) (Bucket.depth_ b0) = false) (Bucket.list_ b0)).

End TableSpec.


(** Keys 1, 3 and 5 inserted into a fresh table of bucket capacity 2: all
    three hash to an odd value, so the bucket is split twice. *)
Definition odd_keys_1 : EHT.t nat nat :=
  EHT.Build 0 2 1 [0%nat] [Bucket.Build 2 0 [(1%nat, 10%nat)]].
Definition odd_keys_2 : EHT.t nat nat :=
  EHT.Build 0 2 1 [0%nat] [Bucket.Build 2 0 [(1%nat, 10%nat); (3%nat, 30%nat)]].
Definition odd_keys_3 : EHT.t nat nat :=
  EHT.Build 2 2 3 [2%nat; 4%nat; 2%nat; 3%nat]
    [Bucket.Build 2 0 [(1%nat, 10%nat); (3%nat, 30%nat)];
     Bucket.Build 2 1 [(1%nat, 10%nat); (3%nat, 30%nat)];
     Bucket.Build 2 1 [];
     Bucket.Build 2 2 [(3%nat, 30%nat)];
     Bucket.Build 2 2 [(1%nat, 10%nat); (5%nat, 50%nat)]].

(** A table of bucket capacity 1 that holds key 0, and a table of bucket
    capacity 2 whose only bucket is full with keys 1 and 2. *)
Definition single_key : EHT.t Z nat :=
  EHT.Build 0 1 1 [0%nat] [Bucket.Build 1 0 [(0%Z, 7%nat)]].
Definition two_keys : EHT.t Z nat :=
  EHT.Build 0 2 1 [0%nat] [Bucket.Build 2 0 [(1%Z, 10%nat); (2%Z, 20%nat)]].

(** ** The replacer *)

(** Five accesses with [k = 2]: frame 0 at times 0 and 1, frame 1 at times 2
    and 4, frame 2 at time 3; frames 0 and 1 are then made evictable. *)
Definition two_full_histories : option LRUK.t :=
  r ← LRUK.RecordAccess (LRUK.LRUKReplacer 7 2) 0;
  r ← LRUK.RecordAccess r 0;
  r ← LRUK.RecordAccess r 1;
  r ← LRUK.RecordAccess r 2;
  r ← LRUK.RecordAccess r 1;
  r ← LRUK.SetEvictable r 0 true;
  LRUK.SetEvictable r 1 true.

(** ** The pool *)

(** A frame the replacer knows as non-evictable is pinned. *)
Definition pin_ok (pages : list Page.t) (m : gmap nat LRUK.FrameInfo) : Prop :=
  forall f fi, m !! f = Some fi -> LRUK.evictable_ fi = false ->
    exists pg, pages !! f = Some pg /\ (0 < Page.pin_count_ pg)%Z.

Definition pool_inv (s : BPM.t) : Prop :=
  pin_ok (BPM.pages_ s) (LRUK.frameinfo_map_ (BPM.replacer_ s)) /\
  N.of_nat (length (BPM.pages_ s)) <= LRUK.replacer_size_ (BPM.replacer_ s).

Section InstallSpec.
Variable BUSTUB_PAGE_SIZE : nat.
Variable hash : Z -> N.

(** Steps 2 to 6 of [NewPgImp], from the frame acquired on. *)
Definition NewPg_install (fuel : nat) (frame_id : nat) (s : BPM.t)
    : option (option (Z * nat) * BPM.t) :=
  pg ← BPM.pages_ s !! frame_id;
  let s := BPM.write_back frame_id pg s in
  let al := BPM.AllocatePage s in
  let page_id := al.1 in
  let s := al.2 in
  pg ← BPM.pages_ s !! frame_id;
  let s := BPM.set_page_table (EHT.Remove hash (BPM.page_table_ s) (Page.page_id_ pg)).2 s in
  s ← BPM.table_insert hash fuel page_id frame_id s;
  let pg := Page.set_pin_count 1
              (Page.ResetMemory BUSTUB_PAGE_SIZE (Page.set_page_id page_id pg)) in
  let s := BPM.set_page frame_id pg s in
  r ← LRUK.RecordAccess (BPM.replacer_ s) frame_id;
  r ← LRUK.SetEvictable r frame_id false;
  Some (Some (page_id, frame_id), BPM.set_replacer r s).

End InstallSpec.

(** ** Scenarios on a small pool *)

(** A pool of one frame, with pages of two bytes, [k = 2], buckets of four
    pairs and an empty disk; every call is given fuel for 40 activations of
    the page table's [Insert]. *)
Definition pool1 : BPM.t := BPM.BufferPoolManagerInstance 2 1 2 4 ∅.

Definition NewPg (s : BPM.t) := BPM.NewPgImp 2 hash_int 40 s.
Definition FetchPg (page_id : Z) (s : BPM.t) := BPM.FetchPgImp 2 hash_int 40 page_id s.
Definition UnpinPg (page_id : Z) (is_dirty : bool) (s : BPM.t) :=
  BPM.UnpinPgImp hash_int page_id is_dirty s.
Definition FlushPg (page_id : Z) (s : BPM.t) := BPM.FlushPgImp hash_int page_id s.
Definition DeletePg (page_id : Z) (s : BPM.t) := BPM.DeletePgImp 2 hash_int page_id s.

Definition payload : list Byte.byte := [Byte.x41; Byte.x42].

(** The number of frames that hold a page. *)
Definition resident_frames (s : BPM.t) : nat :=
  length (filter (fun pg => Page.page_id_ pg <> INVALID_PAGE_ID) (BPM.pages_ s)).

(** [new_page] gives page 0, which is unpinned and fetched again: a hit. *)
Definition fetch_hit_run : option (option nat * BPM.t) :=
  r ← NewPg pool1;
  r ← UnpinPg 0 false r.2;
  FetchPg 0 r.2.

(** [new_page] gives page 0, which is unpinned; page 5 is then fetched: a
    miss that evicts page 0 from the only frame. *)
Definition fetch_miss_run : option (option nat * BPM.t) :=
  r ← NewPg pool1;
  r ← UnpinPg 0 false r.2;
  FetchPg 5 r.2.

(** The same with a second [new_page] in place of the fetch. *)
Definition new_page_evicts_run : option (option (Z * nat) * BPM.t) :=
  r ← NewPg pool1;
  r ← UnpinPg 0 false r.2;
  NewPg r.2.

(** After the miss, page 5 is unpinned and both pages are deleted. *)
Definition delete_both_run : option (bool * BPM.t) :=
  r ← fetch_miss_run;
  r ← UnpinPg 5 false r.2;
  r ← DeletePg 0 r.2;
  DeletePg 5 r.2.

(** The round trip: page 0 is fetched, written, unpinned as dirty and flushed;
    page 7 is fetched, which evicts page 0; page 0 is fetched again. *)
Definition round_trip_run : option (option nat * BPM.t) :=
  r ← NewPg pool1;
  r ← UnpinPg 0 false r.2;
  r ← FetchPg 0 r.2;
  s ← BPM.WriteData 0 payload r.2;
  r ← UnpinPg 0 true s;
  r ← FlushPg 0 r.2;
  r ← FetchPg 7 r.2;
  FetchPg 0 r.2.

(** The same round trip with the eviction forced by [new_page]; page 1, the
    new page, is unpinned before page 0 is fetched again. *)
Definition round_trip_new_page_run : option (option nat * BPM.t) :=
  r ← NewPg pool1;
  r ← UnpinPg 0 false r.2;
  r ← FetchPg 0 r.2;
  s ← BPM.WriteData 0 payload r.2;
  r ← UnpinPg 0 true s;
  r ← FlushPg 0 r.2;
  r ← NewPg r.2;
  r ← UnpinPg 1 false r.2;
  FetchPg 0 r.2.

(** Page 0 is written and unpinned as dirty, and evicted by [new_page]. *)
Definition dirty_eviction_run : option (option (Z * nat) * BPM.t) :=
  r ← NewPg pool1;
  s ← BPM.WriteData 0 payload r.2;
  r ← UnpinPg 0 true s;
  NewPg r.2.

(** A dirty page is deleted; then a new page is asked for. *)
Definition delete_dirty_run : option (bool * BPM.t) :=
  r ← NewPg pool1;
  s ← BPM.WriteData 0 payload r.2;
  r ← UnpinPg 0 true s;
  DeletePg 0 r.2.

Definition delete_dirty_then_new_run : option (option (Z * nat) * BPM.t) :=
  r ← delete_dirty_run;
  NewPg r.2.

(** The situation of claim C8: [delete_page(page_id)] passes its two guards
    and reaches [replacer_->Remove] on a frame that the replacer knows and
    holds as non-evictable. *)
Definition Remove_on_non_evictable (hash : Z -> N) (s : BPM.t) (page_id : Z) : Prop :=
  exists frame_id pg fi,
    EHT.Find hash (BPM.page_table_ s) page_id = Some frame_id /\
    BPM.pages_ s !! frame_id = Some pg /\
    (Page.pin_count_ pg >? 0)%Z = false /\
    LRUK.frameinfo_map_ (BPM.replacer_ s) !! frame_id = Some fi /\
    LRUK.evictable_ fi = false.

(** The pool of one frame after [new_page] (page 0) and [unpin(0)]. *)
Definition pool1_new : BPM.t :=
  Eval vm_compute in from_option snd pool1 (NewPg pool1).
Definition pool1_unpinned : BPM.t :=
  Eval vm_compute in from_option snd pool1 (r ← NewPg pool1; UnpinPg 0 false r.2).

(** The same pool after [new_page] (page 0), a write and [unpin(0, dirty)]. *)
Definition pool1_dirty : BPM.t :=
  Eval vm_compute in
    from_option snd pool1
      (r ← NewPg pool1; s ← BPM.WriteData 0 payload r.2; UnpinPg 0 true s).


Definition pool1_reused : BPM.t :=
  Eval vm_compute in from_option snd pool1 (NewPg pool1_dirty).


(** ** More on the directory *)

(** Every bucket the directory refers to has the capacity of the table and
    holds no more pairs than that. *)
Definition within_capacity {K V : Type} (tb : EHT.t K V) : Prop :=
  forall i a b, EHT.dir_ tb !! i = Some a -> EHT.store_ tb !! a = Some b ->
    Bucket.size_ b = EHT.bucket_size_ tb /\
    (length (Bucket.list_ b) <= Bucket.size_ b)%nat.

(** The buckets the directory refers to, each once. *)
Definition buckets_in_use {K V : Type} (tb : EHT.t K V) : gset nat :=
  list_to_set (EHT.dir_ tb).

(** The table of odd keys after one more [Insert], of key 7. *)
Definition odd_keys_4 : EHT.t nat nat :=
  EHT.Build 2 2 3 [2%nat; 4%nat; 2%nat; 3%nat]
    [Bucket.Build 2 0 [(1%nat, 10%nat); (3%nat, 30%nat)];
     Bucket.Build 2 1 [(1%nat, 10%nat); (3%nat, 30%nat)];
     Bucket.Build 2 1 [];
     Bucket.Build 2 2 [(3%nat, 30%nat); (7%nat, 70%nat)];
     Bucket.Build 2 2 [(1%nat, 10%nat); (5%nat, 50%nat)]].

(** ** More on the replacer *)

(** The frames the replacer holds with the evictable flag set. *)
Definition evictable_frames (r : LRUK.t) : gset nat :=
  dom (filter (fun p : nat * LRUK.FrameInfo => LRUK.evictable_ p.2 = true)
              (LRUK.frameinfo_map_ r)).

Fixpoint strictly_increasing (h : list Z) : Prop :=
  match h with
  | [] => True
  | t :: h' => Forall (Z.lt t) h' /\ strictly_increasing h'
  end.

(** What holds of the record [fi] kept for frame [f]: it carries its own id,
    the id passed the range check, and the history kept is not empty,
    strictly increasing, made of time stamps already given out, and of at
    most [k] time stamps when [k] is not 0. *)
Definition frame_ok (replacer_size k : N) (ticks : Z) (f : nat) (fi : LRUK.FrameInfo)
    : Prop :=
  LRUK.frame_id_ fi = f /\ N.of_nat f <= replacer_size /\
  LRUK.GetHistory fi <> [] /\
  strictly_increasing (LRUK.GetHistory fi) /\
  Forall (fun t => 0 <= t < ticks)%Z (LRUK.GetHistory fi) /\
  (1 <= k -> N.of_nat (length (LRUK.GetHistory fi)) <= k).

Record replacer_inv (r : LRUK.t) : Prop := {
  ri_cap : LRUK.replacer_size_ r < 2 ^ 64 - 1;
  ri_ticks : (0 <= LRUK.ticks_ r <= LRUK.INT32_MAX)%Z;
  ri_nodup : NoDup (LRUK.frameinfo_list_ r);
  ri_sync : forall f, f ∈ LRUK.frameinfo_list_ r <-> is_Some (LRUK.frameinfo_map_ r !! f);
  ri_frames : forall f fi, LRUK.frameinfo_map_ r !! f = Some fi ->
    frame_ok (LRUK.replacer_size_ r) (LRUK.k_ r) (LRUK.ticks_ r) f fi;
  ri_size : LRUK.curr_size_ r = N.of_nat (size (evictable_frames r))
}.

(** The replacers reached from a fresh one by calls that return.  The clock
    [ticks_] is an [int]: [RecordAccess] is taken only while [ticks_++] is
    defined. *)
Inductive replacer_reachable (num_frames k : N) : LRUK.t -> Prop :=
| replacer_init : replacer_reachable num_frames k (LRUK.LRUKReplacer num_frames k)
| replacer_RecordAccess r f r' :
    replacer_reachable num_frames k r ->
    (LRUK.ticks_ r < LRUK.INT32_MAX)%Z ->
    LRUK.RecordAccess r f = Some r' -> replacer_reachable num_frames k r'
| replacer_SetEvictable r f b r' :
    replacer_reachable num_frames k r ->
    LRUK.SetEvictable r f b = Some r' -> replacer_reachable num_frames k r'
| replacer_Evict r o r' :
    replacer_reachable num_frames k r ->
    LRUK.Evict r = Some (o, r') -> replacer_reachable num_frames k r'
| replacer_Remove r f r' :
    replacer_reachable num_frames k r ->
    LRUK.Remove r f = Some r' -> replacer_reachable num_frames k r'.

(** The time stamps of all the accesses recorded for a frame since it
    entered the replacer, oldest first: a log kept beside the replacer, which
    itself keeps only a part of it.  [log_access] adds the time stamp of a
    [RecordAccess]; [log_forget] empties the log of a frame that leaves the
    replacer. *)
Definition log_access (log : nat -> list Z) (f : nat) (t : Z) : nat -> list Z :=
  fun g => if decide (g = f) then log g ++ [t] else log g.
Definition log_forget (log : nat -> list Z) (f : nat) : nat -> list Z :=
  fun g => if decide (g = f) then [] else log g.

(** The last [k] time stamps of a log, the whole log when it has fewer; for
    [k = 0] the whole log. *)
Definition last_accesses (k : N) (log : list Z) : list Z :=
  if k =? 0 then log else drop (length log - N.to_nat k) log.

(** [replacer_reachable] with the log of the accesses. *)
Inductive replacer_run (num_frames k : N) : (nat -> list Z) -> LRUK.t -> Prop :=
| run_init : replacer_run num_frames k (fun _ => []) (LRUK.LRUKReplacer num_frames k)
| run_RecordAccess log r f r' :
    replacer_run num_frames k log r ->
    (LRUK.ticks_ r < LRUK.INT32_MAX)%Z ->
    LRUK.RecordAccess r f = Some r' ->
    replacer_run num_frames k (log_access log f (LRUK.ticks_ r)) r'
| run_SetEvictable log r f b r' :
    replacer_run num_frames k log r ->
    LRUK.SetEvictable r f b = Some r' -> replacer_run num_frames k log r'
| run_Evict log r o r' :
    replacer_run num_frames k log r ->
    LRUK.Evict r = Some (o, r') ->
    replacer_run num_frames k (from_option (log_forget log) log o) r'
| run_Remove log r f r' :
    replacer_run num_frames k log r ->
    LRUK.Remove r f = Some r' -> replacer_run num_frames k (log_forget log f) r'.

(** The order in which [Evict] takes its victims: [a] goes before [c] when
    its [KDistance] is larger, or the same with a first time stamp kept that
    is not later. *)
Definition victim_before (r : LRUK.t) (a c : LRUK.FrameInfo) : Prop :=
  (LRUK.KDistance r (LRUK.frame_id_ c) < LRUK.KDistance r (LRUK.frame_id_ a))%Z \/
  (LRUK.KDistance r (LRUK.frame_id_ c) = LRUK.KDistance r (LRUK.frame_id_ a) /\
   (hd 0 (LRUK.GetHistory a) <= hd 0 (LRUK.GetHistory c))%Z).

(** A replacer of 7 frames with [k = 2]: frame 0 accessed at time 0, frame 1
    at times 1 and 2, both made evictable. *)
Definition lru_1 : LRUK.t :=
  Eval vm_compute in
    from_option id (LRUK.LRUKReplacer 7 2) (LRUK.RecordAccess (LRUK.LRUKReplacer 7 2) 0).
Definition lru_2 : LRUK.t :=
  Eval vm_compute in from_option id lru_1 (LRUK.RecordAccess lru_1 1).
Definition lru_3 : LRUK.t :=
  Eval vm_compute in from_option id lru_2 (LRUK.RecordAccess lru_2 1).
Definition lru_4 : LRUK.t :=
  Eval vm_compute in from_option id lru_3 (LRUK.SetEvictable lru_3 0 true).
Definition lru_5 : LRUK.t :=
  Eval vm_compute in from_option id lru_4 (LRUK.SetEvictable lru_4 1 true).

Definition lru_6 : LRUK.t :=
  Eval vm_compute in from_option snd lru_5 (LRUK.Evict lru_5).

(** [lru_5] after a third access to frame 1, at time 3, and the log of the
    four accesses made. *)
Definition lru_7 : LRUK.t :=
  Eval vm_compute in from_option id lru_5 (LRUK.RecordAccess lru_5 1).
Definition lru_log : nat -> list Z :=
  log_access (log_access (log_access (log_access (fun _ => []) 0 0) 1 1) 1 2) 1 3.

(** Fewer than [k] accesses recorded: [KDistance] is [INT32_MAX]. *)
Definition short_history (k : N) (fi : LRUK.FrameInfo) : Prop :=
  N.of_nat (length (LRUK.GetHistory fi)) < k.

(** Newest minus oldest time stamp kept, and the oldest time stamp kept. *)
Definition history_span (fi : LRUK.FrameInfo) : Z :=
  (List.last (LRUK.GetHistory fi) 0 - hd 0 (LRUK.GetHistory fi))%Z.
Definition first_kept (fi : LRUK.FrameInfo) : Z := hd 0%Z (LRUK.GetHistory fi).

(** ** More on the pool *)

(** What holds of the frames, the page table and the free list of a pool of
    [pool_size] frames. *)
Record pool_shape (hash : Z -> N) (pool_size bucket_size : nat) (s : BPM.t) : Prop := {
  ps_size : BPM.pool_size_ s = pool_size;
  ps_pages : length (BPM.pages_ s) = pool_size;
  ps_pins : forall f pg, BPM.pages_ s !! f = Some pg -> (0 <= Page.pin_count_ pg)%Z;
  ps_table : table_reachable hash bucket_size (BPM.page_table_ s);
  ps_mapped : forall p f,
    EHT.Find hash (BPM.page_table_ s) p = Some f -> (f < pool_size)%nat;
  ps_free : forall f, f ∈ BPM.free_list_ s -> (f < pool_size)%nat
}.

(** [pool_steps s s']: the pool gets from [s] to [s'] by calls that return,
    [NewPgImp] being called only while the 32-bit counter [next_page_id_] is
    below 2^31 - 1, where [++] does not wrap around. *)
Inductive pool_steps (page_size : nat) (hash : Z -> N) (s : BPM.t) : BPM.t -> Prop :=
| steps_refl : pool_steps page_size hash s s
| steps_NewPg s1 fuel res s2 :
    pool_steps page_size hash s s1 ->
    (BPM.next_page_id_ s1 < 2 ^ 31 - 1)%Z ->
    BPM.NewPgImp page_size hash fuel s1 = Some (res, s2) -> pool_steps page_size hash s s2
| steps_FetchPg s1 fuel page_id res s2 :
    pool_steps page_size hash s s1 ->
    BPM.FetchPgImp page_size hash fuel page_id s1 = Some (res, s2) ->
    pool_steps page_size hash s s2
| steps_UnpinPg s1 page_id is_dirty res s2 :
    pool_steps page_size hash s s1 ->
    BPM.UnpinPgImp hash page_id is_dirty s1 = Some (res, s2) -> pool_steps page_size hash s s2
| steps_FlushPg s1 page_id res s2 :
    pool_steps page_size hash s s1 ->
    BPM.FlushPgImp hash page_id s1 = Some (res, s2) -> pool_steps page_size hash s s2
| steps_FlushAllPgs s1 :
    pool_steps page_size hash s s1 -> pool_steps page_size hash s (BPM.FlushAllPgsImp s1)
| steps_DeletePg s1 page_id res s2 :
    pool_steps page_size hash s s1 ->
    BPM.DeletePgImp page_size hash page_id s1 = Some (res, s2) ->
    pool_steps page_size hash s s2
| steps_WriteData s1 frame_id bytes s2 :
    pool_steps page_size hash s s1 ->
    BPM.WriteData frame_id bytes s1 = Some s2 -> pool_steps page_size hash s s2.

(** The disk after step 2 of [NewPgImp] and [FetchPgImp] on a frame that
    holds [pg]. *)
Definition disk_after_write_back (pg : Page.t) (d : gmap Z (list Byte.byte))
    : gmap Z (list Byte.byte) :=
  if Page.is_dirty_ pg then <[Page.page_id_ pg := Page.data_ pg]> d else d.

(** The pool of one frame after [new_page], [unpin(0)] and a fetch of page 7,
    which is not resident; after [new_page], [unpin(0)] and [delete_page(0)];
    after [new_page], [unpin(0)] and a second [new_page]. *)
Definition pool1_fetched : BPM.t :=
  Eval vm_compute in from_option snd pool1 (FetchPg 7 pool1_unpinned).
Definition pool1_deleted : BPM.t :=
  Eval vm_compute in from_option snd pool1 (DeletePg 0 pool1_unpinned).
Definition pool1_second : BPM.t :=
  Eval vm_compute in from_option snd pool1 (NewPg pool1_unpinned).

(** * Properties

    ** Low bits *)

Lemma agree_bits n x y :
  agree n x y <-> forall i, i < n -> N.testbit x i = N.testbit y i.
Proof.
  unfold agree. split.
  - intros H i Hi.
    rewrite <- (N.mod_pow2_bits_low x n i Hi), <- (N.mod_pow2_bits_low y n i Hi).
    by rewrite H.
  - intros H. apply N.bits_inj. intros i.
    destruct (N.lt_ge_cases i n) as [Hi|Hi].
    + rewrite !N.mod_pow2_bits_low by done. by apply H.
    + rewrite !N.mod_pow2_bits_high by done. done.
Qed.

Lemma mask_low x n : N.land x (N.shiftl 1 n - 1) = x mod 2 ^ n.
Proof.
  rewrite N.shiftl_1_l, N.sub_1_r, <- N.ones_equiv. apply N.land_ones.
Qed.

Lemma land_bit x n : (N.land x (N.shiftl 1 n) =? 0) = negb (N.testbit x n).
Proof.
  rewrite N.shiftl_1_l.
  destruct (N.testbit x n) eqn:Hb; simpl.
  - apply N.eqb_neq. intros H0.
    assert (N.testbit (N.land x (2 ^ n)) n = true).
    { rewrite N.land_spec, Hb, N.pow2_bits_true. done. }
    rewrite H0, N.bits_0 in H. done.
  - apply N.eqb_eq. apply N.bits_inj. intros i.
    rewrite N.land_spec, N.bits_0, N.pow2_bits_eqb.
    destruct (N.eqb_spec n i) as [->|]; [by rewrite Hb | by rewrite andb_false_r].
Qed.

Lemma agree_succ n x y :
  agree (n + 1) x y <-> agree n x y /\ N.testbit x n = N.testbit y n.
Proof.
  rewrite !agree_bits. split.
  - intros H. split; [intros i Hi; apply H; lia | apply H; lia].
  - intros [H Hb] i Hi. destruct (N.eq_dec i n) as [->|]; [done | apply H; lia].
Qed.

Lemma agree_le m n x y : m <= n -> agree n x y -> agree m x y.
Proof. rewrite !agree_bits. intros Hmn H i Hi. apply H. lia. Qed.

Lemma agree_refl n x : agree n x x.
Proof. done. Qed.

Lemma agree_sym n x y : agree n x y -> agree n y x.
Proof. unfold agree. congruence. Qed.

Lemma agree_trans n x y z : agree n x y -> agree n y z -> agree n x z.
Proof. unfold agree. congruence. Qed.

Lemma agree_mod n x : agree n (x mod 2 ^ n) x.
Proof. unfold agree. apply N.Div0.mod_mod. Qed.

Lemma agree_add_pow2 m n x : m <= n -> agree m (x + 2 ^ n) x.
Proof.
  intros Hmn. unfold agree.
  replace n with ((n - m) + m) by lia. rewrite N.pow_add_r.
  apply N.Div0.mod_add.
Qed.

Lemma agree_progression n r j :
  r < 2 ^ n -> (agree n j r <-> exists q, j = r + q * 2 ^ n).
Proof.
  intros Hr. unfold agree. rewrite (N.mod_small r) by done. split.
  - intros H. exists (j / 2 ^ n). rewrite <- H.
    rewrite N.add_comm, N.mul_comm. apply N.div_mod'.
  - intros [q ->]. rewrite N.Div0.mod_add. by apply N.mod_small.
Qed.

(** ** Buckets *)

Section BucketFacts.
Context {K V : Type} `{EqDecision K}.
Implicit Types (l : list (K * V)) (k : K) (v : V).

Lemma Find_items_Insert_items k v l :
  Bucket.Find_items k (Bucket.Insert_items k v l) = Some v.
Proof.
  induction l as [|kv l IH]; csimpl.
  - by rewrite decide_True.
  - destruct (decide (kv.1 = k)) as [He|Hne]; csimpl.
    + by rewrite decide_True.
    + by rewrite decide_False.
Qed.

Lemma Find_items_Insert_items_ne k k' v l :
  k' <> k ->
  Bucket.Find_items k' (Bucket.Insert_items k v l) = Bucket.Find_items k' l.
Proof.
  intros Hne. induction l as [|kv l IH]; csimpl.
  - by rewrite decide_False.
  - destruct (decide (kv.1 = k)) as [He|Hne']; csimpl.
    + rewrite !decide_False by congruence. done.
    + by rewrite IH.
Qed.

Lemma Insert_items_fresh k v l :
  k ∉ l.*1 -> Bucket.Insert_items k v l = l ++ [(k, v)].
Proof.
  induction l as [|kv l IH]; csimpl; [done|].
  intros Hn. apply not_elem_of_cons in Hn as [Hne Hn].
  rewrite decide_False by done. by rewrite IH.
Qed.

Lemma Insert_items_keys k v l :
  (Bucket.Insert_items k v l).*1 = if decide (k ∈ l.*1) then l.*1 else l.*1 ++ [k].
Proof.
  induction l as [|kv l IH]; csimpl.
  - done.
  - destruct (decide (kv.1 = k)) as [He|Hne]; csimpl.
    + rewrite decide_True; [done | rewrite He; apply list_elem_of_here].
    + rewrite IH. destruct (decide (k ∈ l.*1)) as [Hin|Hin].
      * rewrite decide_True; [done | by apply list_elem_of_further].
      * rewrite decide_False; [done|].
        intros Hc. apply elem_of_cons in Hc as [Hc|Hc]; congruence.
Qed.

Lemma Insert_items_NoDup k v l :
  NoDup l.*1 -> NoDup (Bucket.Insert_items k v l).*1.
Proof.
  intros Hnd. rewrite Insert_items_keys. case_decide; [done|].
  apply NoDup_app. split_and!; [done | | apply NoDup_singleton].
  intros x Hx Hx'. apply list_elem_of_singleton in Hx'. by subst.
Qed.

Lemma Insert_items_elem k v l kv :
  kv ∈ Bucket.Insert_items k v l -> kv.1 = k \/ kv ∈ l.
Proof.
  induction l as [|kv' l IH]; csimpl.
  - intros Hin. apply list_elem_of_singleton in Hin. left. by subst.
  - destruct (decide (kv'.1 = k)) as [He|Hne]; intros Hin;
      apply elem_of_cons in Hin as [Hin|Hin].
    + left. by subst.
    + right. by apply list_elem_of_further.
    + right. subst. apply list_elem_of_here.
    + destruct (IH Hin); [by left | right; by apply list_elem_of_further].
Qed.

Lemma Remove_items_elem k l kv :
  kv ∈ (Bucket.Remove_items k l).2 -> kv ∈ l.
Proof.
  induction l as [|kv' l IH]; csimpl; [done|].
  destruct (decide (kv'.1 = k)); csimpl; intros Hin.
  - by apply list_elem_of_further.
  - apply elem_of_cons in Hin as [->|Hin];
      [apply list_elem_of_here | apply list_elem_of_further; auto].
Qed.

Lemma Remove_items_NoDup k l :
  NoDup l.*1 -> NoDup (Bucket.Remove_items k l).2.*1.
Proof.
  induction l as [|kv' l IH]; csimpl; [done|].
  intros Hnd. apply NoDup_cons in Hnd as [Hn Hnd].
  destruct (decide (kv'.1 = k)); csimpl; [done|].
  apply NoDup_cons. split; [|auto].
  intros Hin. apply Hn. apply list_elem_of_fmap in Hin as (kv & -> & Hin).
  apply list_elem_of_fmap. exists kv. split; [done|]. by eapply Remove_items_elem.
Qed.

Lemma Find_items_Some k v l :
  Bucket.Find_items k l = Some v -> (k, v) ∈ l.
Proof.
  induction l as [|kv l IH]; csimpl; [done|].
  destruct (decide (kv.1 = k)) as [He|Hne]; intros H.
  - inversion H. subst. destruct kv. apply list_elem_of_here.
  - apply list_elem_of_further. auto.
Qed.

Lemma Find_items_None k l :
  Bucket.Find_items k l = None <-> k ∉ l.*1.
Proof.
  induction l as [|kv l IH]; csimpl.
  - split; [intros _; apply not_elem_of_nil | done].
  - destruct (decide (kv.1 = k)) as [He|Hne].
    + split; [done|]. intros Hn. exfalso. apply Hn. rewrite He. apply list_elem_of_here.
    + rewrite IH. rewrite not_elem_of_cons. split; [by split | by intros [_ ?]].
Qed.

End BucketFacts.

(** ** The directory invariant *)

Section TableInvariant.
Context {K V : Type} `{EqDecision K}.
Variable hash : K -> N.
Implicit Types (tb : EHT.t K V) (b : Bucket.t K V) (k : K) (v : V).

Lemma IndexOf_low tb k : EHT.IndexOf hash tb k = hash k mod 2 ^ EHT.global_depth_ tb.
Proof. apply mask_low. Qed.

Lemma IndexOf_lt tb k :
  wf hash tb -> (N.to_nat (EHT.IndexOf hash tb k) < length (EHT.dir_ tb))%nat.
Proof.
  intros Hwf. rewrite IndexOf_low.
  pose proof (wf_dir hash _ Hwf) as Hd.
  assert (hash k mod 2 ^ EHT.global_depth_ tb < 2 ^ EHT.global_depth_ tb).
  { apply N.mod_lt. apply N.pow_nonzero. done. }
  lia.
Qed.

(** What a slot in range points to. *)
Lemma slot_lookup tb (i : nat) :
  wf hash tb -> (i < length (EHT.dir_ tb))%nat ->
  exists b, EHT.dir_ tb !! i = Some (EHT.slot tb (N.of_nat i)) /\
            EHT.store_ tb !! EHT.slot tb (N.of_nat i) = Some b /\
            EHT.bucket_at tb (N.of_nat i) = b.
Proof.
  intros Hwf Hi. unfold EHT.bucket_at, EHT.deref, EHT.slot. rewrite Nat2N.id.
  destruct (lookup_lt_is_Some_2 _ _ Hi) as [a Ha]. rewrite Ha. simpl.
  destruct (wf_addr hash _ Hwf _ _ Ha) as [b Hb]. rewrite Hb. eauto.
Qed.

Lemma index_lookup tb k :
  wf hash tb ->
  exists i b, N.of_nat i = EHT.IndexOf hash tb k /\
              EHT.dir_ tb !! i = Some (EHT.slot tb (EHT.IndexOf hash tb k)) /\
              EHT.store_ tb !! EHT.slot tb (EHT.IndexOf hash tb k) = Some b /\
              EHT.bucket_at tb (EHT.IndexOf hash tb k) = b.
Proof.
  intros Hwf. pose proof (IndexOf_lt tb k Hwf) as Hlt.
  destruct (slot_lookup tb _ Hwf Hlt) as (b & H1 & H2 & H3).
  rewrite N2Nat.id in *. exists (N.to_nat (EHT.IndexOf hash tb k)), b.
  rewrite N2Nat.id. done.
Qed.

Lemma wf_init bucket_size : wf hash (EHT.ExtendibleHashTable bucket_size : EHT.t K V).
Proof.
  split; simpl.
  - lia.
  - done.
  - intros [|i] a Hi; [|done]. inversion Hi. by eexists.
  - intros [|i] a b Hi Ha; [|done]. inversion Hi; subst. inversion Ha; subst. simpl. lia.
  - intros [|i] a b kv Hi Ha Hin; [|done]. inversion Hi; subst. inversion Ha; subst.
    by apply elem_of_nil in Hin.
  - intros [|i] j a b Hi Ha Hj; [|done].
    assert (j = 0%nat) as -> by lia. inversion Hi; subst. done.
  - intros [|i] a b Hi Ha; [|done]. inversion Hi; subst. inversion Ha; subst. simpl.
    apply NoDup_nil_2.
Qed.

(** Replacing the bucket a slot points to by one of the same depth whose
    keys carry the right low bits keeps the invariant. *)
Lemma wf_set_bucket tb i a b b' :
  wf hash tb ->
  EHT.dir_ tb !! i = Some a -> EHT.store_ tb !! a = Some b ->
  Bucket.depth_ b' = Bucket.depth_ b ->
  (forall kv, kv ∈ Bucket.list_ b' ->
     kv ∈ Bucket.list_ b \/ agree (Bucket.depth_ b) (hash kv.1) (N.of_nat i)) ->
  NoDup (Bucket.list_ b').*1 ->
  wf hash (EHT.set_bucket tb a b').
Proof.
  intros Hwf Hi Ha Hd Hk Hnd.
  assert (Hlen : (a < length (EHT.store_ tb))%nat) by (by eapply lookup_lt_Some).
  assert (Hlook : forall a0 b0, <[a := b']> (EHT.store_ tb) !! a0 = Some b0 ->
            (a0 = a /\ b0 = b') \/ (a0 <> a /\ EHT.store_ tb !! a0 = Some b0)).
  { intros a0 b0. destruct (decide (a0 = a)) as [->|Hne].
    - rewrite list_lookup_insert_eq by done. intros [= <-]. by left.
    - rewrite list_lookup_insert_ne by done. by right. }
  split; simpl.
  - by apply (wf_depth hash).
  - by apply (wf_dir hash).
  - intros j a0 Hj. apply lookup_lt_is_Some. rewrite length_insert.
    apply lookup_lt_is_Some. by eapply (wf_addr hash).
  - intros j a0 b0 Hj Ha0. destruct (Hlook _ _ Ha0) as [[-> ->]|[Hne Hb0]].
    + rewrite Hd. by eapply (wf_local hash).
    + by eapply (wf_local hash).
  - intros j a0 b0 kv Hj Ha0 Hin. destruct (Hlook _ _ Ha0) as [[-> ->]|[Hne Hb0]].
    + rewrite Hd. destruct (Hk _ Hin) as [Hold|Hag].
      * by eapply (wf_keys hash).
      * eapply agree_trans; [exact Hag|]. apply agree_sym.
        eapply (wf_share hash _ Hwf i j a b); [done..| |done].
        by eapply lookup_lt_Some.
    + by eapply (wf_keys hash).
  - intros j j' a0 b0 Hj Ha0 Hj'. destruct (Hlook _ _ Ha0) as [[-> ->]|[Hne Hb0]].
    + rewrite Hd. by eapply (wf_share hash).
    + by eapply (wf_share hash).
  - intros j a0 b0 Hj Ha0. destruct (Hlook _ _ Ha0) as [[-> ->]|[Hne Hb0]].
    + done.
    + by eapply (wf_nodup hash).
Qed.

Lemma wf_Remove tb k : wf hash tb -> wf hash (EHT.Remove hash tb k).2.
Proof.
  intros Hwf. destruct (index_lookup tb k Hwf) as (i & b & Hi & Hd & Hs & Hb).
  unfold EHT.Remove. simpl. fold (EHT.bucket_at tb (EHT.IndexOf hash tb k)). rewrite Hb.
  eapply (wf_set_bucket tb i _ b); [done..| | |]; simpl.
  - done.
  - intros kv Hin. left. by eapply Remove_items_elem.
  - apply Remove_items_NoDup. by eapply (wf_nodup hash).
Qed.

Lemma double_lookup (dir : list nat) (i : nat) :
  (i < length (dir ++ dir))%nat ->
  exists i0, (i0 < length dir)%nat /\ (dir ++ dir) !! i = dir !! i0 /\
             (i = i0 \/ i = (i0 + length dir)%nat).
Proof.
  rewrite length_app. intros Hi.
  destruct (decide (i < length dir)%nat) as [Hlt|Hge].
  - exists i. split; [done|]. split; [by apply lookup_app_l | by left].
  - exists (i - length dir)%nat. split; [lia|]. split; [apply lookup_app_r; lia | right; lia].
Qed.

Lemma wf_GrowGlobal tb index :
  wf hash tb -> EHT.global_depth_ tb + 1 <= 30 -> wf hash (EHT.GrowGlobal tb index).
Proof.
  intros Hwf Hd.
  pose proof (wf_dir hash _ Hwf) as Hlen.
  assert (Hlow : forall i a, (EHT.dir_ tb ++ EHT.dir_ tb) !! i = Some a ->
     exists i0, EHT.dir_ tb !! i0 = Some a /\
       forall n, n <= EHT.global_depth_ tb -> agree n (N.of_nat i) (N.of_nat i0)).
  { intros i a Hi.
    destruct (double_lookup (EHT.dir_ tb) i) as (i0 & Hi0 & Heq & Hor).
    { by eapply lookup_lt_Some. }
    exists i0. split; [by rewrite <- Heq|]. intros n Hn.
    destruct Hor as [->| ->]; [done|].
    rewrite Nat2N.inj_add, Hlen. by apply agree_add_pow2. }
  split; simpl.
  - done.
  - rewrite length_app, Nat2N.inj_add, Hlen, N.pow_add_r. simpl. lia.
  - intros i a Hi. destruct (Hlow _ _ Hi) as (i0 & Hi0 & _). by eapply (wf_addr hash).
  - intros i a b Hi Ha. destruct (Hlow _ _ Hi) as (i0 & Hi0 & _).
    pose proof (wf_local hash _ Hwf _ _ _ Hi0 Ha). lia.
  - intros i a b kv Hi Ha Hin. destruct (Hlow _ _ Hi) as (i0 & Hi0 & Hag).
    eapply agree_trans; [by eapply (wf_keys hash)|].
    apply agree_sym, Hag. by eapply (wf_local hash).
  - intros i j a b Hi Ha Hj. destruct (Hlow _ _ Hi) as (i0 & Hi0 & Hag).
    destruct (double_lookup (EHT.dir_ tb) j Hj) as (j0 & Hj0 & Heq & Hor).
    pose proof (wf_local hash _ Hwf _ _ _ Hi0 Ha) as HL.
    assert (Hagj : agree (Bucket.depth_ b) (N.of_nat j) (N.of_nat j0)).
    { destruct Hor as [->| ->]; [done|].
      rewrite Nat2N.inj_add, Hlen. by apply agree_add_pow2. }
    rewrite Heq, (wf_share hash _ Hwf i0 j0 a b Hi0 Ha Hj0).
    split; intros Hx.
    + eapply agree_trans; [exact Hagj|]. eapply agree_trans; [exact Hx|].
      apply agree_sym. by apply Hag.
    + eapply agree_trans; [apply agree_sym; exact Hagj|].
      eapply agree_trans; [exact Hx|]. by apply Hag.
  - intros i a b Hi Ha. destruct (Hlow _ _ Hi) as (i0 & Hi0 & _). by eapply (wf_nodup hash).
Qed.

(** The second loop of [GrowLocal]. *)
Lemma redirect_length rounds i mask na oa (dir : list nat) :
  length (EHT.redirect rounds i mask na oa dir) = length dir.
Proof.
  revert i dir. induction rounds as [|rounds IH]; intros i dir; simpl; [done|].
  destruct (i <? N.of_nat (length dir)); [|done].
  by rewrite IH, length_insert.
Qed.

Lemma redirect_miss rounds i mask na oa (dir : list nat) (j : nat) :
  (forall q, N.of_nat j <> i + q * mask) ->
  EHT.redirect rounds i mask na oa dir !! j = dir !! j.
Proof.
  revert i dir. induction rounds as [|rounds IH]; intros i dir Hq; simpl; [done|].
  destruct (i <? N.of_nat (length dir)); [|done].
  rewrite IH.
  - apply list_lookup_insert_ne. intros <-. apply (Hq 0). lia.
  - intros q Hj. apply (Hq (q + 1)). lia.
Qed.

Lemma redirect_hit rounds i mask na oa (dir : list nat) (j : nat) q :
  0 < mask -> (j < length dir)%nat -> N.of_nat j = i + q * mask ->
  (N.to_nat q < rounds)%nat ->
  EHT.redirect rounds i mask na oa dir !! j =
    Some (if N.land (N.of_nat j) mask =? 0 then oa else na).
Proof.
  intros Hm. revert i dir q.
  induction rounds as [|rounds IH]; intros i dir q Hj Hq Hr; simpl; [lia|].
  assert (Hi : (i <? N.of_nat (length dir)) = true) by (apply N.ltb_lt; nia).
  rewrite Hi. destruct (N.eq_dec q 0) as [->|Hq0].
  - assert (i = N.of_nat j) as -> by lia.
    rewrite redirect_miss.
    + rewrite Nat2N.id. by apply list_lookup_insert_eq.
    + intros q. nia.
  - apply (IH _ _ (q - 1)).
    + by rewrite length_insert.
    + nia.
    + lia.
Qed.

(** The first loop of [GrowLocal], on a bucket without duplicate keys. *)
Lemma split_items_filter mask (items : list (K * V)) nb ob :
  NoDup ((Bucket.list_ nb).*1 ++ (Bucket.list_ ob).*1 ++ items.*1) ->
  EHT.split_items hash mask items nb ob =
    (Bucket.Build (Bucket.size_ nb) (Bucket.depth_ nb)
       (Bucket.list_ nb ++ filter (fun kv => N.land (hash kv.1) mask <> 0) items),
     Bucket.Build (Bucket.size_ ob) (Bucket.depth_ ob)
       (Bucket.list_ ob ++ filter (fun kv => N.land (hash kv.1) mask = 0) items)).
Proof.
  revert nb ob. induction items as [|[k0 v0] items IH]; intros nb ob Hnd; csimpl.
  - rewrite !app_nil_r. by destruct nb, ob.
  - unfold EHT.Hash.
    assert (Hnb : k0 ∉ (Bucket.list_ nb).*1).
    { intros Hin. apply NoDup_app in Hnd as (_ & Hd & _). apply (Hd _ Hin).
      apply elem_of_app. right. apply list_elem_of_here. }
    assert (Hob : k0 ∉ (Bucket.list_ ob).*1).
    { intros Hin. apply NoDup_app in Hnd as (_ & _ & Hnd).
      apply NoDup_app in Hnd as (_ & Hd & _). apply (Hd _ Hin). apply list_elem_of_here. }
    destruct (N.land (hash k0) mask =? 0) eqn:Hz.
    + apply N.eqb_eq in Hz. rewrite IH.
      * simpl. rewrite Insert_items_fresh by done.
        rewrite filter_cons_False by (simpl; intros Hc; by apply Hc).
        rewrite filter_cons_True by done.
        by rewrite <- app_assoc.
      * simpl. rewrite Insert_items_fresh by done. rewrite fmap_app. csimpl.
        rewrite <- app_assoc. simpl. done.
    + apply N.eqb_neq in Hz. rewrite IH.
      * simpl. rewrite Insert_items_fresh by done.
        rewrite filter_cons_True by done.
        rewrite filter_cons_False by done.
        by rewrite <- app_assoc.
      * simpl. rewrite Insert_items_fresh by done. rewrite fmap_app. csimpl.
        rewrite <- app_assoc. simpl.
        eapply NoDup_Permutation_proper; [|exact Hnd].
        apply Permutation_app_head. apply Permutation_middle.
Qed.

Lemma filter_keys_NoDup (P : K * V -> Prop) `{!forall kv, Decision (P kv)}
    (l : list (K * V)) :
  NoDup l.*1 -> NoDup (filter P l).*1.
Proof.
  intros Hnd. eapply sublist_NoDup; [exact Hnd|].
  apply fmap_sublist, sublist_filter.
Qed.

Lemma GrowLocal_store tb (i : nat) a0 b0 :
  wf hash tb -> EHT.dir_ tb !! i = Some a0 -> EHT.store_ tb !! a0 = Some b0 ->
  EHT.store_ (EHT.GrowLocal hash tb (N.of_nat i)) =
    EHT.store_ tb ++ [split_new hash tb b0; split_old hash tb b0].
Proof.
  intros Hwf Hi Ha.
  assert (Hb : EHT.bucket_at tb (N.of_nat i) = b0).
  { unfold EHT.bucket_at, EHT.slot, EHT.deref. by rewrite Nat2N.id, Hi; simpl; rewrite Ha. }
  unfold EHT.GrowLocal, EHT.GetLocalDepthInternal. rewrite Hb. simpl.
  rewrite split_items_filter; simpl.
  - unfold split_new, split_old. do 3 f_equal.
    + f_equal. apply list_filter_iff. intros kv.
      pose proof (land_bit (hash kv.1) (Bucket.depth_ b0)) as Hl.
      destruct (N.testbit (hash kv.1) (Bucket.depth_ b0)); simpl in Hl.
      * apply N.eqb_neq in Hl. done.
      * apply N.eqb_eq in Hl. done.
    + f_equal. f_equal. apply list_filter_iff. intros kv.
      pose proof (land_bit (hash kv.1) (Bucket.depth_ b0)) as Hl.
      destruct (N.testbit (hash kv.1) (Bucket.depth_ b0)); simpl in Hl.
      * apply N.eqb_neq in Hl. done.
      * apply N.eqb_eq in Hl. done.
  - by eapply (wf_nodup hash).
Qed.

Lemma GrowLocal_dir tb (i : nat) a0 b0 (j : nat) :
  wf hash tb -> EHT.dir_ tb !! i = Some a0 -> EHT.store_ tb !! a0 = Some b0 ->
  (j < length (EHT.dir_ tb))%nat ->
  EHT.dir_ (EHT.GrowLocal hash tb (N.of_nat i)) !! j =
    if decide (agree (Bucket.depth_ b0) (N.of_nat j) (N.of_nat i))
    then Some (if N.testbit (N.of_nat j) (Bucket.depth_ b0)
               then length (EHT.store_ tb) else S (length (EHT.store_ tb)))
    else EHT.dir_ tb !! j.
Proof.
  intros Hwf Hi Ha Hj.
  assert (Hb : EHT.bucket_at tb (N.of_nat i) = b0).
  { unfold EHT.bucket_at, EHT.slot, EHT.deref. by rewrite Nat2N.id, Hi; simpl; rewrite Ha. }
  unfold EHT.GrowLocal, EHT.GetLocalDepthInternal. rewrite Hb. simpl.
  set (L := Bucket.depth_ b0). rewrite mask_low.
  assert (Hr : N.of_nat i mod 2 ^ L < 2 ^ L).
  { apply N.mod_lt, N.pow_nonzero. done. }
  assert (Hpos : 0 < 2 ^ L).
  { apply N.neq_0_lt_0, N.pow_nonzero. done. }
  pose proof (agree_progression L _ (N.of_nat j) Hr) as Hprog.
  destruct (decide (agree L (N.of_nat j) (N.of_nat i))) as [Hag|Hag].
  - assert (Hag' : agree L (N.of_nat j) (N.of_nat i mod 2 ^ L)).
    { eapply agree_trans; [exact Hag|]. apply agree_sym, agree_mod. }
    apply Hprog in Hag' as [q Hq].
    rewrite (redirect_hit _ _ _ _ _ _ j q); rewrite ?N.shiftl_1_l; try done.
    + rewrite <- (N.shiftl_1_l L), land_bit. by destruct (N.testbit (N.of_nat j) L).
    + assert (Hle : q * 1 <= q * 2 ^ L) by (apply N.mul_le_mono_l; lia).
      revert Hle Hq. generalize (q * 2 ^ L) (N.of_nat i mod 2 ^ L). lia.
  - apply redirect_miss. rewrite N.shiftl_1_l. intros q Hq. apply Hag.
    eapply agree_trans; [|apply agree_mod]. apply Hprog. eauto.
Qed.

Lemma GrowLocal_dir_length tb index :
  length (EHT.dir_ (EHT.GrowLocal hash tb index)) = length (EHT.dir_ tb).
Proof. apply redirect_length. Qed.

Lemma wf_GrowLocal tb (i : nat) :
  wf hash tb -> (i < length (EHT.dir_ tb))%nat ->
  EHT.GetLocalDepthInternal tb (N.of_nat i) < EHT.global_depth_ tb ->
  wf hash (EHT.GrowLocal hash tb (N.of_nat i)).
Proof.
  intros Hwf Hi HL.
  destruct (slot_lookup tb i Hwf Hi) as (b0 & Hd & Hs & Hb).
  set (a0 := EHT.slot tb (N.of_nat i)) in *.
  unfold EHT.GetLocalDepthInternal in HL. rewrite Hb in HL.
  set (L := Bucket.depth_ b0) in *.
  set (tb' := EHT.GrowLocal hash tb (N.of_nat i)).
  pose proof (GrowLocal_store tb i a0 b0 Hwf Hd Hs) as Hstore. fold tb' in Hstore.
  pose proof (fun j => GrowLocal_dir tb i a0 b0 j Hwf Hd Hs) as Hdir. fold tb' L in Hdir.
  pose proof (GrowLocal_dir_length tb (N.of_nat i)) as Hlen. fold tb' in Hlen.
  set (na := length (EHT.store_ tb)) in *.
  (* the three kinds of slots of the new directory *)
  assert (Hslot : forall j a b, EHT.dir_ tb' !! j = Some a -> EHT.store_ tb' !! a = Some b ->
    (agree L (N.of_nat j) (N.of_nat i) /\ N.testbit (N.of_nat j) L = true /\
       a = na /\ b = split_new hash tb b0) \/
    (agree L (N.of_nat j) (N.of_nat i) /\ N.testbit (N.of_nat j) L = false /\
       a = S na /\ b = split_old hash tb b0) \/
    (~ agree L (N.of_nat j) (N.of_nat i) /\ EHT.dir_ tb !! j = Some a /\
       EHT.store_ tb !! a = Some b /\ (a < na)%nat)).
  { intros j a b Hj Ha.
    assert (Hjlt : (j < length (EHT.dir_ tb))%nat).
    { rewrite <- Hlen. by eapply lookup_lt_Some. }
    rewrite Hdir in Hj by done. rewrite Hstore in Ha.
    destruct (decide (agree L (N.of_nat j) (N.of_nat i))) as [Hag|Hag].
    - destruct (N.testbit (N.of_nat j) L) eqn:Hbit; inversion Hj; subst a.
      + left. split_and!; [done..|].
        rewrite lookup_app_r in Ha by done. fold na in Ha.
        rewrite Nat.sub_diag in Ha. by inversion Ha.
      + right; left. split_and!; [done..|].
        rewrite lookup_app_r in Ha by (fold na; lia).
        fold na in Ha. replace (S na - na)%nat with 1%nat in Ha by lia. by inversion Ha.
    - right; right. destruct (wf_addr hash _ Hwf _ _ Hj) as [b' Hb'].
      pose proof (lookup_lt_Some _ _ _ Hb') as Hlt.
      rewrite lookup_app_l in Ha by done. done. }
  assert (HG : EHT.global_depth_ tb' = EHT.global_depth_ tb) by done.
  split; rewrite ?HG.
  - by apply (wf_depth hash).
  - rewrite Hlen. by apply (wf_dir hash).
  - intros j a Hj.
    assert (Hjlt : (j < length (EHT.dir_ tb))%nat).
    { rewrite <- Hlen. by eapply lookup_lt_Some. }
    rewrite Hdir in Hj by done. apply lookup_lt_is_Some.
    rewrite Hstore, length_app. simpl. fold na.
    destruct (decide (agree L (N.of_nat j) (N.of_nat i))).
    + destruct (N.testbit (N.of_nat j) L); inversion Hj; lia.
    + destruct (wf_addr hash _ Hwf _ _ Hj) as [b' Hb'].
      pose proof (lookup_lt_Some _ _ _ Hb'). unfold na. lia.
  - intros j a b Hj Ha.
    destruct (Hslot _ _ _ Hj Ha) as [(_ & _ & _ & ->)|[(_ & _ & _ & ->)|(_ & Hj' & Ha' & _)]];
      simpl; [fold L; lia | fold L; lia |].
    by eapply (wf_local hash).
  - intros j a b kv Hj Ha Hin.
    destruct (Hslot _ _ _ Hj Ha) as [(Hag & Hbit & _ & ->)|[(Hag & Hbit & _ & ->)|(_ & Hj' & Ha' & _)]].
    + unfold split_new in Hin |- *. simpl in Hin |- *.
      apply list_elem_of_filter in Hin as [Hb1 Hin]. apply agree_succ. split.
      * eapply agree_trans; [by eapply (wf_keys hash _ Hwf i a0 b0)|]. by apply agree_sym.
      * rewrite Hb1. symmetry. exact Hbit.
    + unfold split_old in Hin |- *. simpl in Hin |- *.
      apply list_elem_of_filter in Hin as [Hb1 Hin]. apply agree_succ. split.
      * eapply agree_trans; [by eapply (wf_keys hash _ Hwf i a0 b0)|]. by apply agree_sym.
      * rewrite Hb1. symmetry. exact Hbit.
    + by eapply (wf_keys hash).
  - intros j1 j a b Hj1 Ha Hj. rewrite Hlen in Hj.
    rewrite (Hdir j Hj).
    destruct (Hslot _ _ _ Hj1 Ha) as [(Hag & Hbit & -> & ->)|[(Hag & Hbit & -> & ->)|(Hnag & Hj' & Ha' & Hlt)]];
      simpl.
    + fold L. rewrite agree_succ.
      destruct (decide (agree L (N.of_nat j) (N.of_nat i))) as [Hag2|Hag2].
      * destruct (N.testbit (N.of_nat j) L) eqn:Hb2.
        -- split; [intros _|done]. split; [|congruence].
           eapply agree_trans; [exact Hag2|]. by apply agree_sym.
        -- split; [intros [=]; lia | intros [_ ?]; congruence].
      * split.
        -- intros Hx. destruct (wf_addr hash _ Hwf _ _ Hx) as [b' Hb'].
           pose proof (lookup_lt_Some _ _ _ Hb'). unfold na in *. lia.
        -- intros [Hx _]. exfalso. apply Hag2. by eapply agree_trans.
    + fold L. rewrite agree_succ.
      destruct (decide (agree L (N.of_nat j) (N.of_nat i))) as [Hag2|Hag2].
      * destruct (N.testbit (N.of_nat j) L) eqn:Hb2.
        -- split; [intros [=]; lia | intros [_ ?]; congruence].
        -- split; [intros _|done]. split; [|congruence].
           eapply agree_trans; [exact Hag2|]. by apply agree_sym.
      * split.
        -- intros Hx. destruct (wf_addr hash _ Hwf _ _ Hx) as [b' Hb'].
           pose proof (lookup_lt_Some _ _ _ Hb'). unfold na in *. lia.
        -- intros [Hx _]. exfalso. apply Hag2. by eapply agree_trans.
    + destruct (decide (agree L (N.of_nat j) (N.of_nat i))) as [Hag2|Hag2].
      * split.
        -- destruct (N.testbit (N.of_nat j) L); intros [=]; lia.
        -- intros Hx. exfalso. apply Hnag.
           apply (wf_share hash _ Hwf j1 j a b Hj' Ha' Hj) in Hx.
           assert (EHT.dir_ tb !! j = Some a0).
           { by apply (wf_share hash _ Hwf i j a0 b0 Hd Hs Hj). }
           assert (a = a0) by congruence. subst a.
           assert (b = b0) by congruence. subst b.
           apply (wf_share hash _ Hwf i j1 a0 b0 Hd Hs); [by eapply lookup_lt_Some | done].
      * by apply (wf_share hash).
  - intros j a b Hj Ha.
    destruct (Hslot _ _ _ Hj Ha) as [(_ & _ & _ & ->)|[(_ & _ & _ & ->)|(_ & Hj' & Ha' & _)]];
      simpl.
    + apply filter_keys_NoDup. by eapply (wf_nodup hash).
    + apply filter_keys_NoDup. by eapply (wf_nodup hash).
    + by eapply (wf_nodup hash).
Qed.

Lemma bucket_at_lookup tb (i : nat) a b :
  EHT.dir_ tb !! i = Some a -> EHT.store_ tb !! a = Some b ->
  EHT.slot tb (N.of_nat i) = a /\ EHT.bucket_at tb (N.of_nat i) = b.
Proof.
  intros Hi Ha. unfold EHT.bucket_at, EHT.slot, EHT.deref.
  rewrite Nat2N.id, Hi. simpl. by rewrite Ha.
Qed.

(** After [GrowGlobal] the key is routed to the slot of the same bucket. *)
Lemma GrowGlobal_slot tb index k :
  wf hash tb ->
  EHT.slot (EHT.GrowGlobal tb index) (EHT.IndexOf hash (EHT.GrowGlobal tb index) k) =
  EHT.slot tb (EHT.IndexOf hash tb k).
Proof.
  intros Hwf. pose proof (wf_dir hash _ Hwf) as Hlen.
  set (G := EHT.global_depth_ tb) in *.
  rewrite !IndexOf_low. simpl. fold G.
  assert (Hlt : hash k mod 2 ^ (G + 1) < 2 ^ (G + 1)).
  { apply N.mod_lt, N.pow_nonzero. done. }
  assert (Hagm : agree G (hash k) (hash k mod 2 ^ (G + 1))).
  { apply (agree_le G (G + 1)); [lia|]. apply agree_sym, agree_mod. }
  assert (Hpow : 2 ^ (G + 1) = 2 * 2 ^ G) by (by rewrite N.add_1_r, N.pow_succ_r').
  revert Hlt Hagm. generalize (hash k mod 2 ^ (G + 1)). intros m Hlt Hagm.
  destruct (double_lookup (EHT.dir_ tb) (N.to_nat m)) as (i0 & Hi0 & Heq & Hor).
  { rewrite length_app. revert Hlt Hpow Hlen. generalize (2 ^ (G + 1)) (2 ^ G). lia. }
  unfold EHT.slot. simpl. rewrite Heq. f_equal. f_equal.
  assert (Hag : agree G m (N.of_nat i0)).
  { destruct Hor as [Hor|Hor].
    - rewrite <- Hor, N2Nat.id. done.
    - replace m with (N.of_nat i0 + 2 ^ G).
      + by apply agree_add_pow2.
      + revert Hor Hlen. generalize (2 ^ G). lia. }
  assert (Hag2 : agree G (hash k) (N.of_nat i0)) by (by eapply agree_trans).
  unfold agree in Hag2. rewrite Hag2.
  rewrite N.mod_small; [by rewrite Nat2N.id|].
  revert Hi0 Hlen. generalize (2 ^ G). lia.
Qed.

Lemma GrowGlobal_bucket_at tb index k :
  wf hash tb ->
  EHT.bucket_at (EHT.GrowGlobal tb index) (EHT.IndexOf hash (EHT.GrowGlobal tb index) k) =
  EHT.bucket_at tb (EHT.IndexOf hash tb k).
Proof.
  intros Hwf. unfold EHT.bucket_at. rewrite GrowGlobal_slot by done. done.
Qed.

(** After [GrowLocal] at the slot of a key, the key is routed to the half of
    the split bucket chosen by the bit of its hash. *)
Lemma GrowLocal_bucket_at tb k :
  wf hash tb ->
  EHT.GetLocalDepthInternal tb (EHT.IndexOf hash tb k) < EHT.global_depth_ tb ->
  let tb' := EHT.GrowLocal hash tb (EHT.IndexOf hash tb k) in
  let b0 := EHT.bucket_at tb (EHT.IndexOf hash tb k) in
  EHT.bucket_at tb' (EHT.IndexOf hash tb' k) =
    if N.testbit (hash k) (Bucket.depth_ b0) then split_new hash tb b0 else split_old hash tb b0.
Proof.
  intros Hwf HL tb' b0.
  destruct (index_lookup tb k Hwf) as (i & b & Hi & Hd & Hs & Hb).
  assert (Hidx : EHT.IndexOf hash tb' k = EHT.IndexOf hash tb k) by done.
  rewrite Hidx. subst tb' b0. rewrite Hb. rewrite <- Hi.
  unfold EHT.GetLocalDepthInternal in HL. rewrite Hb in HL.
  assert (Hilt : (i < length (EHT.dir_ tb))%nat) by (by eapply lookup_lt_Some).
  pose proof (GrowLocal_dir tb i _ b i Hwf Hd Hs Hilt) as Hdir.
  rewrite decide_True in Hdir by done.
  pose proof (GrowLocal_store tb i _ b Hwf Hd Hs) as Hst.
  assert (Hbit : N.testbit (N.of_nat i) (Bucket.depth_ b) = N.testbit (hash k) (Bucket.depth_ b)).
  { rewrite Hi, IndexOf_low. by apply N.mod_pow2_bits_low. }
  rewrite Hbit in Hdir.
  destruct (N.testbit (hash k) (Bucket.depth_ b)).
  - eapply bucket_at_lookup; [exact Hdir|]. rewrite Hst. by apply list_lookup_middle.
  - eapply bucket_at_lookup; [exact Hdir|]. rewrite Hst.
    rewrite lookup_app_r by lia. by replace (S _ - _)%nat with 1%nat by lia.
Qed.

(** One activation of [Insert] keeps the invariant; when it returns, the key
    is found, and when it goes on, it goes on from the table in which the
    bucket of the key was split. *)
Lemma Insert_body_spec tb k v :
  wf hash tb ->
  let b0 := EHT.bucket_at tb (EHT.IndexOf hash tb k) in
  match EHT.Insert_body hash tb k v with
  | EHT.Return tb' =>
      Bucket.IsFull b0 = false /\ wf hash tb' /\ EHT.Find hash tb' k = Some v
  | EHT.Retry tb' =>
      Bucket.IsFull b0 = true /\ wf hash tb' /\
      EHT.bucket_size_ tb' = EHT.bucket_size_ tb /\
      EHT.bucket_at tb' (EHT.IndexOf hash tb' k) =
        let tb1 := if Bucket.depth_ b0 =? EHT.global_depth_ tb
                   then EHT.GrowGlobal tb (EHT.IndexOf hash tb k) else tb in
        if N.testbit (hash k) (Bucket.depth_ b0) then split_new hash tb1 b0 else split_old hash tb1 b0
  | EHT.Stuck => Bucket.IsFull b0 = true /\ EHT.global_depth_ tb = 30
  end.
Proof.
  intros Hwf b0.
  destruct (index_lookup tb k Hwf) as (i & b & Hi & Hd & Hs & Hb).
  unfold EHT.Insert_body, EHT.shift_defined.
  pose proof (wf_depth hash _ Hwf) as HG. rewrite (proj2 (N.leb_le _ _) HG).
  fold (EHT.bucket_at tb (EHT.IndexOf hash tb k)). fold b0.
  destruct (Bucket.IsFull b0) eqn:Hfull; simpl.
  2:{ split; [done|]. subst b0. rewrite Hb in *. split.
      - eapply (wf_set_bucket tb i _ b); [done..| | |]; simpl.
        + done.
        + intros kv Hin. apply Insert_items_elem in Hin as [->|Hin]; [right|by left].
          rewrite Hi, IndexOf_low. apply (agree_le _ (EHT.global_depth_ tb)).
          * by eapply (wf_local hash).
          * apply agree_sym, agree_mod.
        + apply Insert_items_NoDup. by eapply (wf_nodup hash).
      - unfold EHT.Find.
        assert (Hidx : forall a b', EHT.IndexOf hash (EHT.set_bucket tb a b') k
                         = EHT.IndexOf hash tb k) by done.
        rewrite Hidx. rewrite <- Hi in Hd, Hs |- *.
        assert (Hnew : EHT.bucket_at
                         (EHT.set_bucket tb (EHT.slot tb (N.of_nat i))
                            (Bucket.Insert k v b)) (N.of_nat i) = Bucket.Insert k v b).
        { eapply bucket_at_lookup; simpl; [exact Hd|].
          apply list_lookup_insert_eq. by eapply lookup_lt_Some. }
        rewrite Hnew. apply Find_items_Insert_items. }
  unfold EHT.GetLocalDepthInternal, EHT.GetGlobalDepthInternal. fold b0.
  assert (HL : Bucket.depth_ b0 <= EHT.global_depth_ tb).
  { subst b0. rewrite Hb. by eapply (wf_local hash). }
  destruct (N.eqb_spec (Bucket.depth_ b0) (EHT.global_depth_ tb)) as [Heq|Hne].
  - (* the directory doubles *)
    simpl. destruct (N.leb_spec (EHT.global_depth_ tb + 1) 30) as [Hle|Hgt]; [|split; [done|lia]].
    set (tb1 := EHT.GrowGlobal tb (EHT.IndexOf hash tb k)).
    assert (Hwf1 : wf hash tb1) by (by apply wf_GrowGlobal).
    assert (Hb1 : EHT.bucket_at tb1 (EHT.IndexOf hash tb1 k) = b0).
    { by apply GrowGlobal_bucket_at. }
    rewrite Hb1.
    destruct (N.leb_spec (EHT.global_depth_ tb + 1) (Bucket.depth_ b0)) as [Hc|_]; [lia|].
    assert (HL1 : EHT.GetLocalDepthInternal tb1 (EHT.IndexOf hash tb1 k)
                  < EHT.global_depth_ tb1).
    { unfold EHT.GetLocalDepthInternal. rewrite Hb1. simpl. lia. }
    split; [done|]. split; [|split; [done|]].
    + destruct (index_lookup tb1 k Hwf1) as (i1 & b1 & Hi1 & Hd1 & _).
      rewrite <- Hi1 in *. apply wf_GrowLocal; [done | by eapply lookup_lt_Some | done].
    + rewrite (GrowLocal_bucket_at tb1 k Hwf1 HL1). by rewrite Hb1.
  - (* only the bucket is split *)
    simpl. rewrite (proj2 (N.leb_le _ _) HG). fold b0.
    destruct (N.leb_spec (EHT.global_depth_ tb) (Bucket.depth_ b0)) as [Hc|_]; [lia|].
    assert (HL1 : EHT.GetLocalDepthInternal tb (EHT.IndexOf hash tb k) < EHT.global_depth_ tb).
    { unfold EHT.GetLocalDepthInternal. fold b0. lia. }
    split; [done|]. split; [|split; [done|]].
    + rewrite <- Hi in *. apply wf_GrowLocal; [done | by eapply lookup_lt_Some | done].
    + by rewrite (GrowLocal_bucket_at tb k Hwf HL1).
Qed.

(** [Insert], when it returns, keeps the invariant and has stored the value
    under the key. *)
Lemma Insert_Done fuel tb k v tb' :
  wf hash tb -> EHT.Insert hash fuel tb k v = EHT.Done tb' ->
  wf hash tb' /\ EHT.Find hash tb' k = Some v.
Proof.
  revert tb. induction fuel as [|fuel IH]; intros tb Hwf; simpl; [done|].
  pose proof (Insert_body_spec tb k v Hwf) as Hbody. simpl in Hbody.
  destruct (EHT.Insert_body hash tb k v) as [tb1|tb1|]; [| |done].
  - intros [= <-]. by destruct Hbody as (_ & ? & ?).
  - apply IH. by destruct Hbody as (_ & ? & _).
Qed.

Lemma table_reachable_wf bucket_size tb : table_reachable hash bucket_size tb -> wf hash tb.
Proof.
  induction 1 as [|tb fuel k v tb' _ IH HI|tb k _ IH].
  - apply wf_init.
  - by destruct (Insert_Done _ _ _ _ _ IH HI).
  - by apply wf_Remove.
Qed.

Lemma fmap_bind_list {A B C : Type} (f : B -> C) (g : A -> list B) (l : list A) :
  f <$> (l ≫= g) = l ≫= (fun a => f <$> g a).
Proof.
  induction l as [|a l IH]; [done|]. rewrite !bind_cons, fmap_app. by rewrite IH.
Qed.

(** Under the invariant no key is stored twice in the table. *)
Lemma wf_entries_NoDup tb : wf hash tb -> NoDup (EHT.entries tb).*1.
Proof.
  intros Hwf. unfold EHT.entries. rewrite fmap_bind_list.
  apply NoDup_bind; [| |apply NoDup_remove_dups].
  - intros a1 a2 k Ha1 Ha2 Hk1 Hk2.
    rewrite elem_of_remove_dups in Ha1. apply list_elem_of_lookup in Ha1 as [i1 Hi1].
    rewrite elem_of_remove_dups in Ha2. apply list_elem_of_lookup in Ha2 as [i2 Hi2].
    destruct (wf_addr hash _ Hwf _ _ Hi1) as [b1 Hb1].
    destruct (wf_addr hash _ Hwf _ _ Hi2) as [b2 Hb2].
    simpl in Hk1, Hk2. unfold EHT.deref in Hk1, Hk2. rewrite Hb1 in Hk1. rewrite Hb2 in Hk2.
    simpl in Hk1, Hk2.
    apply list_elem_of_fmap in Hk1 as (kv1 & -> & Hk1).
    apply list_elem_of_fmap in Hk2 as (kv2 & Hk & Hk2).
    pose proof (wf_keys hash _ Hwf _ _ _ _ Hi1 Hb1 Hk1) as Hag1.
    pose proof (wf_keys hash _ Hwf _ _ _ _ Hi2 Hb2 Hk2) as Hag2.
    rewrite <- Hk in Hag2.
    pose proof (IndexOf_lt tb kv1.1 Hwf) as Hlt.
    assert (Hx : forall n, n <= EHT.global_depth_ tb ->
              agree n (N.of_nat (N.to_nat (EHT.IndexOf hash tb kv1.1))) (hash kv1.1)).
    { intros n Hn. rewrite N2Nat.id, IndexOf_low.
      apply (agree_le _ (EHT.global_depth_ tb)); [done | apply agree_mod]. }
    assert (H1 : EHT.dir_ tb !! N.to_nat (EHT.IndexOf hash tb kv1.1) = Some a1).
    { apply (proj2 (wf_share hash _ Hwf i1 _ a1 b1 Hi1 Hb1 Hlt)).
      eapply agree_trans; [|exact Hag1]. apply Hx. exact (wf_local hash _ Hwf _ _ _ Hi1 Hb1). }
    assert (H2 : EHT.dir_ tb !! N.to_nat (EHT.IndexOf hash tb kv1.1) = Some a2).
    { apply (proj2 (wf_share hash _ Hwf i2 _ a2 b2 Hi2 Hb2 Hlt)).
      eapply agree_trans; [|exact Hag2]. apply Hx. exact (wf_local hash _ Hwf _ _ _ Hi2 Hb2). }
    congruence.
  - intros a Ha. rewrite elem_of_remove_dups in Ha. apply list_elem_of_lookup in Ha as [i Hi].
    destruct (wf_addr hash _ Hwf _ _ Hi) as [b Hb]. simpl. unfold EHT.deref. rewrite Hb. simpl.
    by eapply (wf_nodup hash).
Qed.

(** When the bucket of a key is full of pairs whose keys all have the hash of
    that key, no activation of [Insert] for the key ever returns: every split
    moves the whole bucket to one side. *)
Lemma Insert_colliding_never_returns fuel tb k v :
  wf hash tb ->
  let b0 := EHT.bucket_at tb (EHT.IndexOf hash tb k) in
  Bucket.size_ b0 = EHT.bucket_size_ tb ->
  (Bucket.size_ b0 <= length (Bucket.list_ b0))%nat ->
  Forall (fun kv => hash kv.1 = hash k) (Bucket.list_ b0) ->
  forall tb', EHT.Insert hash fuel tb k v <> EHT.Done tb'.
Proof.
  revert tb. induction fuel as [|fuel IH]; intros tb Hwf b0 Hsz Hfull Hcol tb'; simpl; [done|].
  pose proof (Insert_body_spec tb k v Hwf) as Hbody. simpl in Hbody. fold b0 in Hbody.
  destruct (EHT.Insert_body hash tb k v) as [tb1|tb1|]; [| |done].
  - destruct Hbody as (Hnf & _). unfold Bucket.IsFull in Hnf.
    apply negb_false_iff, Nat.ltb_lt in Hnf. lia.
  - destruct Hbody as (_ & Hwf1 & HB & Hb1).
    assert (Hfil : forall (bit : bool),
      bit = N.testbit (hash k) (Bucket.depth_ b0) ->
      filter (fun kv : K * V => N.testbit (hash kv.1) (Bucket.depth_ b0) = bit)
        (Bucket.list_ b0) = Bucket.list_ b0).
    { intros bit ->. clear -Hcol. induction (Bucket.list_ b0) as [|kv l IHl]; [done|].
      apply Forall_cons in Hcol as [Hkv Hcol].
      rewrite filter_cons_True by (by rewrite Hkv). by rewrite IHl. }
    simpl in Hb1.
    set (tbg := if Bucket.depth_ b0 =? EHT.global_depth_ tb
                then EHT.GrowGlobal tb (EHT.IndexOf hash tb k) else tb) in Hb1.
    assert (HBg : EHT.bucket_size_ tbg = EHT.bucket_size_ tb).
    { unfold tbg. by destruct (Bucket.depth_ b0 =? EHT.global_depth_ tb). }
    assert (Hsz1 : Bucket.size_ (EHT.bucket_at tb1 (EHT.IndexOf hash tb1 k))
                   = EHT.bucket_size_ tb).
    { rewrite Hb1. by destruct (N.testbit (hash k) (Bucket.depth_ b0)). }
    assert (Hl1 : Bucket.list_ (EHT.bucket_at tb1 (EHT.IndexOf hash tb1 k))
                  = Bucket.list_ b0).
    { rewrite Hb1. destruct (N.testbit (hash k) (Bucket.depth_ b0)) eqn:Hbit; simpl;
        by apply Hfil. }
    apply IH; [done|..].
    + by rewrite Hsz1, HB.
    + rewrite Hsz1, Hl1, <- Hsz. done.
    + by rewrite Hl1.
Qed.

(** The recursion of [Insert] is bounded under the invariant: every further
    activation finds the bucket of the key one level deeper, and local depths
    stay below 31.  Fuel for 32 activations is never used up. *)
Lemma Insert_fuel_enough fuel tb k v :
  wf hash tb ->
  30 < N.of_nat fuel + Bucket.depth_ (EHT.bucket_at tb (EHT.IndexOf hash tb k)) ->
  EHT.Insert hash fuel tb k v <> EHT.OutOfFuel.
Proof.
  revert tb. induction fuel as [|fuel IH]; intros tb Hwf Hfuel.
  - exfalso. destruct (index_lookup tb k Hwf) as (i & b & Hi & Hd & Hs & Hb).
    rewrite Hb in Hfuel.
    pose proof (wf_local hash _ Hwf _ _ _ Hd Hs). pose proof (wf_depth hash _ Hwf). lia.
  - simpl. pose proof (Insert_body_spec tb k v Hwf) as Hbody. simpl in Hbody.
    destruct (EHT.Insert_body hash tb k v) as [tb1|tb1|]; [done| |done].
    destruct Hbody as (_ & Hwf1 & _ & Hb1). apply IH; [done|].
    rewrite Hb1.
    destruct (N.testbit (hash k) _); unfold split_new, split_old; simpl; lia.
Qed.

End TableInvariant.

(** ** Claims about the extendible hash table *)

Lemma odd_keys_reachable : table_reachable N.of_nat 2 odd_keys_3.
Proof.
  apply (table_Insert _ _ odd_keys_2 3 5%nat 50%nat); [|reflexivity].
  apply (table_Insert _ _ odd_keys_1 1 3%nat 30%nat); [|reflexivity].
  apply (table_Insert _ _ (EHT.ExtendibleHashTable 2) 1 1%nat 10%nat); [|reflexivity].
  apply table_init.
Defined.

(** C6.  After every sequence of [Insert], [Find] and [Remove] on the
    extendible hash table the directory has exactly [2^G] slots, [G] being the
    global depth; for every slot [i], with [b] the bucket it refers to and [L]
    the local depth of [b]: [L <= G]; every key stored in [b] has a hash whose
    [L] low bits are those of [i] (the discriminant of [b]); the slots whose
    [L] low bits are those of [i] are exactly the slots that refer to [b]; and
    the slot given by the [G] low bits of the hash of a key stored in [b]
    refers to [b], the only bucket that can hold the key. *)
Theorem directory_invariant {K V : Type} `{EqDecision K} (hash : K -> N)
    (bucket_size : nat) (tb : EHT.t K V) :
  table_reachable hash bucket_size tb ->
  N.of_nat (length (EHT.dir_ tb)) = 2 ^ EHT.global_depth_ tb /\
  forall i : nat, (i < length (EHT.dir_ tb))%nat ->
    let b := EHT.bucket_at tb (N.of_nat i) in
    let L := Bucket.depth_ b in
    L <= EHT.global_depth_ tb /\
    (forall k v, (k, v) ∈ Bucket.list_ b -> hash k mod 2 ^ L = N.of_nat i mod 2 ^ L) /\
    (forall j : nat, (j < length (EHT.dir_ tb))%nat ->
       (N.of_nat j mod 2 ^ L = N.of_nat i mod 2 ^ L <->
        EHT.slot tb (N.of_nat j) = EHT.slot tb (N.of_nat i))) /\
    (forall k v, (k, v) ∈ Bucket.list_ b ->
       EHT.slot tb (EHT.IndexOf hash tb k) = EHT.slot tb (N.of_nat i) /\
       EHT.IndexOf hash tb k < N.of_nat (length (EHT.dir_ tb))).
Proof.
  intros Hreach. apply table_reachable_wf in Hreach as Hwf.
  split; [by apply (wf_dir hash)|]. intros i Hi b L.
  destruct (slot_lookup hash tb i Hwf Hi) as (b' & Hd & Hs & Hb).
  subst b L. rewrite Hb.
  assert (Hshare : forall j : nat, (j < length (EHT.dir_ tb))%nat ->
     (N.of_nat j mod 2 ^ Bucket.depth_ b' = N.of_nat i mod 2 ^ Bucket.depth_ b' <->
      EHT.slot tb (N.of_nat j) = EHT.slot tb (N.of_nat i))).
  { intros j Hj. destruct (slot_lookup hash tb j Hwf Hj) as (bj & Hdj & _).
    rewrite <- (wf_share hash tb Hwf i j _ b' Hd Hs Hj). rewrite Hdj.
    split; [intros [= ->]; done | intros ->; done]. }
  split_and!.
  - by eapply (wf_local hash).
  - intros k v Hin. apply (wf_keys hash tb Hwf i _ b' (k, v) Hd Hs Hin).
  - exact Hshare.
  - intros k v Hin. pose proof (IndexOf_lt hash tb k Hwf) as Hlt. split; [|lia].
    rewrite <- (N2Nat.id (EHT.IndexOf hash tb k)). apply Hshare; [done|].
    rewrite N2Nat.id, IndexOf_low.
    pose proof (wf_keys hash tb Hwf i _ b' (k, v) Hd Hs Hin) as Hag.
    eapply agree_trans; [|exact Hag].
    apply (agree_le _ (EHT.global_depth_ tb)); [by eapply (wf_local hash) | apply agree_mod].
Qed.

Lemma directory_invariant_witness :
  N.of_nat (length (EHT.dir_ odd_keys_3)) = 2 ^ EHT.global_depth_ odd_keys_3 /\
  forall i : nat, (i < length (EHT.dir_ odd_keys_3))%nat ->
    let b := EHT.bucket_at odd_keys_3 (N.of_nat i) in
    let L := Bucket.depth_ b in
    L <= EHT.global_depth_ odd_keys_3 /\
    (forall k v, (k, v) ∈ Bucket.list_ b -> N.of_nat k mod 2 ^ L = N.of_nat i mod 2 ^ L) /\
    (forall j : nat, (j < length (EHT.dir_ odd_keys_3))%nat ->
       (N.of_nat j mod 2 ^ L = N.of_nat i mod 2 ^ L <->
        EHT.slot odd_keys_3 (N.of_nat j) = EHT.slot odd_keys_3 (N.of_nat i))) /\
    (forall k v, (k, v) ∈ Bucket.list_ b ->
       EHT.slot odd_keys_3 (EHT.IndexOf N.of_nat odd_keys_3 k) = EHT.slot odd_keys_3 (N.of_nat i) /\
       EHT.IndexOf N.of_nat odd_keys_3 k < N.of_nat (length (EHT.dir_ odd_keys_3))).
Proof. exact (directory_invariant N.of_nat 2 odd_keys_3 odd_keys_reachable). Defined.

(** C9 (the code departs from it).  [Insert] tests [IsFull] before it looks
    for the key.  With bucket capacity 1, [Insert(0, 7)] on a fresh table
    returns and [Find(0)] gives 7; a second [Insert(0, 9)] of the same key
    finds the bucket full and splits it again and again: no activation
    returns, the run ends at depth 31 where [1 << global_depth_] is not
    defined, so no [Find(0)] that gives 9 follows.  With bucket capacity 2 and keys 1 and
    2 stored, [Insert(1, 11)] does return with 11 stored under 1 and 1 stored
    once, yet not in place: the directory was doubled and the bucket split. *)
Theorem Insert_present_key_full_bucket :
  EHT.Insert hash_int 1 (EHT.ExtendibleHashTable 1) 0%Z 7%nat = EHT.Done single_key /\
  EHT.Find hash_int single_key 0%Z = Some 7%nat /\
  (forall fuel tb', EHT.Insert hash_int fuel single_key 0%Z 9%nat <> EHT.Done tb') /\
  (forall fuel, (32 <= fuel)%nat ->
     EHT.Insert hash_int fuel single_key 0%Z 9%nat = EHT.Undefined) /\
  table_reachable hash_int 2 two_keys /\
  exists tb', EHT.Insert hash_int 2 two_keys 1%Z 11%nat = EHT.Done tb' /\
    EHT.Find hash_int tb' 1%Z = Some 11%nat /\
    EHT.entries tb' = [(2%Z, 20%nat); (1%Z, 11%nat)] /\
    EHT.global_depth_ two_keys = 0 /\ EHT.global_depth_ tb' = 1 /\
    EHT.num_buckets_ two_keys = 1 /\ EHT.num_buckets_ tb' = 2.
Proof.
  assert (Hwf : wf hash_int single_key).
  { apply (table_reachable_wf hash_int 1).
    apply (table_Insert _ _ (EHT.ExtendibleHashTable 1) 1 0%Z 7%nat); [|reflexivity].
    apply table_init. }
  assert (Hnever : forall fuel tb',
            EHT.Insert hash_int fuel single_key 0%Z 9%nat <> EHT.Done tb').
  { intros fuel tb'. apply Insert_colliding_never_returns; [done | reflexivity | |].
    - simpl. lia.
    - simpl. by repeat constructor. }
  split; [reflexivity|]. split; [reflexivity|]. split; [exact Hnever|]. split.
  - intros fuel Hfuel.
    pose proof (Insert_fuel_enough hash_int fuel single_key 0%Z 9%nat Hwf) as Hout.
    destruct (EHT.Insert hash_int fuel single_key 0%Z 9%nat) as [tb'| |] eqn:Hins.
    + by destruct (Hnever fuel tb').
    + exfalso. apply Hout; [|done]. simpl. lia.
    + done.
  - split.
    + apply (table_Insert _ _
               (EHT.Build 0 2 1 [0%nat] [Bucket.Build 2 0 [(1%Z, 10%nat)]]) 1 2%Z 20%nat);
        [|reflexivity].
      apply (table_Insert _ _ (EHT.ExtendibleHashTable 2) 1 1%Z 10%nat); [|reflexivity].
      apply table_init.
    + eexists. split; [vm_compute; reflexivity|]. by vm_compute.
Qed.

(** Closing a conjunction of closed facts one by one, each by evaluation;
    a run found by the first fact is used by the later ones. *)
Ltac by_evaluation :=
  repeat (match goal with |- _ /\ _ => split; [vm_compute; reflexivity|] end);
  vm_compute; reflexivity.

(** ** Claims about the replacer *)

(** C4 (the code departs from it).  [KDistance] is the newest minus the
    oldest time stamp kept, not the current time stamp minus the k-th most
    recent access.  At time 5 frame 0 (accesses 0, 1) has backward k-distance
    5 and frame 1 (accesses 2, 4) has 3; both are evictable and frame 2 is
    not.  [Evict] returns frame 1, for which [KDistance] is 2 against 1 for
    frame 0, and not frame 0 whose backward k-distance is the largest. *)
Theorem Evict_not_largest_backward_k_distance :
  exists r r',
    two_full_histories = Some r /\
    LRUK.ticks_ r = 5%Z /\ LRUK.k_ r = 2 /\ LRUK.curr_size_ r = 2 /\
    LRUK.frameinfo_map_ r !! 0%nat = Some (LRUK.BuildInfo 0 true [0; 1]%Z) /\
    LRUK.frameinfo_map_ r !! 1%nat = Some (LRUK.BuildInfo 1 true [2; 4]%Z) /\
    LRUK.frameinfo_map_ r !! 2%nat = Some (LRUK.BuildInfo 2 false [3]%Z) /\
    LRUK.backward_k_distance 5 2 [0; 1]%Z = Some 5%Z /\
    LRUK.backward_k_distance 5 2 [2; 4]%Z = Some 3%Z /\
    LRUK.KDistance r 0 = 1%Z /\ LRUK.KDistance r 1 = 2%Z /\
    LRUK.Evict r = Some (Some 1%nat, r') /\
    LRUK.frameinfo_map_ r' !! 0%nat = Some (LRUK.BuildInfo 0 true [0; 1]%Z) /\
    LRUK.frameinfo_map_ r' !! 1%nat = None.
Proof.
  eexists _, _. by_evaluation.
Qed.

(** ** Claims about the buffer pool manager *)

(** The hit path of [FetchPgImp] in general: the pin count of the frame goes
    up by one and nothing else changes, the replacer included. *)
Lemma FetchPgImp_hit (page_size : nat) (hash : Z -> N) (fuel : nat) (page_id : Z)
    (s : BPM.t) (frame_id : nat) (pg : Page.t) :
  EHT.Find hash (BPM.page_table_ s) page_id = Some frame_id ->
  BPM.pages_ s !! frame_id = Some pg ->
  BPM.FetchPgImp page_size hash fuel page_id s =
    Some (Some frame_id,
          BPM.set_page frame_id
            (Page.Build (Page.data_ pg) (Page.page_id_ pg) (Page.pin_count_ pg + 1)
               (Page.is_dirty_ pg)) s).
Proof. intros Hfind Hpg. unfold BPM.FetchPgImp. by rewrite Hfind, Hpg. Qed.

(** [DeletePgImp] in general, when it passes its guards and [Remove] returns:
    the frame keeps its pin count and its dirty flag. *)
Lemma DeletePgImp_pass (page_size : nat) (hash : Z -> N) (page_id : Z)
    (s : BPM.t) (frame_id : nat) (pg : Page.t) (r : LRUK.t) :
  EHT.Find hash (BPM.page_table_ s) page_id = Some frame_id ->
  BPM.pages_ s !! frame_id = Some pg ->
  (Page.pin_count_ pg >? 0)%Z = false ->
  LRUK.Remove (BPM.replacer_ s) frame_id = Some r ->
  BPM.DeletePgImp page_size hash page_id s =
    Some (true,
          BPM.Build (BPM.pool_size_ s)
            (<[frame_id := Page.Build (Page.zeroed page_size) INVALID_PAGE_ID
                             (Page.pin_count_ pg) (Page.is_dirty_ pg)]> (BPM.pages_ s))
            (EHT.Remove hash (BPM.page_table_ s) page_id).2
            r
            (BPM.free_list_ s ++ [frame_id])
            (BPM.next_page_id_ s)
            (BPM.disk_manager_ s)).
Proof.
  intros Hfind Hpg Hpin Hr. unfold BPM.DeletePgImp. rewrite Hfind, Hpg. simpl.
  rewrite Hpin. change (BPM.replacer_ (BPM.set_page_table ?a s)) with (BPM.replacer_ s).
  rewrite Hr. reflexivity.
Qed.

(** C1 (the code departs from it).  On a hit [FetchPgImp] only increments the
    pin count: it neither records an access nor marks the frame
    non-evictable, which the miss path does.  After [new_page] (page 0),
    [unpin(0)] and [fetch(0)], frame 0 is resident with pin count 1 and is
    still evictable in the replacer, with the one access of [new_page] in its
    history; a following [new_page] evicts the pinned frame. *)
Theorem fetch_hit_leaves_frame_evictable :
  exists s s',
    fetch_hit_run = Some (Some 0%nat, s) /\
    BPM.pages_ s !! 0%nat = Some (Page.Build [Byte.x00; Byte.x00] 0 1 false) /\
    LRUK.frameinfo_map_ (BPM.replacer_ s) !! 0%nat = Some (LRUK.BuildInfo 0 true [0%Z]) /\
    LRUK.ticks_ (BPM.replacer_ s) = 1%Z /\
    LRUK.Size (BPM.replacer_ s) = 1 /\
    NewPg s = Some (Some (1%Z, 0%nat), s') /\
    BPM.pages_ s' !! 0%nat = Some (Page.Build [Byte.x00; Byte.x00] 1 1 false).
Proof. eexists _, _. by_evaluation. Qed.

(** C2 (the code departs from it).  [NewPgImp] removes the mapping of the
    evicted page before it inserts the new one; the miss path of [FetchPgImp]
    does not.  After [new_page] (page 0), [unpin(0)] and [fetch(5)], the only
    frame holds page 5 and the page table maps both 0 and 5 to it: two
    entries for one resident frame.  Deleting page 0 and then page 5 puts the
    frame on the free list twice: its length 2 exceeds the pool size 1. *)
Theorem fetch_miss_keeps_old_mapping :
  exists s1 s2 s3,
    new_page_evicts_run = Some (Some (1%Z, 0%nat), s1) /\
    EHT.entries (BPM.page_table_ s1) = [(1%Z, 0%nat)] /\
    fetch_miss_run = Some (Some 0%nat, s2) /\
    BPM.pages_ s2 = [Page.Build [Byte.x00; Byte.x00] 5 1 false] /\
    EHT.entries (BPM.page_table_ s2) = [(0%Z, 0%nat); (5%Z, 0%nat)] /\
    resident_frames s2 = 1%nat /\
    delete_both_run = Some (true, s3) /\
    BPM.free_list_ s3 = [0%nat; 0%nat] /\
    resident_frames s3 = 0%nat /\
    BPM.pool_size_ s3 = 1%nat.
Proof. eexists _, _, _. by_evaluation. Qed.

(** C3 (the code departs from it).  Page 0 is fetched, written with
    [payload], unpinned as dirty and flushed: the disk holds [payload] under
    page 0.  When the eviction is forced by [new_page], [fetch(0)] reads it
    back.  When it is forced by the miss of [fetch(7)], the mapping of page 0
    is left in the page table, and [fetch(0)] is a hit on the frame that now
    holds page 7: the buffer returned is that of page 7, not [payload].  The
    write-back of a dirty page at its eviction does go to disk under the page
    id the frame holds: page 0 evicted for the new page 1 is written under
    0. *)
Theorem round_trip_fails_after_fetch_miss :
  exists s0 s s',
    dirty_eviction_run = Some (Some (1%Z, 0%nat), s0) /\
    BPM.disk_manager_ s0 !! 0%Z = Some payload /\
    BPM.disk_manager_ s0 !! 1%Z = None /\
    round_trip_new_page_run = Some (Some 0%nat, s') /\
    BPM.pages_ s' !! 0%nat = Some (Page.Build payload 0 1 false) /\
    round_trip_run = Some (Some 0%nat, s) /\
    BPM.disk_manager_ s !! 0%Z = Some payload /\
    BPM.pages_ s !! 0%nat = Some (Page.Build [Byte.x00; Byte.x00] 7 2 false) /\
    EHT.Find hash_int (BPM.page_table_ s) 0%Z = Some 0%nat /\
    EHT.Find hash_int (BPM.page_table_ s) 7%Z = Some 0%nat.
Proof. eexists _, _, _. by_evaluation. Qed.

(** C5 (the code departs from it).  [DeletePgImp] resets the memory and the
    page id of the frame and leaves [is_dirty_] as it is.  After [new_page]
    (page 0), a write, [unpin(0, dirty)] and [delete(0)], which returns true,
    the frame is on the free list with page id [INVALID], pin count 0 and
    zeroed payload, and is still dirty; the next [new_page] then writes that
    payload to disk under [INVALID_PAGE_ID]. *)
Theorem delete_leaves_frame_dirty :
  exists s s',
    delete_dirty_run = Some (true, s) /\
    BPM.pages_ s !! 0%nat = Some (Page.Build [Byte.x00; Byte.x00] INVALID_PAGE_ID 0 true) /\
    BPM.free_list_ s = [0%nat] /\
    EHT.Find hash_int (BPM.page_table_ s) 0%Z = None /\
    LRUK.frameinfo_map_ (BPM.replacer_ s) !! 0%nat = None /\
    BPM.disk_manager_ s !! INVALID_PAGE_ID = None /\
    delete_dirty_then_new_run = Some (Some (1%Z, 0%nat), s') /\
    BPM.disk_manager_ s' !! INVALID_PAGE_ID = Some [Byte.x00; Byte.x00].
Proof. eexists _, _. by_evaluation. Qed.

(** ** Flushing *)

Section Flush.
Variable hash : Z -> N.






End Flush.



(** ** Pins and evictability *)

Lemma pin_ok_update pages m f pg' m' :
  pin_ok pages m -> (f < length pages)%nat ->
  (forall g fi, m' !! g = Some fi -> LRUK.evictable_ fi = false ->
     if decide (g = f) then (0 < Page.pin_count_ pg')%Z else m !! g = Some fi) ->
  pin_ok (<[f := pg']> pages) m'.
Proof.
  intros Hok Hf Hm g fi Hg He. specialize (Hm g fi Hg He).
  destruct (decide (g = f)) as [->|Hne].
  - exists pg'. split; [by apply list_lookup_insert_eq | done].
  - destruct (Hok g fi Hm He) as (pg & Hpg & Hpin).
    exists pg. split; [by rewrite list_lookup_insert_ne | done].
Qed.

Lemma pin_ok_page pages m f pg pg' :
  pin_ok pages m -> pages !! f = Some pg ->
  ((0 < Page.pin_count_ pg)%Z -> (0 < Page.pin_count_ pg')%Z) ->
  pin_ok (<[f := pg']> pages) m.
Proof.
  intros Hok Hf Hpin. apply (pin_ok_update pages m); [done | by eapply lookup_lt_Some |].
  intros g fi Hg He. destruct (decide (g = f)) as [->|Hne]; [|done].
  destruct (Hok f fi Hg He) as (pg0 & Hpg0 & Hp). apply Hpin. congruence.
Qed.

Lemma Evict_map r o r' g fi :
  LRUK.Evict r = Some (o, r') ->
  LRUK.frameinfo_map_ r' !! g = Some fi -> LRUK.frameinfo_map_ r !! g = Some fi.
Proof.
  unfold LRUK.Evict. destruct (LRUK.curr_size_ r =? 0); [by intros [= <- <-]|].
  destruct (foldl _ _ _).1 as [ev|]; [|done]. intros [= <- <-]. simpl.
  intros Hg. by apply lookup_delete_Some in Hg as [_ Hg].
Qed.

Lemma Evict_size r o r' :
  LRUK.Evict r = Some (o, r') -> LRUK.replacer_size_ r' = LRUK.replacer_size_ r.
Proof.
  unfold LRUK.Evict. destruct (LRUK.curr_size_ r =? 0); [by intros [= <- <-]|].
  destruct (foldl _ _ _).1 as [ev|]; [|done]. by intros [= <- <-].
Qed.

Lemma RecordAccess_map r f r' g fi :
  LRUK.RecordAccess r f = Some r' ->
  LRUK.frameinfo_map_ r' !! g = Some fi -> g <> f -> LRUK.frameinfo_map_ r !! g = Some fi.
Proof.
  unfold LRUK.RecordAccess. destruct (N.of_nat f <=? LRUK.replacer_size_ r); [|done].
  destruct (LRUK.frameinfo_map_ r !! f) as [fi0|]; intros [= <-]; simpl;
    intros Hg Hne; by rewrite lookup_insert_ne in Hg.
Qed.

Lemma RecordAccess_size r f r' :
  LRUK.RecordAccess r f = Some r' -> LRUK.replacer_size_ r' = LRUK.replacer_size_ r.
Proof.
  unfold LRUK.RecordAccess. destruct (N.of_nat f <=? LRUK.replacer_size_ r); [|done].
  destruct (LRUK.frameinfo_map_ r !! f) as [fi0|]; by intros [= <-].
Qed.

Lemma SetEvictable_map r f b r' g fi :
  LRUK.SetEvictable r f b = Some r' ->
  LRUK.frameinfo_map_ r' !! g = Some fi ->
  if decide (g = f) then LRUK.evictable_ fi = b else LRUK.frameinfo_map_ r !! g = Some fi.
Proof.
  unfold LRUK.SetEvictable. destruct (N.of_nat f <=? LRUK.replacer_size_ r); [|done].
  destruct (LRUK.frameinfo_map_ r !! f) as [fi0|] eqn:Hf; [|done].
  destruct (decide (g = f)) as [->|Hne].
  - destruct (LRUK.evictable_ fi0) eqn:He, b; simpl; intros [= <-]; simpl;
      rewrite ?lookup_insert_eq; intros Hg; try (by inversion Hg); congruence.
  - destruct (LRUK.evictable_ fi0 && negb b); [|destruct (negb (LRUK.evictable_ fi0) && b)];
      intros [= <-]; simpl; rewrite ?lookup_insert_ne by done; done.
Qed.

Lemma SetEvictable_size r f b r' :
  LRUK.SetEvictable r f b = Some r' -> LRUK.replacer_size_ r' = LRUK.replacer_size_ r.
Proof.
  unfold LRUK.SetEvictable. destruct (N.of_nat f <=? LRUK.replacer_size_ r); [|done].
  destruct (LRUK.frameinfo_map_ r !! f) as [fi0|]; [|done].
  destruct (LRUK.evictable_ fi0 && negb b); [|destruct (negb (LRUK.evictable_ fi0) && b)];
    by intros [= <-].
Qed.

Lemma Remove_map r f r' g fi :
  LRUK.Remove r f = Some r' ->
  LRUK.frameinfo_map_ r' !! g = Some fi -> LRUK.frameinfo_map_ r !! g = Some fi.
Proof.
  unfold LRUK.Remove. destruct (N.of_nat f <=? LRUK.replacer_size_ r); [|done].
  destruct (LRUK.frameinfo_map_ r !! f) as [fi0|]; [|by intros [= <-]].
  destruct (LRUK.evictable_ fi0); [|done]. intros [= <-]. simpl.
  intros Hg. by apply lookup_delete_Some in Hg as [_ Hg].
Qed.

Lemma Remove_size r f r' :
  LRUK.Remove r f = Some r' -> LRUK.replacer_size_ r' = LRUK.replacer_size_ r.
Proof.
  unfold LRUK.Remove. destruct (N.of_nat f <=? LRUK.replacer_size_ r); [|done].
  destruct (LRUK.frameinfo_map_ r !! f) as [fi0|]; [|by intros [= <-]].
  destruct (LRUK.evictable_ fi0); [|done]. by intros [= <-].
Qed.

Section PoolInvariant.
Variable BUSTUB_PAGE_SIZE : nat.
Variable hash : Z -> N.

Lemma write_back_pin_ok f pg s m :
  pin_ok (BPM.pages_ s) m -> BPM.pages_ s !! f = Some pg ->
  pin_ok (BPM.pages_ (BPM.write_back f pg s)) m /\
  length (BPM.pages_ (BPM.write_back f pg s)) = length (BPM.pages_ s) /\
  BPM.replacer_ (BPM.write_back f pg s) = BPM.replacer_ s /\
  exists pg', BPM.pages_ (BPM.write_back f pg s) !! f = Some pg' /\
              Page.pin_count_ pg' = Page.pin_count_ pg.
Proof.
  intros Hok Hf. unfold BPM.write_back, Page.IsDirty.
  destruct (Page.is_dirty_ pg); simpl.
  - split_and!; [by eapply pin_ok_page | by rewrite length_insert | done |].
    eexists. split; [apply list_lookup_insert_eq; by eapply lookup_lt_Some | done].
  - split_and!; [done..|]. by exists pg.
Qed.


Lemma NewPgImp_unfold fuel s :
  BPM.NewPgImp BUSTUB_PAGE_SIZE hash fuel s =
  match BPM.free_list_ s with
  | f :: rest => NewPg_install BUSTUB_PAGE_SIZE hash fuel f (BPM.set_free_list rest s)
  | [] =>
      match LRUK.Evict (BPM.replacer_ s) with
      | None => None
      | Some (None, _) => Some (None, s)
      | Some (Some f, r) => NewPg_install BUSTUB_PAGE_SIZE hash fuel f (BPM.set_replacer r s)
      end
  end.
Proof.
  unfold BPM.NewPgImp. destruct (BPM.free_list_ s); [|reflexivity].
  destruct (LRUK.Evict (BPM.replacer_ s)) as [[[f|] r]|]; reflexivity.
Qed.

Ltac bind_step H x E :=
  match type of H with
  | mbind _ ?X = Some _ =>
      destruct X as [x|] eqn:E;
      [cbn [mbind option_bind] in H; cbv beta in H | discriminate H]
  end.

Lemma table_insert_fields fuel page_id frame_id s s0 :
  BPM.table_insert hash fuel page_id frame_id s = Some s0 ->
  BPM.pages_ s0 = BPM.pages_ s /\ BPM.replacer_ s0 = BPM.replacer_ s.
Proof.
  unfold BPM.table_insert.
  destruct (EHT.Insert hash fuel (BPM.page_table_ s) page_id frame_id); [|done..].
  by intros [= <-].
Qed.

(** Installing a page in a frame: the frame ends pinned once and
    non-evictable. *)
Lemma install_pin_ok pages m0 f pgN r0 r1 r2 :
  pin_ok pages (LRUK.frameinfo_map_ r0) -> (f < length pages)%nat ->
  (0 < Page.pin_count_ pgN)%Z ->
  LRUK.RecordAccess r0 f = Some r1 -> LRUK.SetEvictable r1 f false = Some r2 ->
  m0 = LRUK.frameinfo_map_ r2 ->
  pin_ok (<[f := pgN]> pages) m0 /\ LRUK.replacer_size_ r2 = LRUK.replacer_size_ r0.
Proof.
  intros Hok Hf Hpin Hra Hse ->. split.
  - apply (pin_ok_update pages (LRUK.frameinfo_map_ r0)); [done..|].
    intros g fi Hg He. pose proof (SetEvictable_map _ _ _ _ _ _ Hse Hg) as Hs.
    destruct (decide (g = f)) as [->|Hne]; [done|].
    by eapply RecordAccess_map.
  - rewrite (SetEvictable_size _ _ _ _ Hse). by eapply RecordAccess_size.
Qed.

Lemma NewPg_install_inv fuel f s res s' :
  pool_inv s -> NewPg_install BUSTUB_PAGE_SIZE hash fuel f s = Some (res, s') -> pool_inv s'.
Proof.
  intros [Hok Hsz] H. unfold NewPg_install in H.
  bind_step H pg Epg. cbv zeta in H.
  destruct (write_back_pin_ok f pg s _ Hok Epg) as (Hok1 & Hlen1 & Hr1 & pg1 & Epg1 & Hpin1).
  change (BPM.pages_ (BPM.AllocatePage (BPM.write_back f pg s)).2)
    with (BPM.pages_ (BPM.write_back f pg s)) in H.
  bind_step H pg0 Epg0.
  bind_step H s0 Es0.
  apply table_insert_fields in Es0 as [Hp0 Hr0]. simpl in Hp0, Hr0.
  change (BPM.replacer_ (BPM.set_page ?a ?b s0)) with (BPM.replacer_ s0) in H.
  bind_step H r1 Er1. bind_step H r2 Er2.
  injection H as <- <-.
  rewrite Hr0, Hr1 in Er1.
  destruct (install_pin_ok (BPM.pages_ (BPM.write_back f pg s)) (LRUK.frameinfo_map_ r2) f
              (Page.set_pin_count 1 (Page.ResetMemory BUSTUB_PAGE_SIZE
                 (Page.set_page_id (BPM.AllocatePage (BPM.write_back f pg s)).1 pg0)))
              _ r1 r2 Hok1) as [Hok' Hsz']; [|done..|].
  { by eapply lookup_lt_Some. }
  split; simpl.
  - by rewrite Hp0.
  - rewrite Hp0, length_insert, Hlen1, Hsz'. done.
Qed.

Lemma NewPgImp_inv fuel s res s' :
  pool_inv s -> BPM.NewPgImp BUSTUB_PAGE_SIZE hash fuel s = Some (res, s') -> pool_inv s'.
Proof.
  intros Hinv. rewrite NewPgImp_unfold.
  destruct (BPM.free_list_ s) as [|f rest].
  - destruct (LRUK.Evict (BPM.replacer_ s)) as [[[f|] r]|] eqn:Hev; [| |done].
    + apply NewPg_install_inv. destruct Hinv as [Hok Hsz]. split; simpl.
      * intros g fi Hg. apply Hok. by eapply Evict_map.
      * by rewrite (Evict_size _ _ _ Hev).
    + by intros [= <- <-].
  - by apply NewPg_install_inv.
Qed.

Lemma FetchPgImp_inv fuel page_id s res s' :
  pool_inv s -> BPM.FetchPgImp BUSTUB_PAGE_SIZE hash fuel page_id s = Some (res, s') ->
  pool_inv s'.
Proof.
  intros [Hok Hsz] H. unfold BPM.FetchPgImp in H.
  destruct (EHT.Find hash (BPM.page_table_ s) page_id) as [f|].
  - (* hit *)
    bind_step H pg Epg. injection H as <- <-. split; simpl.
    + eapply pin_ok_page; [done..|]. simpl. lia.
    + by rewrite length_insert.
  - (* miss *)
    bind_step H ev Eev. destruct ev as [[f|] r0]; simpl in H; [|by injection H as <- <-].
    assert (Hok0 : pin_ok (BPM.pages_ s) (LRUK.frameinfo_map_ r0)).
    { intros g fi Hg. apply Hok. by eapply Evict_map. }
    bind_step H pg Epg. cbv zeta in H. simpl in Epg.
    destruct (write_back_pin_ok f pg (BPM.set_replacer r0 s) _ Hok0 Epg)
      as (Hok1 & Hlen1 & Hr1 & pg1 & Epg1 & Hpin1).
    bind_step H pg0 Epg0.
    change (BPM.replacer_ (BPM.set_page ?a ?b ?c)) with (BPM.replacer_ c) in H.
    bind_step H r1 Er1. bind_step H r2 Er2. bind_step H s0 Es0.
    injection H as <- <-.
    apply table_insert_fields in Es0 as [Hp0 Hr0]. simpl in Hp0, Hr0.
    rewrite Hr1 in Er1. simpl in Er1.
    destruct (install_pin_ok (BPM.pages_ (BPM.write_back f pg (BPM.set_replacer r0 s)))
                (LRUK.frameinfo_map_ r2) f
                (Page.set_data
                   (DiskManager.ReadPage BUSTUB_PAGE_SIZE page_id
                      (BPM.disk_manager_ (BPM.write_back f pg (BPM.set_replacer r0 s))))
                   (Page.ResetMemory BUSTUB_PAGE_SIZE
                      (Page.set_pin_count 1 (Page.set_page_id page_id pg0))))
                _ r1 r2 Hok1) as [Hok' Hsz']; [|done..|].
    { by eapply lookup_lt_Some. }
    split.
    + rewrite Hp0, Hr0. exact Hok'.
    + rewrite Hp0, Hr0, length_insert, Hlen1, Hsz'. simpl.
      by rewrite (Evict_size _ _ _ Eev).
Qed.

Lemma UnpinPgImp_inv page_id is_dirty s res s' :
  pool_inv s -> BPM.UnpinPgImp hash page_id is_dirty s = Some (res, s') -> pool_inv s'.
Proof.
  intros [Hok Hsz] H. unfold BPM.UnpinPgImp in H.
  destruct (EHT.Find hash (BPM.page_table_ s) page_id) as [f|];
    [|by injection H as <- <-].
  bind_step H pg Epg. unfold Page.GetPinCount in H.
  destruct (Z.leb_spec (Page.pin_count_ pg) 0) as [Hle|Hgt]; [by injection H as <- <-|].
  cbv zeta in H.
  set (pg' := Page.set_pin_count _ _) in H.
  assert (Hpin' : Page.pin_count_ pg' = (Page.pin_count_ pg - 1)%Z).
  { unfold pg'. by destruct is_dirty. }
  assert (Hf : (f < length (BPM.pages_ s))%nat) by (by eapply lookup_lt_Some).
  destruct (Z.eqb_spec (Page.pin_count_ pg') 0) as [Hz|Hnz].
  - change (BPM.replacer_ (BPM.set_page f pg' s)) with (BPM.replacer_ s) in H.
    bind_step H r1 Er1. injection H as <- <-. split; simpl.
    + apply (pin_ok_update _ (LRUK.frameinfo_map_ (BPM.replacer_ s))); [done..|].
      intros g fi Hg He. pose proof (SetEvictable_map _ _ _ _ _ _ Er1 Hg) as Hs.
      destruct (decide (g = f)); [congruence | done].
    + rewrite length_insert, (SetEvictable_size _ _ _ _ Er1). done.
  - injection H as <- <-. split; simpl.
    + eapply pin_ok_page; [done..|]. lia.
    + by rewrite length_insert.
Qed.

Lemma FlushPgImp_inv page_id s res s' :
  pool_inv s -> BPM.FlushPgImp hash page_id s = Some (res, s') -> pool_inv s'.
Proof.
  intros [Hok Hsz] H. unfold BPM.FlushPgImp in H.
  destruct (EHT.Find hash (BPM.page_table_ s) page_id) as [f|];
    [|by injection H as <- <-].
  bind_step H pg Epg. cbv zeta in H. injection H as <- <-. split; simpl.
  - by eapply pin_ok_page.
  - by rewrite length_insert.
Qed.

Lemma DeletePgImp_inv page_id s res s' :
  pool_inv s -> BPM.DeletePgImp BUSTUB_PAGE_SIZE hash page_id s = Some (res, s') ->
  pool_inv s'.
Proof.
  intros [Hok Hsz] H. unfold BPM.DeletePgImp in H.
  destruct (EHT.Find hash (BPM.page_table_ s) page_id) as [f|];
    [|by injection H as <- <-].
  bind_step H pg Epg.
  destruct (Page.pin_count_ pg >? 0)%Z; [by injection H as <- <-|].
  cbv zeta in H.
  change (BPM.replacer_ (BPM.set_page_table ?a s)) with (BPM.replacer_ s) in H.
  bind_step H r1 Er1. injection H as <- <-. split; simpl.
  - assert (Hf : (f < length (BPM.pages_ s))%nat) by (by eapply lookup_lt_Some).
    apply (pin_ok_update _ (LRUK.frameinfo_map_ (BPM.replacer_ s))); [done..|].
    intros g fi Hg He. pose proof (Remove_map _ _ _ _ _ Er1 Hg) as Hg0.
    destruct (decide (g = f)) as [->|Hne]; [|done]. exfalso.
    revert Er1 Hg. unfold LRUK.Remove.
    destruct (N.of_nat f <=? _); [|done]. rewrite Hg0, He. done.
  - rewrite length_insert, (Remove_size _ _ _ Er1). done.
Qed.

Lemma WriteData_inv frame_id bytes s s' :
  pool_inv s -> BPM.WriteData frame_id bytes s = Some s' -> pool_inv s'.
Proof.
  intros [Hok Hsz] H. unfold BPM.WriteData in H.
  bind_step H pg Epg. injection H as <-. split; simpl.
  - by eapply pin_ok_page.
  - by rewrite length_insert.
Qed.

Lemma reachable_pool_inv pool_size replacer_k bucket_size disk s :
  BPM.reachable BUSTUB_PAGE_SIZE hash pool_size replacer_k bucket_size disk s ->
  pool_inv s.
Proof.
  induction 1 as [|s fuel res s' _ IH H|s fuel page_id res s' _ IH H
                  |s page_id is_dirty res s' _ IH H|s page_id res s' _ IH H
                  |s _ IH|s page_id res s' _ IH H|s frame_id bytes s' _ IH H].
  - split; simpl.
    + intros f fi Hf. by rewrite lookup_empty in Hf.
    + rewrite repeat_length. lia.
  - by eapply NewPgImp_inv.
  - by eapply FetchPgImp_inv.
  - by eapply UnpinPgImp_inv.
  - by eapply FlushPgImp_inv.
  - exact IH.
  - by eapply DeletePgImp_inv.
  - by eapply WriteData_inv.
Qed.

End PoolInvariant.

(** ** [delete_page] and the precondition of [Remove] *)

Lemma pool1_unpinned_reachable : BPM.reachable 2 hash_int 1 2 4 ∅ pool1_unpinned.
Proof.
  apply (BPM.reach_UnpinPg _ _ _ _ _ _ pool1_new 0 false true).
  - apply (BPM.reach_NewPg _ _ _ _ _ _ pool1 40 (Some (0%Z, 0%nat))).
    + apply BPM.reach_init.
    + vm_compute; reflexivity.
  - vm_compute; reflexivity.
Defined.

(** C8 does not hold: in no reachable pool state does [delete_page] pass its
    guards on a frame that the replacer holds as non-evictable.  A frame
    becomes non-evictable only where its pin count is set to 1, and a pin
    count that [unpin_page] brings to 0 makes the frame evictable at once. *)
Lemma no_Remove_on_non_evictable :
  ~ exists (page_size : nat) (hash : Z -> N) (pool_size : nat) (replacer_k : N)
      (bucket_size : nat) (disk : gmap Z (list Byte.byte)) (s : BPM.t) (page_id : Z),
      BPM.reachable page_size hash pool_size replacer_k bucket_size disk s /\
      Remove_on_non_evictable hash s page_id.
Proof.
  intros (page_size & hash & pool_size & k & B & disk & s & page_id & Hreach & Hbad).
  destruct Hbad as (f & pg & fi & _ & Hpg & Hpin & Hfi & He).
  apply reachable_pool_inv in Hreach as [Hok _].
  destruct (Hok f fi Hfi He) as (pg' & Hpg' & Hpos).
  assert (pg' = pg) as -> by congruence.
  rewrite Z.gtb_ltb in Hpin. apply Z.ltb_ge in Hpin. lia.
Qed.

(** C8, amended.  In every reachable pool state, when [delete_page(page_id)]
    passes its guards (the page table maps [page_id] to a frame whose pin
    count is not positive), the replacer either does not know the frame or
    holds it as evictable: the assertion of [Remove] holds, and [delete_page]
    returns true. *)
Theorem DeletePgImp_meets_Remove_precondition (page_size : nat) (hash : Z -> N)
    (pool_size : nat) (replacer_k : N) (bucket_size : nat)
    (disk : gmap Z (list Byte.byte)) (s : BPM.t) (page_id : Z) (frame_id : nat)
    (pg : Page.t) :
  BPM.reachable page_size hash pool_size replacer_k bucket_size disk s ->
  EHT.Find hash (BPM.page_table_ s) page_id = Some frame_id ->
  BPM.pages_ s !! frame_id = Some pg ->
  (Page.pin_count_ pg >? 0)%Z = false ->
  (LRUK.frameinfo_map_ (BPM.replacer_ s) !! frame_id = None \/
   exists fi, LRUK.frameinfo_map_ (BPM.replacer_ s) !! frame_id = Some fi /\
              LRUK.evictable_ fi = true) /\
  exists s', BPM.DeletePgImp page_size hash page_id s = Some (true, s').
Proof.
  intros Hreach Hfind Hpg Hpin.
  apply reachable_pool_inv in Hreach as [Hok Hsz].
  assert (Hknown : LRUK.frameinfo_map_ (BPM.replacer_ s) !! frame_id = None \/
     exists fi, LRUK.frameinfo_map_ (BPM.replacer_ s) !! frame_id = Some fi /\
                LRUK.evictable_ fi = true).
  { destruct (LRUK.frameinfo_map_ (BPM.replacer_ s) !! frame_id) as [fi|] eqn:Hfi;
      [|by left].
    right. exists fi. split; [done|].
    destruct (LRUK.evictable_ fi) eqn:He; [done|].
    destruct (Hok frame_id fi Hfi He) as (pg' & Hpg' & Hpos).
    assert (pg' = pg) as -> by congruence.
    rewrite Z.gtb_ltb in Hpin. apply Z.ltb_ge in Hpin. lia. }
  split; [done|].
  unfold BPM.DeletePgImp. rewrite Hfind, Hpg. simpl. rewrite Hpin.
  change (BPM.replacer_ (BPM.set_page_table ?a s)) with (BPM.replacer_ s).
  assert (Hle : (N.of_nat frame_id <=? LRUK.replacer_size_ (BPM.replacer_ s)) = true).
  { apply N.leb_le. apply lookup_lt_Some in Hpg. lia. }
  unfold LRUK.Remove. rewrite Hle.
  destruct Hknown as [->|(fi & -> & ->)]; simpl; eauto.
Qed.

Lemma DeletePgImp_meets_Remove_precondition_witness :
  (LRUK.frameinfo_map_ (BPM.replacer_ pool1_unpinned) !! 0%nat = None \/
   exists fi, LRUK.frameinfo_map_ (BPM.replacer_ pool1_unpinned) !! 0%nat = Some fi /\
              LRUK.evictable_ fi = true) /\
  exists s', BPM.DeletePgImp 2 hash_int 0 pool1_unpinned = Some (true, s').
Proof.
  apply (DeletePgImp_meets_Remove_precondition 2 hash_int 1 2 4 ∅ pool1_unpinned 0 0
           (Page.Build [Byte.x00; Byte.x00] 0 0 false) pool1_unpinned_reachable);
    vm_compute; reflexivity.
Defined.

(** ** [flush_page], [flush_all] and the pages that are resident *)

Lemma pool1_new_reachable : BPM.reachable 2 hash_int 1 2 4 ∅ pool1_new.
Proof.
  apply (BPM.reach_NewPg _ _ _ _ _ _ pool1 40 (Some (0%Z, 0%nat))).
  - apply BPM.reach_init.
  - vm_compute; reflexivity.
Defined.





(** * Further properties of the three components *)

(** ** The table as a map *)

Section BucketMap.
Context {K V : Type} `{EqDecision K}.
Implicit Types (l : list (K * V)) (k : K) (v : V).

Lemma Find_items_filter (P : K * V -> Prop) `{!forall kv, Decision (P kv)} k l :
  (forall kv, kv ∈ l -> kv.1 = k -> P kv) ->
  Bucket.Find_items k (filter P l) = Bucket.Find_items k l.
Proof.
  induction l as [|kv l IH]; intros HP; [done|].
  destruct (decide (P kv)) as [Hp|Hnp].
  - rewrite filter_cons_True by done. simpl.
    destruct (decide (kv.1 = k)); [done|]. apply IH.
    intros kv' Hin. apply HP. by apply list_elem_of_further.
  - rewrite filter_cons_False by done. simpl.
    destruct (decide (kv.1 = k)) as [He|Hne].
    + exfalso. apply Hnp. apply HP; [apply list_elem_of_here | done].
    + apply IH. intros kv' Hin. apply HP. by apply list_elem_of_further.
Qed.

Lemma Remove_items_found k l :
  (Bucket.Remove_items k l).1 = true <-> is_Some (Bucket.Find_items k l).
Proof.
  induction l as [|kv l IH]; simpl.
  - split; [done | by intros [? ?]].
  - destruct (decide (kv.1 = k)); simpl; [|done]. split; [by eexists | done].
Qed.

Lemma Find_items_Remove_items k l :
  NoDup l.*1 -> Bucket.Find_items k (Bucket.Remove_items k l).2 = None.
Proof.
  induction l as [|kv l IH]; csimpl; [done|].
  intros Hnd. apply NoDup_cons in Hnd as [Hn Hnd].
  destruct (decide (kv.1 = k)) as [He|Hne]; simpl.
  - apply Find_items_None. by rewrite <- He.
  - rewrite decide_False by done. by apply IH.
Qed.

Lemma Find_items_Remove_items_ne k k' l :
  k' <> k -> Bucket.Find_items k' (Bucket.Remove_items k l).2 = Bucket.Find_items k' l.
Proof.
  intros Hne. induction l as [|kv l IH]; simpl; [done|].
  destruct (decide (kv.1 = k)) as [He|Hne']; simpl.
  - rewrite decide_False by congruence. done.
  - by rewrite IH.
Qed.

Lemma Insert_items_length k v l :
  (length (Bucket.Insert_items k v l) <= S (length l))%nat.
Proof.
  induction l as [|kv l IH]; simpl; [lia|].
  destruct (decide (kv.1 = k)); simpl; lia.
Qed.

Lemma Remove_items_length k l :
  (length (Bucket.Remove_items k l).2 <= length l)%nat.
Proof.
  induction l as [|kv l IH]; simpl; [lia|].
  destruct (decide (kv.1 = k)); simpl; lia.
Qed.

End BucketMap.

Section TableMap.
Context {K V : Type} `{EqDecision K}.
Variable hash : K -> N.
Implicit Types (tb : EHT.t K V) (b : Bucket.t K V) (k : K) (v : V).

(** Reading the table after a write through one bucket address. *)
Lemma Find_set_bucket tb a b b' k' :
  EHT.store_ tb !! a = Some b ->
  EHT.Find hash (EHT.set_bucket tb a b') k' =
    if decide (EHT.slot tb (EHT.IndexOf hash tb k') = a)
    then Bucket.Find k' b' else EHT.Find hash tb k'.
Proof.
  intros Ha. unfold EHT.Find, EHT.bucket_at.
  change (EHT.IndexOf hash (EHT.set_bucket tb a b') k') with (EHT.IndexOf hash tb k').
  change (EHT.slot (EHT.set_bucket tb a b') ?i) with (EHT.slot tb i).
  unfold EHT.deref. simpl.
  destruct (decide (EHT.slot tb (EHT.IndexOf hash tb k') = a)) as [->|Hne].
  - rewrite list_lookup_insert_eq by (by eapply lookup_lt_Some). done.
  - by rewrite list_lookup_insert_ne.
Qed.

Lemma GrowGlobal_Find tb index k' :
  wf hash tb -> EHT.Find hash (EHT.GrowGlobal tb index) k' = EHT.Find hash tb k'.
Proof. intros Hwf. unfold EHT.Find. by rewrite GrowGlobal_bucket_at. Qed.

Lemma GrowLocal_Find tb (i : nat) k' :
  wf hash tb -> (i < length (EHT.dir_ tb))%nat ->
  EHT.GetLocalDepthInternal tb (N.of_nat i) < EHT.global_depth_ tb ->
  EHT.Find hash (EHT.GrowLocal hash tb (N.of_nat i)) k' = EHT.Find hash tb k'.
Proof.
  intros Hwf Hi HL.
  destruct (slot_lookup hash tb i Hwf Hi) as (b0 & Hd & Hs & Hb).
  unfold EHT.GetLocalDepthInternal in HL. rewrite Hb in HL.
  destruct (index_lookup hash tb k' Hwf) as (j & bj & Hj & Hdj & Hsj & Hbj).
  assert (Hjlt : (j < length (EHT.dir_ tb))%nat) by (by eapply lookup_lt_Some).
  pose proof (GrowLocal_dir hash tb i _ b0 j Hwf Hd Hs Hjlt) as Hdir.
  pose proof (GrowLocal_store hash tb i _ b0 Hwf Hd Hs) as Hst.
  unfold EHT.Find at 2. rewrite Hbj.
  unfold EHT.Find.
  change (EHT.IndexOf hash (EHT.GrowLocal hash tb (N.of_nat i)) k')
    with (EHT.IndexOf hash tb k').
  rewrite <- Hj.
  destruct (decide (agree (Bucket.depth_ b0) (N.of_nat j) (N.of_nat i))) as [Hag|Hag].
  - (* the key is routed to the split bucket *)
    assert (Hsame : EHT.dir_ tb !! j = Some (EHT.slot tb (N.of_nat i))).
    { by apply (wf_share hash _ Hwf i j _ b0 Hd Hs Hjlt). }
    assert (bj = b0) as -> by congruence.
    assert (Hbit : N.testbit (N.of_nat j) (Bucket.depth_ b0)
                   = N.testbit (hash k') (Bucket.depth_ b0)).
    { rewrite Hj, IndexOf_low. by apply N.mod_pow2_bits_low. }
    rewrite Hbit in Hdir.
    destruct (N.testbit (hash k') (Bucket.depth_ b0)) eqn:Hk.
    + rewrite (proj2 (bucket_at_lookup _ j _ (split_new hash tb b0) Hdir
                        ltac:(rewrite Hst; by apply list_lookup_middle))).
      unfold Bucket.Find, split_new. simpl. apply Find_items_filter.
      intros kv _ ->. done.
    + rewrite (proj2 (bucket_at_lookup _ j _ (split_old hash tb b0) Hdir
                        ltac:(rewrite Hst, lookup_app_r by lia;
                              by replace (S _ - _)%nat with 1%nat by lia))).
      unfold Bucket.Find, split_old. simpl. apply Find_items_filter.
      intros kv _ ->. done.
  - assert (Hst' : EHT.store_ (EHT.GrowLocal hash tb (N.of_nat i))
                     !! EHT.slot tb (EHT.IndexOf hash tb k') = Some bj).
    { rewrite Hst. rewrite lookup_app_l by (by eapply lookup_lt_Some). done. }
    rewrite Hdj in Hdir.
    by rewrite (proj2 (bucket_at_lookup _ j _ bj Hdir Hst')).
Qed.

(** One activation of [Insert] and the keys already stored. *)
Lemma Insert_body_Find tb k v k' :
  wf hash tb ->
  match EHT.Insert_body hash tb k v with
  | EHT.Return tb' => k' <> k -> EHT.Find hash tb' k' = EHT.Find hash tb k'
  | EHT.Retry tb' => EHT.Find hash tb' k' = EHT.Find hash tb k'
  | EHT.Stuck => True
  end.
Proof.
  intros Hwf.
  destruct (index_lookup hash tb k Hwf) as (i & b & Hi & Hd & Hs & Hb).
  pose proof (Insert_body_spec hash tb k v Hwf) as Hspec. simpl in Hspec.
  unfold EHT.Insert_body, EHT.shift_defined in *.
  pose proof (wf_depth hash _ Hwf) as HG. rewrite (proj2 (N.leb_le _ _) HG) in *.
  fold (EHT.bucket_at tb (EHT.IndexOf hash tb k)) in *. rewrite Hb in *.
  destruct (Bucket.IsFull b) eqn:Hfull; simpl in *.
  2:{ intros Hne. rewrite (Find_set_bucket tb _ b) by done.
      destruct (decide _) as [He|]; [|done].
      unfold EHT.Find, EHT.bucket_at. rewrite He. unfold EHT.deref. rewrite Hs. simpl.
      by apply Find_items_Insert_items_ne. }
  unfold EHT.GetLocalDepthInternal, EHT.GetGlobalDepthInternal in *. rewrite Hb in *.
  assert (HL : Bucket.depth_ b <= EHT.global_depth_ tb) by (by eapply (wf_local hash)).
  destruct (N.eqb_spec (Bucket.depth_ b) (EHT.global_depth_ tb)) as [Heq|Hne].
  - simpl in *.
    destruct (N.leb_spec (EHT.global_depth_ tb + 1) 30) as [Hle|Hgt]; [|done].
    set (tb1 := EHT.GrowGlobal tb (EHT.IndexOf hash tb k)) in *.
    assert (Hwf1 : wf hash tb1) by (by apply wf_GrowGlobal).
    assert (Hb1 : EHT.bucket_at tb1 (EHT.IndexOf hash tb1 k) = b).
    { unfold tb1. rewrite GrowGlobal_bucket_at by done. done. }
    rewrite Hb1 in *.
    destruct (N.leb_spec (EHT.global_depth_ tb + 1) (Bucket.depth_ b)) as [Hc|_]; [lia|].
    destruct (index_lookup hash tb1 k Hwf1) as (i1 & b1 & Hi1 & Hd1 & _).
    rewrite <- Hi1. rewrite GrowLocal_Find; [by apply GrowGlobal_Find|done|..].
    + by eapply lookup_lt_Some.
    + unfold EHT.GetLocalDepthInternal. rewrite Hi1, Hb1. simpl. lia.
  - simpl in *. rewrite (proj2 (N.leb_le _ _) HG) in *. rewrite Hb in *.
    destruct (N.leb_spec (EHT.global_depth_ tb) (Bucket.depth_ b)) as [Hc|_]; [lia|].
    rewrite <- Hi. apply GrowLocal_Find; [done | by eapply lookup_lt_Some |].
    unfold EHT.GetLocalDepthInternal. rewrite Hi, Hb. lia.
Qed.

Lemma Insert_Find_other fuel tb k v tb' k' :
  wf hash tb -> EHT.Insert hash fuel tb k v = EHT.Done tb' -> k' <> k ->
  EHT.Find hash tb' k' = EHT.Find hash tb k'.
Proof.
  revert tb. induction fuel as [|fuel IH]; intros tb Hwf; simpl; [done|].
  pose proof (Insert_body_spec hash tb k v Hwf) as Hspec. simpl in Hspec.
  pose proof (Insert_body_Find tb k v k' Hwf) as Hfind.
  destruct (EHT.Insert_body hash tb k v) as [tb1|tb1|]; [| |done].
  - intros [= <-]. done.
  - intros Hins Hne. rewrite (IH tb1); [done| |done..]. by destruct Hspec as (_ & ? & _).
Qed.

(** More fuel does not change what [Insert] returns. *)
Lemma Insert_fuel_mono fuel fuel' tb k v :
  (fuel <= fuel')%nat -> EHT.Insert hash fuel tb k v <> EHT.OutOfFuel ->
  EHT.Insert hash fuel' tb k v = EHT.Insert hash fuel tb k v.
Proof.
  revert fuel' tb. induction fuel as [|fuel IH]; intros fuel' tb Hle; simpl; [done|].
  destruct fuel' as [|fuel']; [lia|]. simpl.
  destruct (EHT.Insert_body hash tb k v); [done| |done].
  apply IH. lia.
Qed.

Lemma Remove_spec tb k :
  wf hash tb ->
  ((EHT.Remove hash tb k).1 = true <-> is_Some (EHT.Find hash tb k)) /\
  EHT.Find hash (EHT.Remove hash tb k).2 k = None /\
  (forall k', k' <> k ->
     EHT.Find hash (EHT.Remove hash tb k).2 k' = EHT.Find hash tb k').
Proof.
  intros Hwf. destruct (index_lookup hash tb k Hwf) as (i & b & Hi & Hd & Hs & Hb).
  assert (Hderef : EHT.deref tb (EHT.slot tb (EHT.IndexOf hash tb k)) = b).
  { unfold EHT.deref. by rewrite Hs. }
  unfold EHT.Remove. cbv zeta. rewrite Hderef. simpl. split_and!.
  - unfold EHT.Find. rewrite Hb. apply Remove_items_found.
  - rewrite (Find_set_bucket tb _ b) by done. rewrite decide_True by done.
    apply Find_items_Remove_items. by eapply (wf_nodup hash).
  - intros k' Hne. rewrite (Find_set_bucket tb _ b) by done.
    destruct (decide _) as [He|]; [|done].
    unfold EHT.Find, EHT.bucket_at. rewrite He, Hderef.
    by apply Find_items_Remove_items_ne.
Qed.

End TableMap.

(** ** The capacity of the buckets *)

Section TableShape.
Context {K V : Type} `{EqDecision K}.
Variable hash : K -> N.
Implicit Types (tb : EHT.t K V) (b : Bucket.t K V) (k : K) (v : V).

(** The ways an activation of [Insert] can go, under the invariant: it
    stores into a bucket that has room, or it splits the bucket of the key
    (after doubling the directory when the bucket is as deep as the
    directory), or it stops at a shift that is not defined. *)
Lemma Insert_body_cases tb k v :
  wf hash tb ->
  exists (i : nat) a b,
    N.of_nat i = EHT.IndexOf hash tb k /\
    EHT.dir_ tb !! i = Some a /\ EHT.store_ tb !! a = Some b /\
    ((Bucket.IsFull b = false /\
      EHT.Insert_body hash tb k v = EHT.Return (EHT.set_bucket tb a (Bucket.Insert k v b))) \/
     (Bucket.IsFull b = true /\ EHT.Insert_body hash tb k v = EHT.Stuck) \/
     (Bucket.IsFull b = true /\
      exists tb1 (i1 : nat) a1,
        (tb1 = tb \/ tb1 = EHT.GrowGlobal tb (EHT.IndexOf hash tb k)) /\
        wf hash tb1 /\
        EHT.dir_ tb1 !! i1 = Some a1 /\ EHT.store_ tb1 !! a1 = Some b /\
        Bucket.depth_ b < EHT.global_depth_ tb1 /\
        EHT.Insert_body hash tb k v = EHT.Retry (EHT.GrowLocal hash tb1 (N.of_nat i1)))).
Proof.
  intros Hwf.
  destruct (index_lookup hash tb k Hwf) as (i & b & Hi & Hd & Hs & Hb).
  exists i, (EHT.slot tb (EHT.IndexOf hash tb k)), b. split_and!; [done..|].
  assert (Hderef : EHT.deref tb (EHT.slot tb (EHT.IndexOf hash tb k)) = b).
  { unfold EHT.deref. by rewrite Hs. }
  unfold EHT.Insert_body, EHT.shift_defined.
  pose proof (wf_depth hash _ Hwf) as HG. rewrite (proj2 (N.leb_le _ _) HG).
  rewrite Hderef.
  destruct (Bucket.IsFull b) eqn:Hfull; simpl; [|by left].
  right.
  unfold EHT.GetLocalDepthInternal, EHT.GetGlobalDepthInternal. rewrite Hb.
  assert (HL : Bucket.depth_ b <= EHT.global_depth_ tb) by (by eapply (wf_local hash)).
  destruct (N.eqb_spec (Bucket.depth_ b) (EHT.global_depth_ tb)) as [Heq|Hne].
  - simpl. destruct (N.leb_spec (EHT.global_depth_ tb + 1) 30) as [Hle|Hgt]; [|by left].
    set (tb1 := EHT.GrowGlobal tb (EHT.IndexOf hash tb k)).
    assert (Hwf1 : wf hash tb1) by (by apply wf_GrowGlobal).
    assert (Hb1 : EHT.bucket_at tb1 (EHT.IndexOf hash tb1 k) = b).
    { unfold tb1. rewrite GrowGlobal_bucket_at by done. done. }
    rewrite Hb1.
    destruct (N.leb_spec (EHT.global_depth_ tb + 1) (Bucket.depth_ b)) as [Hc|_]; [lia|].
    destruct (index_lookup hash tb1 k Hwf1) as (i1 & b1 & Hi1 & Hd1 & Hs1 & Hb1').
    right. split; [done|]. exists tb1, i1, (EHT.slot tb1 (EHT.IndexOf hash tb1 k)).
    split_and!; [by right | done | done | congruence | simpl; lia | by rewrite Hi1].
  - simpl. rewrite (proj2 (N.leb_le _ _) HG). rewrite Hb.
    destruct (N.leb_spec (EHT.global_depth_ tb) (Bucket.depth_ b)) as [Hc|_]; [lia|].
    right. split; [done|]. exists tb, i, (EHT.slot tb (EHT.IndexOf hash tb k)).
    split_and!; [by left | done | done | done | lia | by rewrite Hi].
Qed.

(** The buckets of the directory after [GrowLocal]: the two halves of the
    split bucket and the buckets that were there. *)
Lemma GrowLocal_lookup tb (i : nat) a0 b0 j a b :
  wf hash tb -> EHT.dir_ tb !! i = Some a0 -> EHT.store_ tb !! a0 = Some b0 ->
  EHT.dir_ (EHT.GrowLocal hash tb (N.of_nat i)) !! j = Some a ->
  EHT.store_ (EHT.GrowLocal hash tb (N.of_nat i)) !! a = Some b ->
  (a = length (EHT.store_ tb) /\ b = split_new hash tb b0) \/
  (a = S (length (EHT.store_ tb)) /\ b = split_old hash tb b0) \/
  (a <> a0 /\ EHT.dir_ tb !! j = Some a /\ EHT.store_ tb !! a = Some b).
Proof.
  intros Hwf Hd Hs Hj Ha.
  assert (Hjlt : (j < length (EHT.dir_ tb))%nat).
  { rewrite <- (GrowLocal_dir_length hash tb (N.of_nat i)). by eapply lookup_lt_Some. }
  rewrite (GrowLocal_dir hash tb i a0 b0 j Hwf Hd Hs Hjlt) in Hj.
  rewrite (GrowLocal_store hash tb i a0 b0 Hwf Hd Hs) in Ha.
  destruct (decide (agree (Bucket.depth_ b0) (N.of_nat j) (N.of_nat i))) as [Hag|Hag].
  - destruct (N.testbit (N.of_nat j) (Bucket.depth_ b0)); injection Hj as <-.
    + left. split; [done|]. rewrite list_lookup_middle in Ha by done. congruence.
    + right; left. split; [done|]. rewrite lookup_app_r in Ha by lia.
      replace (S _ - _)%nat with 1%nat in Ha by lia. simpl in Ha. congruence.
  - right; right. destruct (wf_addr hash _ Hwf _ _ Hj) as [b' Hb'].
    rewrite lookup_app_l in Ha by (by eapply lookup_lt_Some).
    split_and!; [|done..]. intros ->. apply Hag.
    by apply (wf_share hash _ Hwf i j a0 b0 Hd Hs Hjlt).
Qed.

Lemma GrowGlobal_lookup tb index j a :
  EHT.dir_ (EHT.GrowGlobal tb index) !! j = Some a ->
  exists j0, EHT.dir_ tb !! j0 = Some a.
Proof.
  simpl. intros Hj. destruct (double_lookup (EHT.dir_ tb) j) as (j0 & _ & Heq & _).
  { by eapply lookup_lt_Some. }
  exists j0. by rewrite <- Heq.
Qed.

Lemma within_capacity_GrowLocal tb (i : nat) a0 b0 :
  wf hash tb -> EHT.dir_ tb !! i = Some a0 -> EHT.store_ tb !! a0 = Some b0 ->
  within_capacity tb -> within_capacity (EHT.GrowLocal hash tb (N.of_nat i)).
Proof.
  intros Hwf Hd Hs Hcap j a b Hj Ha.
  destruct (Hcap _ _ _ Hd Hs) as [Hsz Hlen].
  destruct (GrowLocal_lookup tb i a0 b0 j a b Hwf Hd Hs Hj Ha)
    as [[_ ->]|[[_ ->]|(_ & Hj' & Ha')]].
  - unfold split_new. simpl. split; [done|].
    etrans; [apply length_filter|]. by rewrite <- Hsz.
  - unfold split_old. simpl. split; [done|].
    etrans; [apply length_filter|]. by rewrite <- Hsz.
  - by apply (Hcap j a b).
Qed.

Lemma within_capacity_set_bucket tb a b b' :
  EHT.store_ tb !! a = Some b -> within_capacity tb ->
  Bucket.size_ b' = EHT.bucket_size_ tb ->
  (length (Bucket.list_ b') <= Bucket.size_ b')%nat ->
  within_capacity (EHT.set_bucket tb a b').
Proof.
  intros Ha Hcap Hsz Hlen j a1 b1 Hj Ha1. simpl in *.
  destruct (decide (a1 = a)) as [->|Hne].
  - rewrite list_lookup_insert_eq in Ha1 by (by eapply lookup_lt_Some).
    by injection Ha1 as <-.
  - rewrite list_lookup_insert_ne in Ha1 by done. by apply (Hcap j a1 b1).
Qed.

Lemma Insert_within_capacity fuel tb k v tb' :
  wf hash tb -> within_capacity tb ->
  EHT.Insert hash fuel tb k v = EHT.Done tb' -> within_capacity tb'.
Proof.
  revert tb. induction fuel as [|fuel IH]; intros tb Hwf Hcap; simpl; [done|].
  destruct (Insert_body_cases tb k v Hwf) as (i & a & b & Hi & Hd & Hs & Hcase).
  destruct (Hcap _ _ _ Hd Hs) as [Hsz Hlen].
  destruct Hcase as [[Hfull ->]|[[_ ->]|(_ & tb1 & i1 & a1 & Htb1 & Hwf1 & Hd1 & Hs1 & HL & ->)]];
    [| done |].
  - intros [= <-]. eapply within_capacity_set_bucket; [done..| |]; simpl; [done|].
    unfold Bucket.IsFull in Hfull. apply negb_false_iff, Nat.ltb_lt in Hfull.
    pose proof (Insert_items_length k v (Bucket.list_ b)). lia.
  - apply IH.
    + apply wf_GrowLocal; [done | by eapply lookup_lt_Some |].
      unfold EHT.GetLocalDepthInternal.
      by rewrite (proj2 (bucket_at_lookup _ _ _ _ Hd1 Hs1)).
    + eapply within_capacity_GrowLocal; [done..|].
      destruct Htb1 as [->| ->]; [done|].
      intros j a2 b2 Hj Ha2. destruct (GrowGlobal_lookup _ _ _ _ Hj) as [j0 Hj0].
      by apply (Hcap j0 a2 b2).
Qed.

Lemma table_reachable_within_capacity bucket_size tb :
  table_reachable hash bucket_size tb -> within_capacity tb.
Proof.
  induction 1 as [|tb fuel k v tb' Hr IH HI|tb k Hr IH].
  - intros [|i] a b Hi Ha; [|done]. injection Hi as <-. injection Ha as <-. simpl.
    split; [done | lia].
  - eapply Insert_within_capacity; [|done..]. by eapply table_reachable_wf.
  - apply table_reachable_wf in Hr as Hwf.
    destruct (index_lookup hash tb k Hwf) as (i & b & Hi & Hd & Hs & Hb).
    destruct (IH _ _ _ Hd Hs) as [Hsz Hlen].
    unfold EHT.Remove. cbv zeta. simpl.
    eapply within_capacity_set_bucket; [done..| |]; unfold EHT.deref; rewrite Hs; simpl;
      [done|].
    pose proof (Remove_items_length k (Bucket.list_ b)). lia.
Qed.

End TableShape.

(** ** The number of buckets *)

Section TableCount.
Context {K V : Type} `{EqDecision K}.
Variable hash : K -> N.
Implicit Types (tb : EHT.t K V) (b : Bucket.t K V) (k : K) (v : V).

Lemma testbit_low_part (x L : N) : N.testbit (x mod 2 ^ L) L = false.
Proof. apply N.mod_pow2_bits_high. lia. Qed.

Lemma testbit_high_part (x L : N) : N.testbit (x mod 2 ^ L + 2 ^ L) L = true.
Proof.
  assert (Hnz : 2 ^ L <> 0) by (by apply N.pow_nonzero).
  assert (Hb : N.b2n (N.testbit (x mod 2 ^ L + 2 ^ L) L) = 1).
  { rewrite N.testbit_spec'.
    replace (x mod 2 ^ L + 2 ^ L) with (x mod 2 ^ L + 1 * 2 ^ L) by lia.
    rewrite N.div_add by done.
    rewrite N.div_small by (by apply N.mod_lt). done. }
  by destruct (N.testbit _ L).
Qed.

(** [GrowLocal] takes the split bucket out of use and puts its two halves in
    use. *)
Lemma GrowLocal_buckets_in_use tb (i : nat) a0 b0 :
  wf hash tb -> EHT.dir_ tb !! i = Some a0 -> EHT.store_ tb !! a0 = Some b0 ->
  Bucket.depth_ b0 < EHT.global_depth_ tb ->
  buckets_in_use (EHT.GrowLocal hash tb (N.of_nat i)) =
    {[length (EHT.store_ tb); S (length (EHT.store_ tb))]} ∪ (buckets_in_use tb ∖ {[a0]}).
Proof.
  intros Hwf Hd Hs HL. set (L := Bucket.depth_ b0) in *.
  pose proof (wf_dir hash _ Hwf) as Hlen.
  assert (Hpow : 2 ^ (L + 1) <= 2 ^ EHT.global_depth_ tb).
  { apply N.pow_le_mono_r; lia. }
  assert (Hpow2 : 2 ^ (L + 1) = 2 * 2 ^ L) by (by rewrite N.add_1_r, N.pow_succ_r').
  assert (Hr : N.of_nat i mod 2 ^ L < 2 ^ L).
  { apply N.mod_lt, N.pow_nonzero. done. }
  set (r := N.of_nat i mod 2 ^ L) in *.
  assert (Hj0 : (N.to_nat r < length (EHT.dir_ tb))%nat).
  { revert Hr Hpow Hpow2 Hlen. generalize (2 ^ (L + 1)) (2 ^ L) (2 ^ EHT.global_depth_ tb). lia. }
  assert (Hj1 : (N.to_nat (r + 2 ^ L) < length (EHT.dir_ tb))%nat).
  { revert Hr Hpow Hpow2 Hlen. generalize (2 ^ (L + 1)) (2 ^ L) (2 ^ EHT.global_depth_ tb). lia. }
  pose proof (fun j => GrowLocal_dir hash tb i a0 b0 j Hwf Hd Hs) as Hdir. fold L in Hdir.
  apply set_eq. intros x. unfold buckets_in_use.
  rewrite elem_of_union, elem_of_difference, !elem_of_list_to_set, !list_elem_of_lookup.
  rewrite elem_of_union, !elem_of_singleton. split.
  - intros [j Hj].
    assert (Hjlt : (j < length (EHT.dir_ tb))%nat).
    { rewrite <- (GrowLocal_dir_length hash tb (N.of_nat i)). by eapply lookup_lt_Some. }
    rewrite Hdir in Hj by done.
    destruct (decide (agree L (N.of_nat j) (N.of_nat i))) as [Hag|Hag].
    + left. destruct (N.testbit (N.of_nat j) L); injection Hj as <-; auto.
    + right. split; [by exists j|]. intros ->. apply Hag.
      by apply (wf_share hash _ Hwf i j a0 b0 Hd Hs Hjlt).
  - intros [[->| ->]|[[j Hj] Hne]].
    + exists (N.to_nat (r + 2 ^ L)). rewrite Hdir by done. rewrite N2Nat.id.
      rewrite decide_True.
      * unfold r. by rewrite testbit_high_part.
      * eapply agree_trans; [by apply agree_add_pow2|]. apply agree_mod.
    + exists (N.to_nat r). rewrite Hdir by done. rewrite N2Nat.id.
      rewrite decide_True by apply agree_mod.
      unfold r. by rewrite testbit_low_part.
    + exists j. assert (Hjlt : (j < length (EHT.dir_ tb))%nat) by (by eapply lookup_lt_Some).
      rewrite Hdir by done. rewrite decide_False; [done|].
      intros Hag. apply Hne.
      apply (wf_share hash _ Hwf i j a0 b0 Hd Hs Hjlt) in Hag. congruence.
Qed.

Lemma GrowLocal_count tb (i : nat) a0 b0 :
  wf hash tb -> EHT.dir_ tb !! i = Some a0 -> EHT.store_ tb !! a0 = Some b0 ->
  Bucket.depth_ b0 < EHT.global_depth_ tb ->
  size (buckets_in_use (EHT.GrowLocal hash tb (N.of_nat i))) = S (size (buckets_in_use tb)).
Proof.
  intros Hwf Hd Hs HL. rewrite (GrowLocal_buckets_in_use tb i a0 b0) by done.
  assert (Hfresh : forall x, x ∈ buckets_in_use tb -> (x < length (EHT.store_ tb))%nat).
  { intros x Hx. unfold buckets_in_use in Hx.
    rewrite elem_of_list_to_set, list_elem_of_lookup in Hx. destruct Hx as [j Hj].
    destruct (wf_addr hash _ Hwf _ _ Hj) as [b Hb]. by eapply lookup_lt_Some. }
  assert (Hin : a0 ∈ buckets_in_use tb).
  { unfold buckets_in_use. rewrite elem_of_list_to_set, list_elem_of_lookup. eauto. }
  rewrite size_union.
  - rewrite size_union by set_solver by lia. rewrite !size_singleton.
    rewrite size_difference by set_solver. rewrite size_singleton.
    assert (size (buckets_in_use tb) <> 0%nat).
    { intros Hz. apply size_empty_inv in Hz. set_solver. }
    lia.
  - intros x Hx1 Hx2. apply elem_of_difference in Hx2 as [Hx2 _].
    apply Hfresh in Hx2. apply elem_of_union in Hx1 as [Hx1|Hx1];
      apply elem_of_singleton in Hx1; lia.
Qed.

Lemma Insert_count fuel tb k v tb' :
  wf hash tb -> N.of_nat (size (buckets_in_use tb)) = EHT.num_buckets_ tb ->
  EHT.Insert hash fuel tb k v = EHT.Done tb' ->
  N.of_nat (size (buckets_in_use tb')) = EHT.num_buckets_ tb'.
Proof.
  revert tb. induction fuel as [|fuel IH]; intros tb Hwf Hcount; simpl; [done|].
  destruct (Insert_body_cases hash tb k v Hwf) as (i & a & b & Hi & Hd & Hs & Hcase).
  destruct Hcase as [[Hfull ->]|[[_ ->]|(_ & tb1 & i1 & a1 & Htb1 & Hwf1 & Hd1 & Hs1 & HL & ->)]];
    [| done |].
  - by intros [= <-].
  - apply IH.
    + apply wf_GrowLocal; [done | by eapply lookup_lt_Some |].
      unfold EHT.GetLocalDepthInternal.
      by rewrite (proj2 (bucket_at_lookup _ _ _ _ Hd1 Hs1)).
    + rewrite (GrowLocal_count tb1 i1 a1 b) by done.
      assert (Hsame : size (buckets_in_use tb1) = size (buckets_in_use tb) /\
                      EHT.num_buckets_ tb1 = EHT.num_buckets_ tb).
      { destruct Htb1 as [->| ->]; [done|]. split; [|done].
        unfold buckets_in_use. simpl. by rewrite list_to_set_app_L, union_idemp_L. }
      destruct Hsame as [Hsz Hnb]. simpl. rewrite Hsz, Hnb. lia.
Qed.

Lemma table_reachable_count bucket_size tb :
  table_reachable hash bucket_size tb ->
  N.of_nat (size (buckets_in_use tb)) = EHT.num_buckets_ tb.
Proof.
  induction 1 as [|tb fuel k v tb' Hr IH HI|tb k Hr IH].
  - unfold buckets_in_use, EHT.ExtendibleHashTable. cbn [EHT.dir_ EHT.num_buckets_].
    rewrite list_to_set_cons, list_to_set_nil, union_empty_r_L, size_singleton. done.
  - eapply Insert_count; [|done..]. by eapply table_reachable_wf.
  - exact IH.
Qed.

End TableCount.

(** ** The extendible hash table as its users see it *)

Lemma Find_items_elem {K V : Type} `{EqDecision K} (k : K) (v : V) (l : list (K * V)) :
  NoDup l.*1 -> (k, v) ∈ l -> Bucket.Find_items k l = Some v.
Proof.
  induction l as [|kv l IH]; csimpl; [by intros _ ?%elem_of_nil|].
  intros Hnd Hin. apply NoDup_cons in Hnd as [Hn Hnd].
  apply elem_of_cons in Hin as [<-|Hin]; simpl; [by rewrite decide_True|].
  rewrite decide_False; [by apply IH|].
  intros He. apply Hn. rewrite He. apply list_elem_of_fmap. by exists (k, v).
Qed.

Lemma entries_Find {K V : Type} `{EqDecision K} (hash : K -> N) (tb : EHT.t K V) k v :
  wf hash tb -> ((k, v) ∈ EHT.entries tb <-> EHT.Find hash tb k = Some v).
Proof.
  intros Hwf. unfold EHT.entries. rewrite list_elem_of_bind. split.
  - intros (a & Hin & Ha). rewrite elem_of_remove_dups, list_elem_of_lookup in Ha.
    destruct Ha as [i Hi]. destruct (wf_addr hash _ Hwf _ _ Hi) as [b Hb].
    unfold EHT.deref in Hin. rewrite Hb in Hin. simpl in Hin.
    pose proof (wf_keys hash _ Hwf _ _ _ _ Hi Hb Hin) as Hag. simpl in Hag.
    destruct (index_lookup hash tb k Hwf) as (j & bj & Hj & Hdj & Hsj & Hbj).
    assert (Hsame : EHT.dir_ tb !! j = Some a).
    { apply (proj2 (wf_share hash _ Hwf i j a b Hi Hb (lookup_lt_Some _ _ _ Hdj))).
      rewrite Hj, IndexOf_low. eapply agree_trans; [|exact Hag].
      apply (agree_le _ (EHT.global_depth_ tb));
        [exact (wf_local hash _ Hwf _ _ _ Hi Hb) | apply agree_mod]. }
    rewrite Hdj in Hsame. injection Hsame as Hsame. rewrite Hsame in Hsj.
    assert (bj = b) as -> by congruence.
    unfold EHT.Find. rewrite Hbj. apply Find_items_elem; [|done].
    exact (wf_nodup hash _ Hwf _ _ _ Hi Hb).
  - intros Hfind. destruct (index_lookup hash tb k Hwf) as (j & bj & Hj & Hdj & Hsj & Hbj).
    unfold EHT.Find in Hfind. rewrite Hbj in Hfind. apply Find_items_Some in Hfind.
    exists (EHT.slot tb (EHT.IndexOf hash tb k)). split.
    + unfold EHT.deref. by rewrite Hsj.
    + rewrite elem_of_remove_dups, list_elem_of_lookup. eauto.
Qed.

(** X1.  [Insert] on a table reached by [Insert]s and [Remove]s, when it
    returns, has the effect of a map update: [Find] of the key gives the
    value inserted, and [Find] of every other key gives what it gave
    before, whatever splits and doublings of the directory took place. *)
Theorem Insert_is_map_update {K V : Type} `{EqDecision K} (hash : K -> N)
    (bucket_size : nat) (tb : EHT.t K V) (fuel : nat) (k : K) (v : V) (tb' : EHT.t K V) :
  table_reachable hash bucket_size tb ->
  EHT.Insert hash fuel tb k v = EHT.Done tb' ->
  EHT.Find hash tb' k = Some v /\
  forall k', k' <> k -> EHT.Find hash tb' k' = EHT.Find hash tb k'.
Proof.
  intros Hreach Hins. apply table_reachable_wf in Hreach as Hwf. split.
  - by destruct (Insert_Done hash fuel tb k v tb' Hwf Hins).
  - intros k' Hne. by eapply Insert_Find_other.
Qed.

Lemma Insert_is_map_update_witness :
  EHT.Find N.of_nat odd_keys_4 7%nat = Some 70%nat /\
  forall k', k' <> 7%nat -> EHT.Find N.of_nat odd_keys_4 k' = EHT.Find N.of_nat odd_keys_3 k'.
Proof.
  apply (Insert_is_map_update N.of_nat 2 odd_keys_3 1 7%nat 70%nat odd_keys_4).
  - exact odd_keys_reachable.
  - vm_compute; reflexivity.
Defined.

(** X2.  [Remove] on such a table has the effect of a map deletion: it
    returns true exactly when [Find] finds the key, afterwards [Find] of
    the key finds nothing, and [Find] of every other key is unchanged. *)
Theorem Remove_is_map_delete {K V : Type} `{EqDecision K} (hash : K -> N)
    (bucket_size : nat) (tb : EHT.t K V) (k : K) :
  table_reachable hash bucket_size tb ->
  ((EHT.Remove hash tb k).1 = true <-> is_Some (EHT.Find hash tb k)) /\
  EHT.Find hash (EHT.Remove hash tb k).2 k = None /\
  (forall k', k' <> k ->
     EHT.Find hash (EHT.Remove hash tb k).2 k' = EHT.Find hash tb k').
Proof. intros Hreach. apply Remove_spec. by eapply table_reachable_wf. Qed.

Lemma Remove_is_map_delete_witness :
  ((EHT.Remove N.of_nat odd_keys_3 3%nat).1 = true <->
     is_Some (EHT.Find N.of_nat odd_keys_3 3%nat)) /\
  EHT.Find N.of_nat (EHT.Remove N.of_nat odd_keys_3 3%nat).2 3%nat = None /\
  (forall k', k' <> 3%nat ->
     EHT.Find N.of_nat (EHT.Remove N.of_nat odd_keys_3 3%nat).2 k'
     = EHT.Find N.of_nat odd_keys_3 k').
Proof. exact (Remove_is_map_delete N.of_nat 2 odd_keys_3 3%nat odd_keys_reachable). Defined.

(** X3.  In such a table no key is stored twice, and the pairs stored in the
    buckets of the directory are exactly the pairs [Find] gives. *)
Theorem stored_pairs_are_found {K V : Type} `{EqDecision K} (hash : K -> N)
    (bucket_size : nat) (tb : EHT.t K V) :
  table_reachable hash bucket_size tb ->
  NoDup (EHT.entries tb).*1 /\
  forall k v, (k, v) ∈ EHT.entries tb <-> EHT.Find hash tb k = Some v.
Proof.
  intros Hreach. apply table_reachable_wf in Hreach as Hwf. split.
  - by apply (wf_entries_NoDup hash).
  - intros k v. by apply entries_Find.
Qed.

Lemma stored_pairs_are_found_witness :
  NoDup (EHT.entries odd_keys_3).*1 /\
  forall k v, (k, v) ∈ EHT.entries odd_keys_3 <-> EHT.Find N.of_nat odd_keys_3 k = Some v.
Proof. exact (stored_pairs_are_found N.of_nat 2 odd_keys_3 odd_keys_reachable). Defined.

(** X4.  In such a table every bucket of the directory has the capacity
    given to the constructor and holds at most that many pairs: [Insert]
    never overfills a bucket, and a split never makes one. *)
Theorem buckets_within_capacity {K V : Type} `{EqDecision K} (hash : K -> N)
    (bucket_size : nat) (tb : EHT.t K V) (i : nat) :
  table_reachable hash bucket_size tb ->
  (i < length (EHT.dir_ tb))%nat ->
  EHT.bucket_size_ tb = bucket_size /\
  Bucket.size_ (EHT.bucket_at tb (N.of_nat i)) = bucket_size /\
  (length (Bucket.list_ (EHT.bucket_at tb (N.of_nat i))) <= bucket_size)%nat.
Proof.
  intros Hreach Hi.
  assert (HB : EHT.bucket_size_ tb = bucket_size).
  { clear Hi. induction Hreach as [|tb fuel k v tb' Hr IH HI|tb k Hr IH]; [done| |done].
    revert tb IH HI Hr. induction fuel as [|fuel IHf]; intros tb IH HI Hr; [done|].
    simpl in HI. apply table_reachable_wf in Hr as Hwf.
    destruct (Insert_body_cases hash tb k v Hwf) as (j & a & b & _ & _ & _ & Hcase).
    destruct Hcase as [[_ Hb]|[[_ Hb]|(_ & tb1 & i1 & a1 & Htb1 & Hwf1 & Hd1 & Hs1 & HL & Hb)]];
      rewrite Hb in HI.
    - by injection HI as <-.
    - done.
    - assert (Hwf2 : wf hash (EHT.GrowLocal hash tb1 (N.of_nat i1))).
      { apply wf_GrowLocal; [done | by eapply lookup_lt_Some |].
        unfold EHT.GetLocalDepthInternal.
        by rewrite (proj2 (bucket_at_lookup _ _ _ _ Hd1 Hs1)). }
      assert (Hsz : EHT.bucket_size_ (EHT.GrowLocal hash tb1 (N.of_nat i1)) = bucket_size).
      { simpl. by destruct Htb1 as [->| ->]. }
      clear Hb. revert Hwf2 Hsz HI. generalize (EHT.GrowLocal hash tb1 (N.of_nat i1)).
      clear. revert fuel. induction fuel as [|fuel IHf]; intros tb Hwf Hsz; [done|].
      simpl. destruct (Insert_body_cases hash tb k v Hwf) as (j & a & b & _ & _ & _ & Hcase).
      destruct Hcase as [[_ ->]|[[_ ->]|(_ & tb1 & i1 & a1 & Htb1 & Hwf1 & Hd1 & Hs1 & HL & ->)]].
      + by intros [= <-].
      + done.
      + apply IHf.
        * apply wf_GrowLocal; [done | by eapply lookup_lt_Some |].
          unfold EHT.GetLocalDepthInternal.
          by rewrite (proj2 (bucket_at_lookup _ _ _ _ Hd1 Hs1)).
        * simpl. by destruct Htb1 as [->| ->]. }
  apply table_reachable_wf in Hreach as Hwf.
  apply table_reachable_within_capacity in Hreach as Hcap.
  destruct (slot_lookup hash tb i Hwf Hi) as (b & Hd & Hs & Hb).
  destruct (Hcap _ _ _ Hd Hs) as [Hsz Hlen]. rewrite Hb. split_and!; [done | congruence | lia].
Qed.

Lemma buckets_within_capacity_witness :
  EHT.bucket_size_ odd_keys_3 = 2%nat /\
  Bucket.size_ (EHT.bucket_at odd_keys_3 (N.of_nat 1)) = 2%nat /\
  (length (Bucket.list_ (EHT.bucket_at odd_keys_3 (N.of_nat 1))) <= 2)%nat.
Proof.
  apply (buckets_within_capacity N.of_nat 2 odd_keys_3 1 odd_keys_reachable).
  simpl. lia.
Defined.

(** X5.  [GetNumBuckets] is the number of distinct buckets the directory
    refers to: a split replaces one bucket in use by two, and doubling the
    directory or storing into a bucket changes nothing. *)
Theorem GetNumBuckets_counts_buckets {K V : Type} `{EqDecision K} (hash : K -> N)
    (bucket_size : nat) (tb : EHT.t K V) :
  table_reachable hash bucket_size tb ->
  EHT.GetNumBucketsInternal tb = N.of_nat (size (buckets_in_use tb)).
Proof. intros Hreach. symmetry. by eapply table_reachable_count. Qed.

Lemma GetNumBuckets_counts_buckets_witness :
  EHT.GetNumBucketsInternal odd_keys_3 = N.of_nat (size (buckets_in_use odd_keys_3)).
Proof. exact (GetNumBuckets_counts_buckets N.of_nat 2 odd_keys_3 odd_keys_reachable). Defined.

(** X6.  On such a table the recursion of [Insert] is bounded: 32
    activations are never used up, and any larger allowance gives the same
    outcome.  The outcome is a return, or the stop at the shift
    [1 << global_depth_] that is not defined once the depth reaches 31. *)
Theorem Insert_activations_bounded {K V : Type} `{EqDecision K} (hash : K -> N)
    (bucket_size : nat) (tb : EHT.t K V) (k : K) (v : V) (fuel : nat) :
  table_reachable hash bucket_size tb -> (32 <= fuel)%nat ->
  EHT.Insert hash fuel tb k v <> EHT.OutOfFuel /\
  EHT.Insert hash fuel tb k v = EHT.Insert hash 32 tb k v.
Proof.
  intros Hreach Hfuel. apply table_reachable_wf in Hreach as Hwf.
  assert (H32 : EHT.Insert hash 32 tb k v <> EHT.OutOfFuel).
  { apply Insert_fuel_enough; [done|]. lia. }
  rewrite (Insert_fuel_mono hash 32 fuel) by done. done.
Qed.

Lemma Insert_activations_bounded_witness :
  EHT.Insert N.of_nat 40 odd_keys_3 9%nat 90%nat <> EHT.OutOfFuel /\
  EHT.Insert N.of_nat 40 odd_keys_3 9%nat 90%nat
  = EHT.Insert N.of_nat 32 odd_keys_3 9%nat 90%nat.
Proof.
  apply (Insert_activations_bounded N.of_nat 2 odd_keys_3 9%nat 90%nat 40 odd_keys_reachable).
  lia.
Defined.

(** X7.  On such a table the global depth is at most 30, so that the shift
    of [IndexOf] is defined; [IndexOf] is the hash reduced modulo the size of
    the directory; and the slot it selects exists and refers to a bucket:
    [Find], [Remove] and [Insert] never index [dir_] outside of it. *)
Theorem IndexOf_within_directory {K V : Type} `{EqDecision K} (hash : K -> N)
    (bucket_size : nat) (tb : EHT.t K V) (k : K) :
  table_reachable hash bucket_size tb ->
  EHT.global_depth_ tb <= 30 /\
  EHT.IndexOf hash tb k = hash k mod N.of_nat (length (EHT.dir_ tb)) /\
  exists a b, EHT.dir_ tb !! N.to_nat (EHT.IndexOf hash tb k) = Some a /\
              EHT.store_ tb !! a = Some b.
Proof.
  intros Hreach. apply table_reachable_wf in Hreach as Hwf. split_and!.
  - exact (wf_depth hash _ Hwf).
  - by rewrite IndexOf_low, (wf_dir hash _ Hwf).
  - destruct (index_lookup hash tb k Hwf) as (i & b & Hi & Hd & Hs & _).
    exists (EHT.slot tb (EHT.IndexOf hash tb k)), b. split; [|done].
    assert (N.to_nat (EHT.IndexOf hash tb k) = i) as ->; [|done].
    rewrite <- Hi. apply Nat2N.id.
Qed.

Lemma IndexOf_within_directory_witness :
  EHT.global_depth_ odd_keys_3 <= 30 /\
  EHT.IndexOf N.of_nat odd_keys_3 7%nat
  = N.of_nat 7 mod N.of_nat (length (EHT.dir_ odd_keys_3)) /\
  exists a b, EHT.dir_ odd_keys_3 !! N.to_nat (EHT.IndexOf N.of_nat odd_keys_3 7%nat) = Some a /\
              EHT.store_ odd_keys_3 !! a = Some b.
Proof.
  exact (IndexOf_within_directory N.of_nat 2 odd_keys_3 7%nat odd_keys_reachable).
Defined.

(** ** The replacer *)

Lemma elem_of_evictable_frames r f :
  f ∈ evictable_frames r <->
  exists fi, LRUK.frameinfo_map_ r !! f = Some fi /\ LRUK.evictable_ fi = true.
Proof.
  unfold evictable_frames. rewrite elem_of_dom. unfold is_Some.
  setoid_rewrite map_lookup_filter_Some. naive_solver.
Qed.

Lemma erase_elem f l x : NoDup l -> x ∈ LRUK.erase f l <-> x ∈ l /\ x <> f.
Proof.
  induction l as [|y l IH]; simpl; intros Hnd.
  - split; [by intros ?%elem_of_nil | by intros [?%elem_of_nil _]].
  - apply NoDup_cons in Hnd as [Hy Hnd]. case_decide as Hd.
    + subst y. rewrite elem_of_cons. split.
      * intros Hx. split; [by right | by intros ->].
      * by intros [[->|Hx] Hne].
    + rewrite !elem_of_cons, IH by done. split.
      * intros [->|[Hx Hne]]; split; auto.
      * intros [[->|Hx] Hne]; auto.
Qed.

Lemma erase_NoDup f l : NoDup l -> NoDup (LRUK.erase f l).
Proof.
  induction l as [|y l IH]; simpl; intros Hnd; [done|].
  apply NoDup_cons in Hnd as [Hy Hnd]. case_decide; [done|].
  apply NoDup_cons. split; [|by apply IH]. rewrite erase_elem by done. tauto.
Qed.

Lemma size_dec_pred c : 1 <= c < 2 ^ 64 -> LRUK.size_dec c = c - 1.
Proof.
  intros Hc. unfold LRUK.size_dec.
  replace (c + (2 ^ 64 - 1)) with ((c - 1) + 1 * 2 ^ 64) by lia.
  rewrite N.Div0.mod_add. apply N.mod_small. lia.
Qed.

Lemma size_inc_succ c : c + 1 < 2 ^ 64 -> LRUK.size_inc c = c + 1.
Proof. intros Hc. unfold LRUK.size_inc. by apply N.mod_small. Qed.

Lemma tracked_frames_bound (m : gmap nat LRUK.FrameInfo) (n : N) (X : gset nat) :
  (forall f fi, m !! f = Some fi -> N.of_nat f <= n) -> X ⊆ dom m ->
  N.of_nat (size X) <= n + 1.
Proof.
  intros Hb HX.
  assert (Hsub : X ⊆ list_to_set (seq 0 (S (N.to_nat n)))).
  { intros f Hf. apply HX, elem_of_dom in Hf as [fi Hfi].
    apply elem_of_list_to_set, elem_of_seq. specialize (Hb _ _ Hfi). lia. }
  apply subseteq_size in Hsub.
  rewrite size_list_to_set, length_seq in Hsub by apply NoDup_seq. lia.
Qed.

Lemma evictable_frames_dom r : evictable_frames r ⊆ dom (LRUK.frameinfo_map_ r).
Proof.
  intros f Hf. apply elem_of_evictable_frames in Hf as (fi & Hfi & _).
  apply elem_of_dom. eauto.
Qed.

Lemma strictly_increasing_tl h : strictly_increasing h -> strictly_increasing (tl h).
Proof. destruct h; simpl; tauto. Qed.

Lemma strictly_increasing_snoc h t :
  strictly_increasing h -> Forall (fun x => x < t)%Z h -> strictly_increasing (h ++ [t]).
Proof.
  induction h as [|x h IH]; simpl; intros Hs Hb.
  - split; [constructor | done].
  - destruct Hs as [Hx Hs]. apply Forall_cons in Hb as [Hxt Hb]. split.
    + apply Forall_app. split; [done|]. by repeat constructor.
    + by apply IH.
Qed.

Lemma Forall_tl {A} (P : A -> Prop) (l : list A) : Forall P l -> Forall P (tl l).
Proof. destruct l; simpl; [done|]. by intros [_ H]%Forall_cons. Qed.

Lemma hd_le_last h : strictly_increasing h -> h <> [] -> (hd 0 h <= List.last h 0)%Z.
Proof.
  destruct h as [|x h]; [done|]. intros Hs _. simpl hd.
  revert x Hs. induction h as [|y h IH]; intros x [Hx Hs]; [simpl; lia|].
  change (List.last (x :: y :: h) 0%Z) with (List.last (y :: h) 0%Z).
  apply Forall_cons in Hx as [Hxy Hx]. specialize (IH y Hs). lia.
Qed.

Lemma last_elem (h : list Z) : h <> [] -> List.last h 0%Z ∈ h.
Proof.
  induction h as [|x h IH]; [done|]. intros _. destruct h as [|y h].
  - simpl. apply list_elem_of_here.
  - change (List.last (x :: y :: h) 0%Z) with (List.last (y :: h) 0%Z).
    apply list_elem_of_further. by apply IH.
Qed.

(** [KDistance] of a frame the replacer knows: [INT32_MAX], or a difference
    of two time stamps that lies between 0 and the last time stamp given. *)
Lemma KDistance_known r f fi :
  LRUK.frameinfo_map_ r !! f = Some fi ->
  frame_ok (LRUK.replacer_size_ r) (LRUK.k_ r) (LRUK.ticks_ r) f fi ->
  (LRUK.KDistance r f = LRUK.INT32_MAX /\
   N.of_nat (length (LRUK.GetHistory fi)) < LRUK.k_ r) \/
  (LRUK.KDistance r f
   = (List.last (LRUK.GetHistory fi) 0 - hd 0 (LRUK.GetHistory fi))%Z /\
   LRUK.k_ r <= N.of_nat (length (LRUK.GetHistory fi)) /\
   (0 <= LRUK.KDistance r f < LRUK.ticks_ r)%Z).
Proof.
  intros Hf (_ & _ & Hne & Hs & Hb & _). unfold LRUK.KDistance. rewrite Hf.
  destruct (N.ltb_spec (N.of_nat (length (LRUK.GetHistory fi))) (LRUK.k_ r)); [by left|].
  right. split_and!; [done | done | |].
  - pose proof (hd_le_last _ Hs Hne). lia.
  - pose proof (last_elem _ Hne) as Hl.
    rewrite Forall_forall in Hb. apply Hb in Hl.
    assert (hd 0%Z (LRUK.GetHistory fi) ∈ LRUK.GetHistory fi) as Hh.
    { destruct (LRUK.GetHistory fi); [done|]. apply list_elem_of_here. }
    apply Hb in Hh. lia.
Qed.

Lemma frame_ok_ticks rs k t t' f fi :
  (t <= t')%Z -> frame_ok rs k t f fi -> frame_ok rs k t' f fi.
Proof.
  intros Ht (H1 & H2 & H3 & H4 & H5 & H6). split_and!; try done.
  eapply Forall_impl; [exact H5|]. simpl. intros. lia.
Qed.

Lemma replacer_inv_init num_frames k :
  num_frames < 2 ^ 64 - 1 -> replacer_inv (LRUK.LRUKReplacer num_frames k).
Proof.
  intros Hcap. split; simpl; try done.
  - apply NoDup_nil_2.
  - intros f. rewrite lookup_empty. split; [by intros ?%elem_of_nil | by intros [? ?]].
Qed.

Lemma replacer_inv_RecordAccess r f r' :
  replacer_inv r -> (LRUK.ticks_ r < LRUK.INT32_MAX)%Z ->
  LRUK.RecordAccess r f = Some r' -> replacer_inv r'.
Proof.
  intros [Hcap Htk Hnd Hsync Hfr Hsz] Hlt. unfold LRUK.RecordAccess.
  destruct (N.leb_spec (N.of_nat f) (LRUK.replacer_size_ r)) as [Hle|]; [|done].
  destruct (LRUK.frameinfo_map_ r !! f) as [fi|] eqn:Hf; intros [= <-].
  - split; cbn [LRUK.replacer_size_ LRUK.ticks_ LRUK.frameinfo_list_ LRUK.frameinfo_map_
                LRUK.k_ LRUK.curr_size_].
    + done.
    + lia.
    + apply NoDup_app. split_and!.
      * by apply erase_NoDup.
      * intros x Hx Hx'. apply erase_elem in Hx as [_ Hx]; [|done].
        by apply list_elem_of_singleton in Hx'.
      * apply NoDup_singleton.
    + intros x. rewrite elem_of_app, erase_elem, list_elem_of_singleton, Hsync by done.
      destruct (decide (x = f)) as [->|Hne].
      * rewrite lookup_insert_eq. split; [eauto | auto].
      * rewrite lookup_insert_ne by done. split; [by intros [[? _]|?] | auto].
    + intros x xi. destruct (decide (x = f)) as [->|Hne].
      * rewrite lookup_insert_eq. intros [= <-].
        destruct (Hfr _ _ Hf) as (H1 & H2 & H3 & H4 & H5 & H6).
        unfold frame_ok, LRUK.GetHistory in *. cbn [LRUK.frame_id_ LRUK.k_accesstime_list_].
        split_and!.
        -- done.
        -- done.
        -- by destruct (if _ =? _ then _ else _).
        -- apply strictly_increasing_snoc.
           ++ destruct (_ =? _); [by apply strictly_increasing_tl | done].
           ++ assert (Forall (fun t => 0 <= t < LRUK.ticks_ r)%Z
                 (if N.of_nat (length (LRUK.k_accesstime_list_ fi)) =? LRUK.k_ r
                  then tl (LRUK.k_accesstime_list_ fi) else LRUK.k_accesstime_list_ fi)) as Hb.
              { destruct (_ =? _); [by apply Forall_tl | done]. }
              eapply Forall_impl; [exact Hb|]. simpl. intros. lia.
        -- apply Forall_app. split.
           ++ assert (Forall (fun t => 0 <= t < LRUK.ticks_ r)%Z
                 (if N.of_nat (length (LRUK.k_accesstime_list_ fi)) =? LRUK.k_ r
                  then tl (LRUK.k_accesstime_list_ fi) else LRUK.k_accesstime_list_ fi)) as Hb.
              { destruct (_ =? _); [by apply Forall_tl | done]. }
              eapply Forall_impl; [exact Hb|]. simpl. intros. lia.
           ++ repeat constructor; lia.
        -- intros Hk. specialize (H6 Hk). rewrite length_app. simpl.
           destruct (N.eqb_spec (N.of_nat (length (LRUK.k_accesstime_list_ fi))) (LRUK.k_ r))
             as [He|Hne].
           ++ destruct (LRUK.k_accesstime_list_ fi); [done|]. simpl in *. lia.
           ++ lia.
      * rewrite lookup_insert_ne by done. intros Hx.
        eapply frame_ok_ticks; [|by apply Hfr]. lia.
    + rewrite Hsz. do 2 f_equal. apply set_eq. intros x.
      rewrite !elem_of_evictable_frames. cbn [LRUK.frameinfo_map_].
      destruct (decide (x = f)) as [->|Hne].
      * rewrite lookup_insert_eq, Hf. split; intros (xi & [= <-] & He); eauto.
      * by rewrite lookup_insert_ne.
  - assert (Hnot : f ∉ LRUK.frameinfo_list_ r).
    { rewrite Hsync, Hf. by intros [? ?]. }
    split; cbn [LRUK.replacer_size_ LRUK.ticks_ LRUK.frameinfo_list_ LRUK.frameinfo_map_
                LRUK.k_ LRUK.curr_size_].
    + done.
    + lia.
    + apply NoDup_app. split_and!; [done | | apply NoDup_singleton].
      intros x Hx Hx'. apply list_elem_of_singleton in Hx'. by subst.
    + intros x. rewrite elem_of_app, list_elem_of_singleton, Hsync.
      destruct (decide (x = f)) as [->|Hne].
      * rewrite lookup_insert_eq. split; [eauto | auto].
      * rewrite lookup_insert_ne by done. split; [by intros [?|?] | auto].
    + intros x xi. destruct (decide (x = f)) as [->|Hne].
      * rewrite lookup_insert_eq. intros [= <-].
        unfold frame_ok, LRUK.GetHistory. cbn [LRUK.frame_id_ LRUK.k_accesstime_list_].
        split_and!; [done | done | done | by split | repeat constructor; lia | simpl; lia].
      * rewrite lookup_insert_ne by done. intros Hx.
        eapply frame_ok_ticks; [|by apply Hfr]. lia.
    + rewrite Hsz. do 2 f_equal. apply set_eq. intros x.
      rewrite !elem_of_evictable_frames. cbn [LRUK.frameinfo_map_].
      destruct (decide (x = f)) as [->|Hne].
      * rewrite lookup_insert_eq, Hf. split; intros (xi & Hxi & He); by simplify_eq/=.
      * by rewrite lookup_insert_ne.
Qed.

(** Changing the evictable flag of a known frame. *)
Lemma evictable_frames_flag r f fi (b : bool) m' :
  LRUK.frameinfo_map_ r !! f = Some fi ->
  m' = <[f := LRUK.BuildInfo (LRUK.frame_id_ fi) b (LRUK.GetHistory fi)]> (LRUK.frameinfo_map_ r) ->
  forall r', LRUK.frameinfo_map_ r' = m' ->
  evictable_frames r' =
    if b then evictable_frames r ∪ {[f]} else evictable_frames r ∖ {[f]}.
Proof.
  intros Hf -> r' Hr'. apply set_eq. intros x.
  assert (Hx : x ∈ evictable_frames r' <->
               if decide (x = f) then b = true else x ∈ evictable_frames r).
  { rewrite !elem_of_evictable_frames, Hr'. case_decide as Hd.
    - subst x. rewrite lookup_insert_eq. split; [by intros (? & [= <-] & ?) | eauto].
    - rewrite lookup_insert_ne by done. by rewrite elem_of_evictable_frames. }
  rewrite Hx. destruct b.
  - rewrite elem_of_union, elem_of_singleton. case_decide; split; auto. by intros [?|?].
  - rewrite elem_of_difference, elem_of_singleton. case_decide; split; try done; tauto.
Qed.

Lemma replacer_inv_SetEvictable r f b r' :
  replacer_inv r -> LRUK.SetEvictable r f b = Some r' -> replacer_inv r'.
Proof.
  intros [Hcap Htk Hnd Hsync Hfr Hsz]. unfold LRUK.SetEvictable.
  destruct (N.leb_spec (N.of_nat f) (LRUK.replacer_size_ r)) as [Hle|]; [|done].
  destruct (LRUK.frameinfo_map_ r !! f) as [fi|] eqn:Hf; [|done].
  assert (Hstruct : forall c,
    let r1 := LRUK.Build c (LRUK.replacer_size_ r) (LRUK.k_ r)
                (<[f := LRUK.BuildInfo (LRUK.frame_id_ fi) b (LRUK.GetHistory fi)]>
                   (LRUK.frameinfo_map_ r))
                (LRUK.frameinfo_list_ r) (LRUK.ticks_ r) in
    c = N.of_nat (size (evictable_frames r1)) -> replacer_inv r1).
  { intros c r1 Hc. subst r1.
    split; cbn [LRUK.replacer_size_ LRUK.ticks_ LRUK.frameinfo_list_ LRUK.frameinfo_map_
                LRUK.k_ LRUK.curr_size_]; try done.
    - intros x. rewrite Hsync. destruct (decide (x = f)) as [->|Hne].
      + rewrite lookup_insert_eq, Hf. split; eauto.
      + by rewrite lookup_insert_ne.
    - intros x xi. destruct (decide (x = f)) as [->|Hne].
      + rewrite lookup_insert_eq. intros [= <-]. exact (Hfr _ _ Hf).
      + rewrite lookup_insert_ne by done. apply Hfr. }
  assert (Hbound : forall X : gset nat,
            X ⊆ dom (LRUK.frameinfo_map_ r) -> N.of_nat (size X) < 2 ^ 64).
  { intros X HX.
    pose proof (tracked_frames_bound (LRUK.frameinfo_map_ r) (LRUK.replacer_size_ r) X) as Hb.
    assert (N.of_nat (size X) <= LRUK.replacer_size_ r + 1); [|lia].
    apply Hb; [|done]. intros x xi Hx. by destruct (Hfr _ _ Hx) as (_ & ? & _). }
  destruct (LRUK.evictable_ fi) eqn:He, b; simpl; intros [= <-].
  - by split.
  - apply Hstruct.
    rewrite (evictable_frames_flag r f fi false _ Hf eq_refl) by done.
    assert (Hin : f ∈ evictable_frames r) by (apply elem_of_evictable_frames; eauto).
    rewrite size_difference by (by apply singleton_subseteq_l).
    rewrite size_singleton.
    assert (size (evictable_frames r) ≠ 0%nat).
    { intros H0. apply size_empty_inv in H0. apply H0 in Hin. by apply elem_of_empty in Hin. }
    rewrite size_dec_pred; [lia|]. rewrite Hsz. split; [lia|].
    apply Hbound, evictable_frames_dom.
  - apply Hstruct.
    rewrite (evictable_frames_flag r f fi true _ Hf eq_refl) by done.
    assert (Hout : f ∉ evictable_frames r).
    { rewrite elem_of_evictable_frames. intros (xi & Hxi & Hxe). congruence. }
    assert (Hdis : evictable_frames r ## ({[f]} : gset nat)).
    { intros x Hx Hx'. apply elem_of_singleton in Hx'. by subst. }
    pose proof (Hbound (evictable_frames r ∪ {[f]})) as Hb.
    rewrite size_union, size_singleton in * by done.
    rewrite size_inc_succ; [lia|]. rewrite Hsz.
    assert (N.of_nat (size (evictable_frames r) + 1) < 2 ^ 64); [|lia].
    apply Hb. intros x [Hx| ->%elem_of_singleton]%elem_of_union.
    + by apply evictable_frames_dom.
    + apply elem_of_dom. eauto.
  - by split.
Qed.

(** Dropping the record of an evictable frame, as [Evict] and [Remove] do. *)
Lemma replacer_inv_drop r f fi :
  replacer_inv r -> LRUK.frameinfo_map_ r !! f = Some fi -> LRUK.evictable_ fi = true ->
  replacer_inv (LRUK.Build (LRUK.size_dec (LRUK.curr_size_ r)) (LRUK.replacer_size_ r)
                  (LRUK.k_ r) (delete f (LRUK.frameinfo_map_ r))
                  (LRUK.erase f (LRUK.frameinfo_list_ r)) (LRUK.ticks_ r)) /\
  LRUK.size_dec (LRUK.curr_size_ r) + 1 = LRUK.curr_size_ r.
Proof.
  intros [Hcap Htk Hnd Hsync Hfr Hsz] Hf He.
  assert (Hin : f ∈ evictable_frames r) by (apply elem_of_evictable_frames; eauto).
  assert (Hpos : size (evictable_frames r) ≠ 0%nat).
  { intros H0. apply size_empty_inv in H0. apply H0 in Hin. by apply elem_of_empty in Hin. }
  assert (Hlt : N.of_nat (size (evictable_frames r)) < 2 ^ 64).
  { pose proof (tracked_frames_bound (LRUK.frameinfo_map_ r) (LRUK.replacer_size_ r)
                  (evictable_frames r)) as Hb.
    assert (N.of_nat (size (evictable_frames r)) <= LRUK.replacer_size_ r + 1); [|lia].
    apply Hb; [|apply evictable_frames_dom].
    intros x xi Hx. by destruct (Hfr _ _ Hx) as (_ & ? & _). }
  assert (Hdec : LRUK.size_dec (LRUK.curr_size_ r) = LRUK.curr_size_ r - 1).
  { apply size_dec_pred. rewrite Hsz. lia. }
  split; [|rewrite Hdec, Hsz; lia].
  split; cbn [LRUK.replacer_size_ LRUK.ticks_ LRUK.frameinfo_list_ LRUK.frameinfo_map_
              LRUK.k_ LRUK.curr_size_]; try done.
  - by apply erase_NoDup.
  - intros x. rewrite erase_elem, Hsync by done. destruct (decide (x = f)) as [->|Hne].
    + rewrite lookup_delete_eq. split; [by intros [_ ?] | by intros [? ?]].
    + rewrite lookup_delete_ne by done. tauto.
  - intros x xi Hx. apply lookup_delete_Some in Hx as [_ Hx]. by apply Hfr.
  - assert (Hset : evictable_frames
        (LRUK.Build (LRUK.size_dec (LRUK.curr_size_ r)) (LRUK.replacer_size_ r)
           (LRUK.k_ r) (delete f (LRUK.frameinfo_map_ r))
           (LRUK.erase f (LRUK.frameinfo_list_ r)) (LRUK.ticks_ r))
        = evictable_frames r ∖ {[f]}).
    { apply set_eq. intros x.
      rewrite elem_of_difference, elem_of_singleton, !elem_of_evictable_frames.
      cbn [LRUK.frameinfo_map_]. split.
      - intros (xi & [Hne Hx]%lookup_delete_Some & Hxe). split; [eauto | done].
      - intros [(xi & Hx & Hxe) Hne]. exists xi. split; [|done].
        apply lookup_delete_Some. auto. }
    rewrite Hset, size_difference by (by apply singleton_subseteq_l).
    rewrite size_singleton, Hdec, Hsz. lia.
Qed.

Lemma replacer_inv_Remove r f r' :
  replacer_inv r -> LRUK.Remove r f = Some r' -> replacer_inv r'.
Proof.
  intros Hinv. unfold LRUK.Remove.
  destruct (N.of_nat f <=? LRUK.replacer_size_ r); [|done].
  destruct (LRUK.frameinfo_map_ r !! f) as [fi|] eqn:Hf; [|by intros [= <-]].
  destruct (LRUK.evictable_ fi) eqn:He; [|done]. intros [= <-].
  by apply (replacer_inv_drop r f fi).
Qed.

Lemma victim_before_trans r a b c :
  victim_before r a b -> victim_before r b c -> victim_before r a c.
Proof. unfold victim_before. lia. Qed.

(** The loop of [Evict] over a list of known frames: it ends without a
    candidate exactly when no frame of the list is evictable, and otherwise
    with an evictable frame of the list that goes before all the others. *)
Lemma Evict_loop r l :
  (forall f, f ∈ l -> exists fi, LRUK.frameinfo_map_ r !! f = Some fi /\
                      LRUK.frame_id_ fi = f /\ LRUK.KDistance r f <> (-1)%Z) ->
  match (foldl (LRUK.Evict_round r) (None, 0%Z) l).1 with
  | None => forall f fi, f ∈ l -> LRUK.frameinfo_map_ r !! f = Some fi ->
              LRUK.evictable_ fi = false
  | Some ev =>
      (foldl (LRUK.Evict_round r) (None, 0%Z) l).2 = LRUK.KDistance r (LRUK.frame_id_ ev) /\
      LRUK.frame_id_ ev ∈ l /\
      LRUK.frameinfo_map_ r !! LRUK.frame_id_ ev = Some ev /\
      LRUK.evictable_ ev = true /\
      forall f fi, f ∈ l -> LRUK.frameinfo_map_ r !! f = Some fi ->
        LRUK.evictable_ fi = true -> victim_before r ev fi
  end.
Proof.
  induction l as [|x l IH] using rev_ind; intros Hl.
  - simpl. by intros f fi ?%elem_of_nil.
  - rewrite foldl_app. simpl.
    assert (Hl' : forall f, f ∈ l -> exists fi, LRUK.frameinfo_map_ r !! f = Some fi /\
                      LRUK.frame_id_ fi = f /\ LRUK.KDistance r f <> (-1)%Z).
    { intros f Hf. apply Hl, elem_of_app. by left. }
    specialize (IH Hl').
    destruct (Hl x) as (xi & Hx & Hid & Hkd); [apply elem_of_app; right; apply list_elem_of_here|].
    destruct (foldl (LRUK.Evict_round r) (None, 0%Z) l) as [acc kd] eqn:Hfold.
    unfold LRUK.Evict_round. rewrite Hx. cbn [fst snd] in *.
    destruct (LRUK.evictable_ xi) eqn:He; cbn [negb].
    2:{ destruct acc as [ev|].
        - destruct IH as (H1 & H2 & H3 & H4 & H5). split_and!; try done.
          + apply elem_of_app. by left.
          + intros f fi [Hf|Hf%list_elem_of_singleton]%elem_of_app Hfi Hfe; [by eapply H5|].
            subst f. congruence.
        - intros f fi [Hf|Hf%list_elem_of_singleton]%elem_of_app Hfi; [by eapply IH|].
          subst f. congruence. }
    rewrite Hid. destruct (Z.eqb_spec (LRUK.KDistance r x) (-1)) as [|_]; [done|].
    destruct acc as [ev|]; cbn [fst snd].
    + destruct IH as (H1 & H2 & H3 & H4 & H5).
      destruct ((LRUK.KDistance r x >? kd)%Z ||
                (LRUK.KDistance r x =? kd)%Z &&
                (hd 0%Z (LRUK.GetHistory xi) <? hd 0%Z (LRUK.GetHistory ev))%Z) eqn:Hcmp;
        cbn [fst snd].
      * assert (Hbef : victim_before r xi ev).
        { unfold victim_before. rewrite Hid, <- H1.
          apply orb_true_iff in Hcmp as [Hc|[Hc1 Hc2]%andb_true_iff]; lia. }
        split_and!; try done.
        -- by rewrite Hid.
        -- rewrite Hid. apply elem_of_app. right. apply list_elem_of_here.
        -- by rewrite Hid.
        -- intros f fi [Hf|Hf%list_elem_of_singleton]%elem_of_app Hfi Hfe.
           ++ eapply victim_before_trans; [exact Hbef|]. by eapply H5.
           ++ subst f. assert (fi = xi) as -> by congruence. right. split; [done|lia].
      * assert (Hbef : victim_before r ev xi).
        { unfold victim_before. rewrite Hid, <- H1.
          apply orb_false_iff in Hcmp as [Hc Hc']. apply andb_false_iff in Hc'.
          destruct Hc'; lia. }
        split_and!; try done.
        -- apply elem_of_app. by left.
        -- intros f fi [Hf|Hf%list_elem_of_singleton]%elem_of_app Hfi Hfe; [by eapply H5|].
           subst f. by assert (fi = xi) as -> by congruence.
    + split_and!; try done.
      * by rewrite Hid.
      * rewrite Hid. apply elem_of_app. right. apply list_elem_of_here.
      * by rewrite Hid.
      * intros f fi [Hf|Hf%list_elem_of_singleton]%elem_of_app Hfi Hfe.
        -- by rewrite (IH f fi Hf Hfi) in Hfe.
        -- subst f. assert (fi = xi) as -> by congruence. right. split; [done|lia].
Qed.

(** What [Evict] does on a replacer that meets the invariant. *)
Lemma Evict_cases r :
  replacer_inv r ->
  (evictable_frames r = ∅ /\ LRUK.Evict r = Some (None, r)) \/
  exists ev,
    LRUK.frameinfo_map_ r !! LRUK.frame_id_ ev = Some ev /\
    LRUK.evictable_ ev = true /\
    (forall f fi, LRUK.frameinfo_map_ r !! f = Some fi -> LRUK.evictable_ fi = true ->
       victim_before r ev fi) /\
    LRUK.Evict r =
      Some (Some (LRUK.frame_id_ ev),
            LRUK.Build (LRUK.size_dec (LRUK.curr_size_ r)) (LRUK.replacer_size_ r)
              (LRUK.k_ r) (delete (LRUK.frame_id_ ev) (LRUK.frameinfo_map_ r))
              (LRUK.erase (LRUK.frame_id_ ev) (LRUK.frameinfo_list_ r)) (LRUK.ticks_ r)).
Proof.
  intros Hinv. pose proof Hinv as [Hcap Htk Hnd Hsync Hfr Hsz]. unfold LRUK.Evict.
  destruct (N.eqb_spec (LRUK.curr_size_ r) 0) as [H0|H0].
  { left. split; [|done]. apply leibniz_equiv, size_empty_iff. lia. }
  right.
  assert (Hl : forall f, f ∈ LRUK.frameinfo_list_ r ->
             exists fi, LRUK.frameinfo_map_ r !! f = Some fi /\
                        LRUK.frame_id_ fi = f /\ LRUK.KDistance r f <> (-1)%Z).
  { intros f [fi Hfi]%Hsync. exists fi. pose proof (Hfr _ _ Hfi) as Hok.
    split_and!; [done | by destruct Hok |].
    destruct (KDistance_known r f fi Hfi Hok) as [[-> _]|(_ & _ & Hk)]; [done | lia]. }
  pose proof (Evict_loop r (LRUK.frameinfo_list_ r) Hl) as Hloop.
  destruct (foldl _ _ _).1 as [ev|].
  - destruct Hloop as (_ & Hin & Hev & Hee & Hbest). exists ev. split_and!; try done.
    intros f fi Hfi Hfe. apply (Hbest f fi); [|done|done]. apply Hsync. eauto.
  - exfalso. apply H0. rewrite Hsz.
    assert (evictable_frames r = ∅) as ->; [|done].
    apply set_eq. intros f. rewrite elem_of_evictable_frames. split; [|by intros ?%elem_of_empty].
    intros (fi & Hfi & Hfe). rewrite (Hloop f fi) in Hfe; [done| |done]. apply Hsync. eauto.
Qed.

Lemma replacer_inv_Evict r o r' :
  replacer_inv r -> LRUK.Evict r = Some (o, r') -> replacer_inv r'.
Proof.
  intros Hinv. destruct (Evict_cases r Hinv) as [[_ ->]|(ev & Hev & Hee & _ & ->)].
  - by intros [= <- <-].
  - intros [= <- <-]. by apply (replacer_inv_drop r _ ev).
Qed.

Lemma replacer_reachable_inv num_frames k r :
  num_frames < 2 ^ 64 - 1 -> replacer_reachable num_frames k r ->
  replacer_inv r /\ LRUK.k_ r = k /\ LRUK.replacer_size_ r = num_frames.
Proof.
  intros Hcap Hreach.
  induction Hreach as [|r f r' Hr IH Hlt Hop|r f b r' Hr IH Hop|r o r' Hr IH Hop|r f r' Hr IH Hop].
  - split; [by apply replacer_inv_init | done].
  - destruct IH as (Hinv & Hk & Hn). split; [by eapply replacer_inv_RecordAccess|].
    revert Hop. unfold LRUK.RecordAccess. destruct (_ <=? _); [|done].
    destruct (_ !! _); by intros [= <-].
  - destruct IH as (Hinv & Hk & Hn). split; [by eapply replacer_inv_SetEvictable|].
    revert Hop. unfold LRUK.SetEvictable. destruct (_ <=? _); [|done].
    destruct (_ !! _) as [fi|]; [|done].
    destruct (_ && _); [by intros [= <-]|]. destruct (_ && _); by intros [= <-].
  - destruct IH as (Hinv & Hk & Hn). split; [by eapply replacer_inv_Evict|].
    destruct (Evict_cases r Hinv) as [[_ He]|(ev & _ & _ & _ & He)];
      rewrite He in Hop; by injection Hop as <- <-.
  - destruct IH as (Hinv & Hk & Hn). split; [by eapply replacer_inv_Remove|].
    revert Hop. unfold LRUK.Remove. destruct (_ <=? _); [|done].
    destruct (_ !! _) as [fi|]; [|by intros [= <-]].
    destruct (LRUK.evictable_ fi); [|done]. by intros [= <-].
Qed.

Lemma lru_5_reachable : replacer_reachable 7 2 lru_5.
Proof.
  apply (replacer_SetEvictable 7 2 lru_4 1 true); [|reflexivity].
  apply (replacer_SetEvictable 7 2 lru_3 0 true); [|reflexivity].
  apply (replacer_RecordAccess 7 2 lru_2 1); [|reflexivity..].
  apply (replacer_RecordAccess 7 2 lru_1 1); [|reflexivity..].
  apply (replacer_RecordAccess 7 2 (LRUK.LRUKReplacer 7 2) 0); [|reflexivity..].
  apply replacer_init.
Defined.

(** X8.  [Size] is the number of frames the replacer holds with the
    evictable flag set, after any sequence of calls that return: the
    [size_t] counter [curr_size_] is never decremented at 0 and never wraps
    around.  The replacer is built for fewer than 2^64 - 1 frames. *)
Theorem Size_counts_evictable_frames (num_frames k : N) (r : LRUK.t) :
  num_frames < 2 ^ 64 - 1 -> replacer_reachable num_frames k r ->
  LRUK.Size r = N.of_nat (size (evictable_frames r)).
Proof.
  intros Hcap Hreach.
  destruct (replacer_reachable_inv num_frames k r Hcap Hreach) as [Hinv _].
  exact (ri_size r Hinv).
Qed.

Lemma Size_counts_evictable_frames_witness :
  LRUK.Size lru_5 = N.of_nat (size (evictable_frames lru_5)).
Proof.
  apply (Size_counts_evictable_frames 7 2 lru_5); [reflexivity | exact lru_5_reachable].
Defined.

(** X9.  On such a replacer [Evict] never dereferences [end()].  When no
    frame is evictable it returns false and changes nothing; otherwise it
    returns a frame that was evictable, erases the record of that frame and
    of no other, and [Size] goes down by one. *)
Theorem Evict_outcome (num_frames k : N) (r : LRUK.t) :
  num_frames < 2 ^ 64 - 1 -> replacer_reachable num_frames k r ->
  (evictable_frames r = ∅ /\ LRUK.Evict r = Some (None, r)) \/
  exists f r',
    LRUK.Evict r = Some (Some f, r') /\
    f ∈ evictable_frames r /\
    LRUK.frameinfo_map_ r' = delete f (LRUK.frameinfo_map_ r) /\
    evictable_frames r' = evictable_frames r ∖ {[f]} /\
    LRUK.Size r' + 1 = LRUK.Size r.
Proof.
  intros Hcap Hreach.
  destruct (replacer_reachable_inv num_frames k r Hcap Hreach) as [Hinv _].
  destruct (Evict_cases r Hinv) as [?|(ev & Hev & Hee & _ & Hres)]; [by left|].
  right. eexists _, _. split; [exact Hres|].
  destruct (replacer_inv_drop r _ ev Hinv Hev Hee) as [_ Hsz].
  split_and!; [apply elem_of_evictable_frames; eauto | done | | exact Hsz].
  apply set_eq. intros x.
  rewrite elem_of_difference, elem_of_singleton, !elem_of_evictable_frames.
  cbn [LRUK.frameinfo_map_]. split.
  - intros (xi & [Hne Hx]%lookup_delete_Some & Hxe). split; [eauto | done].
  - intros [(xi & Hx & Hxe) Hne]. exists xi. split; [|done].
    apply lookup_delete_Some. auto.
Qed.

Lemma Evict_outcome_witness :
  (evictable_frames lru_5 = ∅ /\ LRUK.Evict lru_5 = Some (None, lru_5)) \/
  exists f r',
    LRUK.Evict lru_5 = Some (Some f, r') /\
    f ∈ evictable_frames lru_5 /\
    LRUK.frameinfo_map_ r' = delete f (LRUK.frameinfo_map_ lru_5) /\
    evictable_frames r' = evictable_frames lru_5 ∖ {[f]} /\
    LRUK.Size r' + 1 = LRUK.Size lru_5.
Proof.
  apply (Evict_outcome 7 2 lru_5); [reflexivity | exact lru_5_reachable].
Defined.

(** X10.  The victim of [Evict] on such a replacer.  If it has fewer than
    [k] accesses recorded, no evictable frame with fewer than [k] accesses
    has an earlier first time stamp.  If it has [k] accesses recorded, so
    has every evictable frame, and none has a larger difference between its
    newest and its oldest time stamp kept, nor the same difference with an
    earlier oldest time stamp. *)
Theorem Evict_victim (num_frames k : N) (r : LRUK.t) (f : nat) (r' : LRUK.t) :
  num_frames < 2 ^ 64 - 1 -> replacer_reachable num_frames k r ->
  LRUK.Evict r = Some (Some f, r') ->
  exists fi, LRUK.frameinfo_map_ r !! f = Some fi /\ LRUK.evictable_ fi = true /\
    forall g gi, LRUK.frameinfo_map_ r !! g = Some gi -> LRUK.evictable_ gi = true ->
      (short_history k fi /\ (short_history k gi -> (first_kept fi <= first_kept gi)%Z)) \/
      (~ short_history k fi /\ ~ short_history k gi /\
       ((history_span gi < history_span fi)%Z \/
        (history_span gi = history_span fi /\ (first_kept fi <= first_kept gi)%Z))).
Proof.
  intros Hcap Hreach Hev.
  destruct (replacer_reachable_inv num_frames k r Hcap Hreach) as (Hinv & Hk & _).
  destruct (Evict_cases r Hinv) as [[_ He]|(ev & Hmap & Hee & Hbest & He)];
    rewrite He in Hev; [done|]. injection Hev as <- <-.
  exists ev. split_and!; [done..|]. intros g gi Hg Hge.
  pose proof (ri_frames r Hinv) as Hfr. pose proof (ri_ticks r Hinv) as Htk.
  pose proof (Hfr _ _ Hmap) as Hokf. pose proof (Hfr _ _ Hg) as Hokg.
  specialize (Hbest g gi Hg Hge). unfold victim_before in Hbest.
  assert (Hgid : LRUK.frame_id_ gi = g) by (by destruct Hokg).
  rewrite Hgid in Hbest.
  unfold short_history, history_span, first_kept. rewrite <- Hk.
  destruct (KDistance_known r _ ev Hmap Hokf) as [[Hkf Hsf]|(Hkf & Hsf & Hrf)];
    destruct (KDistance_known r g gi Hg Hokg) as [[Hkg Hsg]|(Hkg & Hsg & Hrg)].
  - left. split; [done|]. intros _. lia.
  - left. split; [done|]. intros ?. lia.
  - exfalso. lia.
  - right. split_and!; [lia | lia |]. rewrite <- Hkf, <- Hkg. lia.
Qed.

Lemma Evict_victim_witness :
  exists fi, LRUK.frameinfo_map_ lru_5 !! 0%nat = Some fi /\ LRUK.evictable_ fi = true /\
    forall g gi, LRUK.frameinfo_map_ lru_5 !! g = Some gi -> LRUK.evictable_ gi = true ->
      (short_history 2 fi /\ (short_history 2 gi -> (first_kept fi <= first_kept gi)%Z)) \/
      (~ short_history 2 fi /\ ~ short_history 2 gi /\
       ((history_span gi < history_span fi)%Z \/
        (history_span gi = history_span fi /\ (first_kept fi <= first_kept gi)%Z))).
Proof.
  apply (Evict_victim 7 2 lru_5 0 lru_6); [reflexivity | exact lru_5_reachable | reflexivity].
Defined.

Lemma replacer_run_reachable num_frames k log r :
  replacer_run num_frames k log r -> replacer_reachable num_frames k r.
Proof.
  induction 1 as [|log r f r' _ IH Hlt Hop|log r f b r' _ IH Hop|log r o r' _ IH Hop
                  |log r f r' _ IH Hop].
  - apply replacer_init.
  - by eapply replacer_RecordAccess.
  - by eapply replacer_SetEvictable.
  - by eapply replacer_Evict.
  - by eapply replacer_Remove.
Qed.

Lemma tl_drop {A} (l : list A) : tl l = drop 1 l.
Proof. by destruct l. Qed.

(** What [RecordAccess] does to the history kept, on the log. *)
Lemma last_accesses_snoc (k : N) (L : list Z) (t : Z) :
  L <> [] ->
  (if N.of_nat (length (last_accesses k L)) =? k
   then tl (last_accesses k L) else last_accesses k L) ++ [t]
  = last_accesses k (L ++ [t]).
Proof.
  intros HL. unfold last_accesses. destruct (N.eqb_spec k 0) as [->|Hk].
  - destruct (N.eqb_spec (N.of_nat (length L)) 0) as [H0|_]; [|done].
    destruct L; [done | simpl in H0; lia].
  - rewrite length_drop, length_app. simpl.
    destruct (N.eqb_spec (N.of_nat (length L - (length L - N.to_nat k))) k) as [He|Hne].
    + assert (Hle : (N.to_nat k <= length L)%nat) by lia.
      rewrite tl_drop, drop_drop, drop_app_le by lia.
      do 2 f_equal. lia.
    + assert (Hlt : (length L < N.to_nat k)%nat) by lia.
      replace (length L - N.to_nat k)%nat with 0%nat by lia.
      replace (length L + 1 - N.to_nat k)%nat with 0%nat by lia. done.
Qed.

Lemma last_accesses_one (k : N) (t : Z) : last_accesses k [t] = [t].
Proof.
  unfold last_accesses. destruct (N.eqb_spec k 0); [done|]. simpl.
  by replace (1 - N.to_nat k)%nat with 0%nat by lia.
Qed.

(** The history kept is the end of the log. *)
Lemma replacer_run_log num_frames k log r :
  num_frames < 2 ^ 64 - 1 -> replacer_run num_frames k log r ->
  forall f, match LRUK.frameinfo_map_ r !! f with
            | Some fi => LRUK.GetHistory fi = last_accesses k (log f) /\ log f <> []
            | None => log f = []
            end.
Proof.
  intros Hcap Hrun.
  induction Hrun as [|log r f r' Hr IH Hlt Hop|log r f b r' Hr IH Hop|log r o r' Hr IH Hop
                     |log r f r' Hr IH Hop]; intros g.
  - simpl. by rewrite lookup_empty.
  - destruct (replacer_reachable_inv num_frames k r Hcap (replacer_run_reachable _ _ _ _ Hr))
      as (_ & Hk & _).
    specialize (IH g). revert Hop. unfold LRUK.RecordAccess, log_access.
    destruct (_ <=? _); [|done].
    destruct (LRUK.frameinfo_map_ r !! f) as [fi|] eqn:Hf; intros [= <-]; simpl;
      (destruct (decide (g = f)) as [->|Hne];
        [rewrite lookup_insert_eq, Hf in * | by rewrite lookup_insert_ne]).
    + destruct IH as [IH HL]. unfold LRUK.GetHistory in *. simpl. split.
      * rewrite IH, Hk. by apply last_accesses_snoc.
      * by destruct (log f).
    + rewrite IH. simpl. unfold LRUK.GetHistory. simpl. by rewrite last_accesses_one.
  - specialize (IH g). revert Hop. unfold LRUK.SetEvictable. destruct (_ <=? _); [|done].
    destruct (LRUK.frameinfo_map_ r !! f) as [fi|] eqn:Hf; [|done].
    destruct (_ && _); [|destruct (_ && _)]; intros [= <-]; simpl; try done;
      (destruct (decide (g = f)) as [->|Hne];
        [rewrite lookup_insert_eq; by rewrite Hf in IH | by rewrite lookup_insert_ne]).
  - destruct (replacer_reachable_inv num_frames k r Hcap (replacer_run_reachable _ _ _ _ Hr))
      as (Hinv & _).
    specialize (IH g).
    destruct (Evict_cases r Hinv) as [[_ He]|(ev & _ & _ & _ & He)];
      rewrite He in Hop; injection Hop as <- <-; simpl; [done|].
    unfold log_forget. destruct (decide (g = LRUK.frame_id_ ev)) as [->|Hne].
    + by rewrite lookup_delete_eq.
    + by rewrite lookup_delete_ne.
  - specialize (IH g). pose proof (IH) as IHg. revert Hop. unfold LRUK.Remove, log_forget.
    destruct (_ <=? _); [|done].
    destruct (LRUK.frameinfo_map_ r !! f) as [fi|] eqn:Hf.
    + destruct (LRUK.evictable_ fi); [|done]. intros [= <-]. simpl.
      destruct (decide (g = f)) as [->|Hne].
      * by rewrite lookup_delete_eq.
      * by rewrite lookup_delete_ne.
    + intros [= <-]. destruct (decide (g = f)) as [->|Hne]; [by rewrite Hf|done].
Qed.

(** X11.  On such a replacer the history kept for a frame is the last [k]
    time stamps of the accesses recorded for the frame since it entered the
    replacer, all of them while there are fewer than [k] (and always when
    [k] is 0): what [RecordAccess] drops before it adds the [k+1]-th time
    stamp is the oldest one.  The history is never empty, strictly
    increasing, made of time stamps the clock has already given out, and of
    at most [k] of them when [k] is at least 1. *)
Theorem history_kept (num_frames k : N) (log : nat -> list Z) (r : LRUK.t) (f : nat)
    (fi : LRUK.FrameInfo) :
  num_frames < 2 ^ 64 - 1 -> replacer_run num_frames k log r ->
  LRUK.frameinfo_map_ r !! f = Some fi ->
  LRUK.GetHistory fi = last_accesses k (log f) /\
  log f <> [] /\
  LRUK.GetHistory fi <> [] /\
  strictly_increasing (LRUK.GetHistory fi) /\
  Forall (fun t => 0 <= t < LRUK.ticks_ r)%Z (LRUK.GetHistory fi) /\
  (1 <= k -> N.of_nat (length (LRUK.GetHistory fi)) <= k).
Proof.
  intros Hcap Hrun Hf.
  pose proof (replacer_run_log num_frames k log r Hcap Hrun f) as Hlog. rewrite Hf in Hlog.
  destruct Hlog as [Hkept Hne].
  destruct (replacer_reachable_inv num_frames k r Hcap (replacer_run_reachable _ _ _ _ Hrun))
    as (Hinv & Hk & _).
  destruct (ri_frames r Hinv f fi Hf) as (_ & _ & H1 & H2 & H3 & H4).
  rewrite Hk in H4. done.
Qed.

Lemma lru_7_run : replacer_run 7 2 lru_log lru_7.
Proof.
  apply (run_RecordAccess 7 2 _ lru_5 1); [|reflexivity..].
  apply (run_SetEvictable 7 2 _ lru_4 1 true); [|reflexivity].
  apply (run_SetEvictable 7 2 _ lru_3 0 true); [|reflexivity].
  apply (run_RecordAccess 7 2 _ lru_2 1); [|reflexivity..].
  apply (run_RecordAccess 7 2 _ lru_1 1); [|reflexivity..].
  apply (run_RecordAccess 7 2 _ (LRUK.LRUKReplacer 7 2) 0); [|reflexivity..].
  apply run_init.
Defined.

(** Frame 1 was accessed at times 1, 2 and 3; with [k = 2] the history kept
    is [2; 3]. *)
Lemma history_kept_witness :
  LRUK.GetHistory (LRUK.BuildInfo 1 true [2; 3]%Z) = last_accesses 2 (lru_log 1%nat) /\
  lru_log 1%nat <> [] /\
  LRUK.GetHistory (LRUK.BuildInfo 1 true [2; 3]%Z) <> [] /\
  strictly_increasing (LRUK.GetHistory (LRUK.BuildInfo 1 true [2; 3]%Z)) /\
  Forall (fun t => 0 <= t < LRUK.ticks_ lru_7)%Z
    (LRUK.GetHistory (LRUK.BuildInfo 1 true [2; 3]%Z)) /\
  (1 <= 2 -> N.of_nat (length (LRUK.GetHistory (LRUK.BuildInfo 1 true [2; 3]%Z))) <= 2).
Proof.
  apply (history_kept 7 2 lru_log lru_7 1);
    [reflexivity | exact lru_7_run | reflexivity].
Defined.

(** ** The pool: what each call changes *)

Section PoolFootprint.
Variable BUSTUB_PAGE_SIZE : nat.
Variable hash : Z -> N.

Lemma BPM_eta (s : BPM.t) :
  s = BPM.Build (BPM.pool_size_ s) (BPM.pages_ s) (BPM.page_table_ s) (BPM.replacer_ s)
        (BPM.free_list_ s) (BPM.next_page_id_ s) (BPM.disk_manager_ s).
Proof. by destruct s. Qed.

Local Opaque EHT.Remove EHT.Insert EHT.Find.

Ltac pool_simpl :=
  unfold Page.IsDirty, Page.GetPageId, Page.GetData, Page.GetPinCount,
    Page.set_data, Page.set_page_id, Page.set_pin_count, Page.set_is_dirty,
    Page.ResetMemory in *;
  cbn [BPM.pool_size_ BPM.pages_ BPM.page_table_ BPM.replacer_ BPM.free_list_
       BPM.next_page_id_ BPM.disk_manager_ BPM.set_pages BPM.set_page_table
       BPM.set_replacer BPM.set_free_list BPM.set_next_page_id BPM.set_disk
       BPM.set_page BPM.AllocatePage BPM.DeallocatePage fst snd
       Page.data_ Page.page_id_ Page.pin_count_ Page.is_dirty_
       Page.set_data Page.set_page_id Page.set_pin_count Page.set_is_dirty
       Page.ResetMemory Page.GetData Page.GetPageId Page.GetPinCount Page.IsDirty
       DiskManager.WritePage] in *.

Ltac record_eq :=
  match goal with
  | |- context [?x = BPM.Build _ _ _ _ _ _ _] => rewrite (BPM_eta x); pool_simpl
  end.

Ltac step H x E :=
  match type of H with
  | mbind _ ?X = Some _ =>
      destruct X as [x|] eqn:E;
      [cbn [mbind option_bind] in H; cbv beta zeta in H; pool_simpl | discriminate H]
  end.

Lemma table_insert_Some fuel page_id frame_id s s0 :
  BPM.table_insert hash fuel page_id frame_id s = Some s0 ->
  exists tb', EHT.Insert hash fuel (BPM.page_table_ s) page_id frame_id = EHT.Done tb' /\
              s0 = BPM.set_page_table tb' s.
Proof.
  unfold BPM.table_insert.
  destruct (EHT.Insert hash fuel (BPM.page_table_ s) page_id frame_id) as [tb'| |]; [|done..].
  intros [= <-]. eauto.
Qed.

(** Steps 2 to 6 of [NewPgImp]. *)
Lemma NewPg_install_spec fuel f s res s' :
  NewPg_install BUSTUB_PAGE_SIZE hash fuel f s = Some (res, s') ->
  exists pg tb' r1 r2,
    BPM.pages_ s !! f = Some pg /\
    EHT.Insert hash fuel (EHT.Remove hash (BPM.page_table_ s) (Page.page_id_ pg)).2
      (BPM.next_page_id_ s) f = EHT.Done tb' /\
    LRUK.RecordAccess (BPM.replacer_ s) f = Some r1 /\
    LRUK.SetEvictable r1 f false = Some r2 /\
    res = Some (BPM.next_page_id_ s, f) /\
    s' = BPM.Build (BPM.pool_size_ s)
           (<[f := Page.Build (Page.zeroed BUSTUB_PAGE_SIZE) (BPM.next_page_id_ s) 1 false]>
              (BPM.pages_ s))
           tb' r2 (BPM.free_list_ s) (BPM.page_id_wrap (BPM.next_page_id_ s + 1))
           (disk_after_write_back pg (BPM.disk_manager_ s)).
Proof.
  destruct s as [ps pages tb r fl np d]. unfold NewPg_install, disk_after_write_back.
  intros H. pool_simpl. step H pg Epg.
  assert (Hlt : (f < length pages)%nat) by (by eapply lookup_lt_Some).
  unfold BPM.write_back in H. pool_simpl.
  destruct (Page.is_dirty_ pg) eqn:Hd; pool_simpl.
  - rewrite list_lookup_insert_eq in H by done.
    cbn [mbind option_bind] in H. cbv beta zeta in H. pool_simpl.
    step H s0 Es0. apply table_insert_Some in Es0 as (tb' & Htb & ->). pool_simpl.
    pool_simpl. step H r1 Er1. step H r2 Er2. injection H as <- <-.
    exists pg, tb', r1, r2. record_eq. rewrite list_insert_insert_eq, ?Hd. by split_and!.
  - rewrite Epg in H.
    cbn [mbind option_bind] in H. cbv beta zeta in H. pool_simpl.
    step H s0 Es0. apply table_insert_Some in Es0 as (tb' & Htb & ->). pool_simpl.
    pool_simpl. step H r1 Er1. step H r2 Er2. injection H as <- <-.
    exists pg, tb', r1, r2. record_eq. rewrite Hd. by split_and!.
Qed.

(** [NewPgImp]: [nullptr] and no change when there is no free frame and no
    evictable one; otherwise the frame comes from the head of the free list
    or, when that is empty, from [Evict]. *)
Lemma NewPgImp_spec fuel s res s' :
  BPM.NewPgImp BUSTUB_PAGE_SIZE hash fuel s = Some (res, s') ->
  (res = None /\ s' = s /\ BPM.free_list_ s = [] /\
   exists r, LRUK.Evict (BPM.replacer_ s) = Some (None, r)) \/
  exists f s0,
    NewPg_install BUSTUB_PAGE_SIZE hash fuel f s0 = Some (res, s') /\
    BPM.pool_size_ s0 = BPM.pool_size_ s /\ BPM.pages_ s0 = BPM.pages_ s /\
    BPM.page_table_ s0 = BPM.page_table_ s /\
    BPM.next_page_id_ s0 = BPM.next_page_id_ s /\
    BPM.disk_manager_ s0 = BPM.disk_manager_ s /\
    ((BPM.free_list_ s = f :: BPM.free_list_ s0 /\ BPM.replacer_ s0 = BPM.replacer_ s) \/
     (BPM.free_list_ s = [] /\ BPM.free_list_ s0 = [] /\
      LRUK.Evict (BPM.replacer_ s) = Some (Some f, BPM.replacer_ s0))).
Proof.
  rewrite NewPgImp_unfold. destruct (BPM.free_list_ s) as [|f rest] eqn:Hfl.
  - destruct (LRUK.Evict (BPM.replacer_ s)) as [[[f|] r]|] eqn:Hev; [| |done].
    + intros H. right. exists f, (BPM.set_replacer r s). split_and!; try done.
      by right.
    + intros [= <- <-]. left. split_and!; eauto.
  - intros H. right. exists f, (BPM.set_free_list rest s). split_and!; try done.
    by left.
Qed.

(** [FetchPgImp] when the page table does not map the page. *)
Lemma FetchPgImp_miss_spec fuel page_id s res s' :
  EHT.Find hash (BPM.page_table_ s) page_id = None ->
  BPM.FetchPgImp BUSTUB_PAGE_SIZE hash fuel page_id s = Some (res, s') ->
  (res = None /\ s' = s /\ exists r, LRUK.Evict (BPM.replacer_ s) = Some (None, r)) \/
  exists f r0 pg tb' r1 r2,
    LRUK.Evict (BPM.replacer_ s) = Some (Some f, r0) /\
    BPM.pages_ s !! f = Some pg /\
    LRUK.RecordAccess r0 f = Some r1 /\
    LRUK.SetEvictable r1 f false = Some r2 /\
    EHT.Insert hash fuel (BPM.page_table_ s) page_id f = EHT.Done tb' /\
    res = Some f /\
    s' = BPM.Build (BPM.pool_size_ s)
           (<[f := Page.Build
                     (DiskManager.ReadPage BUSTUB_PAGE_SIZE page_id
                        (disk_after_write_back pg (BPM.disk_manager_ s)))
                     page_id 1 false]> (BPM.pages_ s))
           tb' r2 (BPM.free_list_ s) (BPM.next_page_id_ s)
           (disk_after_write_back pg (BPM.disk_manager_ s)).
Proof.
  intros Hfind. destruct s as [ps pages tb r fl np d].
  unfold BPM.FetchPgImp, disk_after_write_back. pool_simpl. intros H. pool_simpl.
  rewrite Hfind in H. step H ev Eev. destruct ev as [[f|] r0]; pool_simpl.
  2:{ injection H as <- <-. left. split_and!; eauto. }
  right. step H pg Epg.
  assert (Hlt : (f < length pages)%nat) by (by eapply lookup_lt_Some).
  unfold BPM.write_back in H. pool_simpl.
  destruct (Page.is_dirty_ pg) eqn:Hd; pool_simpl.
  - rewrite list_lookup_insert_eq in H by done.
    cbn [mbind option_bind] in H. cbv beta zeta in H. pool_simpl.
    step H r1 Er1. step H r2 Er2. step H s0 Es0.
    apply table_insert_Some in Es0 as (tb' & Htb & ->). pool_simpl.
    injection H as <- <-.
    exists f, r0, pg, tb', r1, r2. record_eq. rewrite list_insert_insert_eq, ?Hd.
    by split_and!.
  - rewrite Epg in H.
    cbn [mbind option_bind] in H. cbv beta zeta in H. pool_simpl.
    step H r1 Er1. step H r2 Er2. step H s0 Es0.
    apply table_insert_Some in Es0 as (tb' & Htb & ->). pool_simpl.
    injection H as <- <-.
    exists f, r0, pg, tb', r1, r2. record_eq. rewrite ?Hd. by split_and!.
Qed.

(** [UnpinPgImp]: false and no change, or one pin less on the frame of the
    page, the dirty flag raised when asked, and the frame made evictable when
    the pin count reaches 0. *)
Lemma UnpinPgImp_spec page_id is_dirty s res s' :
  BPM.UnpinPgImp hash page_id is_dirty s = Some (res, s') ->
  (res = false /\ s' = s) \/
  exists f pg r,
    EHT.Find hash (BPM.page_table_ s) page_id = Some f /\
    BPM.pages_ s !! f = Some pg /\ (0 < Page.pin_count_ pg)%Z /\
    res = true /\
    (if (Page.pin_count_ pg =? 1)%Z
     then LRUK.SetEvictable (BPM.replacer_ s) f true = Some r
     else r = BPM.replacer_ s) /\
    s' = BPM.Build (BPM.pool_size_ s)
           (<[f := Page.Build (Page.data_ pg) (Page.page_id_ pg) (Page.pin_count_ pg - 1)
                     (is_dirty || Page.is_dirty_ pg)]> (BPM.pages_ s))
           (BPM.page_table_ s) r (BPM.free_list_ s) (BPM.next_page_id_ s)
           (BPM.disk_manager_ s).
Proof.
  destruct s as [ps pages tb r fl np d]. unfold BPM.UnpinPgImp. intros H. pool_simpl.
  destruct (EHT.Find hash tb page_id) as [f|] eqn:Hfind; [|injection H as <- <-; by left].
  step H pg Epg.
  destruct (Z.leb_spec (Page.pin_count_ pg) 0) as [Hle|Hgt]; [injection H as <- <-; by left|].
  right.
  assert (Heq : (Page.pin_count_ pg - 1 =? 0)%Z = (Page.pin_count_ pg =? 1)%Z).
  { destruct (Z.eqb_spec (Page.pin_count_ pg - 1) 0), (Z.eqb_spec (Page.pin_count_ pg) 1);
      try done; lia. }
  destruct is_dirty; cbv zeta in H; pool_simpl; rewrite Heq in H;
    destruct (Page.pin_count_ pg =? 1)%Z eqn:H1.
  - step H r1 Er1. injection H as <- <-. exists f, pg, r1. record_eq. rewrite H1.
    by split_and!.
  - injection H as <- <-. exists f, pg, r. rewrite H1. by split_and!.
  - step H r1 Er1. injection H as <- <-. exists f, pg, r1. record_eq. rewrite H1.
    by split_and!.
  - injection H as <- <-. exists f, pg, r. rewrite H1. by split_and!.
Qed.

(** [DeletePgImp]: true and no change for a page that is not mapped, false
    and no change for a pinned one; otherwise the mapping is removed, the
    frame is reset and appended to the free list. *)
Lemma DeletePgImp_spec page_id s res s' :
  BPM.DeletePgImp BUSTUB_PAGE_SIZE hash page_id s = Some (res, s') ->
  (EHT.Find hash (BPM.page_table_ s) page_id = None /\ res = true /\ s' = s) \/
  exists f pg,
    EHT.Find hash (BPM.page_table_ s) page_id = Some f /\
    BPM.pages_ s !! f = Some pg /\
    (((0 < Page.pin_count_ pg)%Z /\ res = false /\ s' = s) \/
     ((Page.pin_count_ pg <= 0)%Z /\ res = true /\
      exists r, LRUK.Remove (BPM.replacer_ s) f = Some r /\
        s' = BPM.Build (BPM.pool_size_ s)
               (<[f := Page.Build (Page.zeroed BUSTUB_PAGE_SIZE) INVALID_PAGE_ID
                         (Page.pin_count_ pg) (Page.is_dirty_ pg)]> (BPM.pages_ s))
               (EHT.Remove hash (BPM.page_table_ s) page_id).2 r
               (BPM.free_list_ s ++ [f]) (BPM.next_page_id_ s) (BPM.disk_manager_ s))).
Proof.
  destruct s as [ps pages tb r fl np d]. unfold BPM.DeletePgImp. intros H. pool_simpl.
  destruct (EHT.Find hash tb page_id) as [f|] eqn:Hfind; [|injection H as <- <-; by left].
  right. step H pg Epg. exists f, pg. split_and!; [done..|].
  rewrite Z.gtb_ltb in H.
  destruct (Z.ltb_spec 0 (Page.pin_count_ pg)) as [Hgt|Hle]; [injection H as <- <-; by left|].
  right. cbv zeta in H. pool_simpl. step H r1 Er1. injection H as <- <-.
  split_and!; [done..|]. by exists r1.
Qed.

Lemma FlushPgImp_cases page_id s res s' :
  BPM.FlushPgImp hash page_id s = Some (res, s') ->
  (res = false /\ s' = s) \/
  exists f pg,
    EHT.Find hash (BPM.page_table_ s) page_id = Some f /\ BPM.pages_ s !! f = Some pg /\
    res = true /\
    s' = BPM.Build (BPM.pool_size_ s)
           (<[f := Page.Build (Page.data_ pg) (Page.page_id_ pg) (Page.pin_count_ pg) false]>
              (BPM.pages_ s))
           (BPM.page_table_ s) (BPM.replacer_ s) (BPM.free_list_ s) (BPM.next_page_id_ s)
           (<[page_id := Page.data_ pg]> (BPM.disk_manager_ s)).
Proof.
  destruct s as [ps pages tb r fl np d]. unfold BPM.FlushPgImp. intros H. pool_simpl.
  destruct (EHT.Find hash tb page_id) as [f|] eqn:Hfind; [|injection H as <- <-; by left].
  right. step H pg Epg. cbv zeta in H. pool_simpl. injection H as <- <-.
  exists f, pg. by split_and!.
Qed.

Lemma FetchPgImp_hit_spec fuel page_id s f res s' :
  EHT.Find hash (BPM.page_table_ s) page_id = Some f ->
  BPM.FetchPgImp BUSTUB_PAGE_SIZE hash fuel page_id s = Some (res, s') ->
  exists pg, BPM.pages_ s !! f = Some pg /\ res = Some f /\
    s' = BPM.Build (BPM.pool_size_ s)
           (<[f := Page.Build (Page.data_ pg) (Page.page_id_ pg) (Page.pin_count_ pg + 1)
                     (Page.is_dirty_ pg)]> (BPM.pages_ s))
           (BPM.page_table_ s) (BPM.replacer_ s) (BPM.free_list_ s) (BPM.next_page_id_ s)
           (BPM.disk_manager_ s).
Proof.
  intros Hfind. destruct s as [ps pages tb r fl np d]. unfold BPM.FetchPgImp.
  pool_simpl. intros H. pool_simpl. rewrite Hfind in H.
  step H pg Epg. injection H as <- <-. by exists pg.
Qed.

Lemma WriteData_spec frame_id bytes s s' :
  BPM.WriteData frame_id bytes s = Some s' ->
  exists pg, BPM.pages_ s !! frame_id = Some pg /\
    s' = BPM.Build (BPM.pool_size_ s)
           (<[frame_id := Page.Build bytes (Page.page_id_ pg) (Page.pin_count_ pg)
                            (Page.is_dirty_ pg)]> (BPM.pages_ s))
           (BPM.page_table_ s) (BPM.replacer_ s) (BPM.free_list_ s) (BPM.next_page_id_ s)
           (BPM.disk_manager_ s).
Proof.
  destruct s as [ps pages tb r fl np d]. unfold BPM.WriteData. intros H. pool_simpl.
  step H pg Epg. injection H as <-. by exists pg.
Qed.

Local Transparent EHT.Remove EHT.Insert EHT.Find.

End PoolFootprint.

(** ** The pool: frames, page table and free list *)

Lemma Find_fresh_table {K V : Type} `{EqDecision K} (hash : K -> N) (bucket_size : nat) (k : K) :
  EHT.Find hash (EHT.ExtendibleHashTable bucket_size : EHT.t K V) k = None.
Proof.
  unfold EHT.Find. rewrite IndexOf_low. simpl. by rewrite N.mod_1_r.
Qed.

Lemma SetEvictable_false_known r f r' :
  LRUK.SetEvictable r f false = Some r' ->
  exists fi, LRUK.frameinfo_map_ r' !! f = Some fi /\ LRUK.evictable_ fi = false.
Proof.
  unfold LRUK.SetEvictable. destruct (N.of_nat f <=? LRUK.replacer_size_ r); [|done].
  destruct (LRUK.frameinfo_map_ r !! f) as [fi|] eqn:Hf; [|done].
  destruct (LRUK.evictable_ fi) eqn:He; simpl; intros [= <-]; simpl.
  - rewrite lookup_insert_eq. eauto.
  - eauto.
Qed.

Lemma lookup_repeat {A} (x : A) (n i : nat) (y : A) : repeat x n !! i = Some y -> y = x.
Proof.
  revert i. induction n as [|n IH]; intros [|i]; simpl; try done.
  - by intros [= <-].
  - apply IH.
Qed.

Section PoolShape.
Variable BUSTUB_PAGE_SIZE : nat.
Variable hash : Z -> N.
Variables pool_size bucket_size : nat.

Lemma pool_shape_init replacer_k disk :
  pool_shape hash pool_size bucket_size
    (BPM.BufferPoolManagerInstance BUSTUB_PAGE_SIZE pool_size replacer_k bucket_size disk).
Proof.
  split; simpl; try done.
  - apply repeat_length.
  - intros f pg Hf. by rewrite (lookup_repeat _ _ _ _ Hf).
  - apply table_init.
  - intros p f. by rewrite Find_fresh_table.
  - intros f Hf. apply elem_of_seq in Hf. lia.
Qed.

(** The page table after [Insert] of a frame in range. *)
Lemma mapped_Insert tb fuel p f tb' :
  table_reachable hash bucket_size tb ->
  (forall q g, EHT.Find hash tb q = Some g -> (g < pool_size)%nat) ->
  (f < pool_size)%nat ->
  EHT.Insert hash fuel tb p f = EHT.Done tb' ->
  forall q g, EHT.Find hash tb' q = Some g -> (g < pool_size)%nat.
Proof.
  intros Hreach Hmap Hf Hins q g Hq. apply table_reachable_wf in Hreach as Hwf.
  destruct (decide (q = p)) as [->|Hne].
  - destruct (Insert_Done hash fuel tb p f tb' Hwf Hins) as [_ Hfind]. congruence.
  - rewrite (Insert_Find_other hash fuel tb p f tb' q Hwf Hins Hne) in Hq. eauto.
Qed.

Lemma mapped_Remove tb p :
  table_reachable hash bucket_size tb ->
  (forall q g, EHT.Find hash tb q = Some g -> (g < pool_size)%nat) ->
  forall q g, EHT.Find hash (EHT.Remove hash tb p).2 q = Some g -> (g < pool_size)%nat.
Proof.
  intros Hreach Hmap q g Hq. apply table_reachable_wf in Hreach as Hwf.
  destruct (Remove_spec hash tb p Hwf) as (_ & Hnone & Hother).
  destruct (decide (q = p)) as [->|Hne]; [congruence|].
  rewrite Hother in Hq by done. eauto.
Qed.

Lemma pins_insert (pages : list Page.t) f pg :
  (forall g pg', pages !! g = Some pg' -> (0 <= Page.pin_count_ pg')%Z) ->
  (0 <= Page.pin_count_ pg)%Z ->
  forall g pg', <[f := pg]> pages !! g = Some pg' -> (0 <= Page.pin_count_ pg')%Z.
Proof.
  intros Hall Hpg g pg' Hg. destruct (decide (g = f)) as [->|Hne].
  - apply list_lookup_insert_Some in Hg as [(_ & <- & _)|[? _]]; done.
  - rewrite list_lookup_insert_ne in Hg by done. eauto.
Qed.

Lemma pool_shape_NewPg_install fuel f s res s' :
  pool_shape hash pool_size bucket_size s ->
  NewPg_install BUSTUB_PAGE_SIZE hash fuel f s = Some (res, s') ->
  pool_shape hash pool_size bucket_size s'.
Proof.
  intros [H1 H2 H3 H4 H5 H6] Hrun.
  apply NewPg_install_spec in Hrun as (pg & tb' & r1 & r2 & Hpg & Hins & _ & _ & _ & ->).
  assert (Hf : (f < pool_size)%nat) by (rewrite <- H2; by eapply lookup_lt_Some).
  split; simpl; try done.
  - by rewrite length_insert.
  - apply pins_insert; [done | simpl; lia].
  - eapply table_Insert; [|exact Hins]. by apply table_Remove.
  - eapply mapped_Insert; [by apply table_Remove | by apply mapped_Remove | done | exact Hins].
Qed.

Lemma pool_shape_NewPgImp fuel s res s' :
  pool_shape hash pool_size bucket_size s ->
  BPM.NewPgImp BUSTUB_PAGE_SIZE hash fuel s = Some (res, s') ->
  pool_shape hash pool_size bucket_size s'.
Proof.
  intros Hs Hrun.
  apply NewPgImp_spec in Hrun as [(_ & -> & _)|(f & s0 & Hrun & E1 & E2 & E3 & E4 & E5 & Hfl)];
    [done|].
  apply (pool_shape_NewPg_install fuel f s0 res s'); [|done].
  destruct Hs as [H1 H2 H3 H4 H5 H6].
  split; rewrite ?E1, ?E2, ?E3, ?E4, ?E5; try done.
  intros g Hg. apply H6. destruct Hfl as [[-> _]|(_ & Hnil & _)].
  - by apply list_elem_of_further.
  - rewrite Hnil in Hg. by apply elem_of_nil in Hg.
Qed.

Lemma pool_shape_FetchPgImp fuel page_id s res s' :
  pool_shape hash pool_size bucket_size s ->
  BPM.FetchPgImp BUSTUB_PAGE_SIZE hash fuel page_id s = Some (res, s') ->
  pool_shape hash pool_size bucket_size s'.
Proof.
  intros Hs Hrun. pose proof Hs as [H1 H2 H3 H4 H5 H6].
  destruct (EHT.Find hash (BPM.page_table_ s) page_id) as [f|] eqn:Hfind.
  - apply (FetchPgImp_hit_spec _ _ _ _ _ _ _ _ Hfind) in Hrun as (pg & Hpg & _ & ->).
    split; simpl; try done.
    + by rewrite length_insert.
    + apply pins_insert; [done|]. simpl. specialize (H3 _ _ Hpg). lia.
  - apply (FetchPgImp_miss_spec _ _ _ _ _ _ _ Hfind) in Hrun
      as [(_ & -> & _)|(f & r0 & pg & tb' & r1 & r2 & _ & Hpg & _ & _ & Hins & _ & ->)];
      [done|].
    assert (Hf : (f < pool_size)%nat) by (rewrite <- H2; by eapply lookup_lt_Some).
    split; simpl; try done.
    + by rewrite length_insert.
    + apply pins_insert; [done | simpl; lia].
    + by eapply table_Insert.
    + by eapply mapped_Insert.
Qed.

Lemma pool_shape_UnpinPgImp page_id is_dirty s res s' :
  pool_shape hash pool_size bucket_size s ->
  BPM.UnpinPgImp hash page_id is_dirty s = Some (res, s') ->
  pool_shape hash pool_size bucket_size s'.
Proof.
  intros Hs Hrun. pose proof Hs as [H1 H2 H3 H4 H5 H6].
  apply UnpinPgImp_spec in Hrun as [[_ ->]|(f & pg & r & _ & Hpg & Hpin & _ & _ & ->)]; [done|].
  split; simpl; try done.
  - by rewrite length_insert.
  - apply pins_insert; [done | simpl; lia].
Qed.

Lemma pool_shape_FlushPgImp page_id s res s' :
  pool_shape hash pool_size bucket_size s ->
  BPM.FlushPgImp hash page_id s = Some (res, s') ->
  pool_shape hash pool_size bucket_size s'.
Proof.
  intros Hs Hrun. pose proof Hs as [H1 H2 H3 H4 H5 H6].
  apply FlushPgImp_cases in Hrun as [[_ ->]|(f & pg & _ & Hpg & _ & ->)]; [done|].
  split; simpl; try done.
  - by rewrite length_insert.
  - apply pins_insert; [done|]. simpl. by eapply H3.
Qed.

Lemma pool_shape_DeletePgImp page_id s res s' :
  pool_shape hash pool_size bucket_size s ->
  BPM.DeletePgImp BUSTUB_PAGE_SIZE hash page_id s = Some (res, s') ->
  pool_shape hash pool_size bucket_size s'.
Proof.
  intros Hs Hrun. pose proof Hs as [H1 H2 H3 H4 H5 H6].
  apply DeletePgImp_spec in Hrun
    as [(_ & _ & ->)|(f & pg & _ & Hpg & [(_ & _ & ->)|(_ & _ & r & _ & ->)])]; [done..|].
  assert (Hf : (f < pool_size)%nat) by (rewrite <- H2; by eapply lookup_lt_Some).
  split; simpl; try done.
  - by rewrite length_insert.
  - apply pins_insert; [done|]. simpl. by eapply H3.
  - by apply table_Remove.
  - by apply mapped_Remove.
  - intros g [Hg| ->%list_elem_of_singleton]%elem_of_app; auto.
Qed.

Lemma pool_shape_WriteData frame_id bytes s s' :
  pool_shape hash pool_size bucket_size s ->
  BPM.WriteData frame_id bytes s = Some s' ->
  pool_shape hash pool_size bucket_size s'.
Proof.
  intros Hs Hrun. pose proof Hs as [H1 H2 H3 H4 H5 H6].
  apply WriteData_spec in Hrun as (pg & Hpg & ->).
  split; simpl; try done.
  - by rewrite length_insert.
  - apply pins_insert; [done|]. simpl. by eapply H3.
Qed.

Lemma reachable_pool_shape replacer_k disk s :
  BPM.reachable BUSTUB_PAGE_SIZE hash pool_size replacer_k bucket_size disk s ->
  pool_shape hash pool_size bucket_size s.
Proof.
  induction 1 as [|s fuel res s' _ IH H|s fuel page_id res s' _ IH H
                  |s page_id is_dirty res s' _ IH H|s page_id res s' _ IH H
                  |s _ IH|s page_id res s' _ IH H|s frame_id bytes s' _ IH H].
  - apply pool_shape_init.
  - by eapply pool_shape_NewPgImp.
  - by eapply pool_shape_FetchPgImp.
  - by eapply pool_shape_UnpinPgImp.
  - by eapply pool_shape_FlushPgImp.
  - by destruct IH.
  - by eapply pool_shape_DeletePgImp.
  - by eapply pool_shape_WriteData.
Qed.

End PoolShape.

(** ** The pool as its users see it *)

Lemma Evict_None_size r r' : LRUK.Evict r = Some (None, r') -> LRUK.curr_size_ r = 0 /\ r' = r.
Proof.
  unfold LRUK.Evict. destruct (N.eqb_spec (LRUK.curr_size_ r) 0); [by intros [= <-]|].
  by destruct (foldl _ _ _).1.
Qed.

(** X12.  [NewPgImp], when it returns a page in a pool reached by calls that
    return: the page id is the value of the counter [next_page_id_]; the
    counter is incremented as a 32-bit integer, that is by one while it is
    below 2^31 - 1, where it wraps around to -2^31; the frame holds zero
    bytes under the page id, pinned once and clean; no other frame changes;
    the page table maps the id to the frame; and the replacer holds the
    frame as not evictable. *)
Theorem NewPgImp_result (page_size : nat) (hash : Z -> N) (pool_size : nat)
    (replacer_k : N) (bucket_size : nat) (disk : gmap Z (list Byte.byte))
    (s : BPM.t) (fuel : nat) (p : Z) (f : nat) (s' : BPM.t) :
  BPM.reachable page_size hash pool_size replacer_k bucket_size disk s ->
  BPM.NewPgImp page_size hash fuel s = Some (Some (p, f), s') ->
  p = BPM.next_page_id_ s /\
  BPM.next_page_id_ s' = BPM.page_id_wrap (p + 1) /\
  ((- 2 ^ 31 <= p < 2 ^ 31 - 1)%Z -> BPM.next_page_id_ s' = (p + 1)%Z) /\
  (p = (2 ^ 31 - 1)%Z -> BPM.next_page_id_ s' = (- 2 ^ 31)%Z) /\
  BPM.pages_ s' !! f = Some (Page.Build (Page.zeroed page_size) p 1 false) /\
  (forall g, g <> f -> BPM.pages_ s' !! g = BPM.pages_ s !! g) /\
  EHT.Find hash (BPM.page_table_ s') p = Some f /\
  exists fi, LRUK.frameinfo_map_ (BPM.replacer_ s') !! f = Some fi /\
             LRUK.evictable_ fi = false.
Proof.
  intros Hreach Hrun. apply reachable_pool_shape in Hreach as Hshape.
  apply NewPgImp_spec in Hrun as [(? & _)|(f0 & s0 & Hrun & E1 & E2 & E3 & E4 & E5 & _)];
    [done|].
  apply NewPg_install_spec in Hrun as (pg & tb' & r1 & r2 & Hpg & Hins & _ & Hse & Hres & ->).
  injection Hres as -> <-. rewrite E2 in *. rewrite E3, E4 in *. simpl.
  assert (Hwf : wf hash (EHT.Remove hash (BPM.page_table_ s) (Page.page_id_ pg)).2).
  { eapply table_reachable_wf, table_Remove, (ps_table _ _ _ _ Hshape). }
  split_and!; try done.
  - intros Hp. unfold BPM.page_id_wrap. rewrite Z.mod_small; lia.
  - intros Hp. rewrite Hp. reflexivity.
  - apply list_lookup_insert_eq. by eapply lookup_lt_Some.
  - intros g Hne. by apply list_lookup_insert_ne.
  - by destruct (Insert_Done hash fuel _ _ _ tb' Hwf Hins).
  - by eapply SetEvictable_false_known.
Qed.

Lemma NewPgImp_result_witness :
  0%Z = BPM.next_page_id_ pool1 /\
  BPM.next_page_id_ pool1_new = BPM.page_id_wrap (0 + 1) /\
  ((- 2 ^ 31 <= 0 < 2 ^ 31 - 1)%Z -> BPM.next_page_id_ pool1_new = (0 + 1)%Z) /\
  (0%Z = (2 ^ 31 - 1)%Z -> BPM.next_page_id_ pool1_new = (- 2 ^ 31)%Z) /\
  BPM.pages_ pool1_new !! 0%nat = Some (Page.Build (Page.zeroed 2) 0 1 false) /\
  (forall g, g <> 0%nat -> BPM.pages_ pool1_new !! g = BPM.pages_ pool1 !! g) /\
  EHT.Find hash_int (BPM.page_table_ pool1_new) 0%Z = Some 0%nat /\
  exists fi, LRUK.frameinfo_map_ (BPM.replacer_ pool1_new) !! 0%nat = Some fi /\
             LRUK.evictable_ fi = false.
Proof.
  apply (NewPgImp_result 2 hash_int 1 2 4 ∅ pool1 40 0 0 pool1_new).
  - apply BPM.reach_init.
  - vm_compute; reflexivity.
Defined.

(** X13.  [FetchPgImp] of a page the page table does not map, when it
    returns a page in such a pool: the frame holds what the disk holds for
    the page after the write-back of step 2, under the id asked for, pinned
    once and clean; no other frame changes; the page table maps the id to
    the frame; the replacer holds the frame as not evictable; and the free
    list and the page id counter are as before. *)
Theorem FetchPgImp_miss_result (page_size : nat) (hash : Z -> N) (pool_size : nat)
    (replacer_k : N) (bucket_size : nat) (disk : gmap Z (list Byte.byte))
    (s : BPM.t) (fuel : nat) (p : Z) (f : nat) (s' : BPM.t) :
  BPM.reachable page_size hash pool_size replacer_k bucket_size disk s ->
  EHT.Find hash (BPM.page_table_ s) p = None ->
  BPM.FetchPgImp page_size hash fuel p s = Some (Some f, s') ->
  BPM.pages_ s' !! f =
    Some (Page.Build (DiskManager.ReadPage page_size p (BPM.disk_manager_ s')) p 1 false) /\
  (forall g, g <> f -> BPM.pages_ s' !! g = BPM.pages_ s !! g) /\
  EHT.Find hash (BPM.page_table_ s') p = Some f /\
  (exists fi, LRUK.frameinfo_map_ (BPM.replacer_ s') !! f = Some fi /\
              LRUK.evictable_ fi = false) /\
  BPM.free_list_ s' = BPM.free_list_ s /\
  BPM.next_page_id_ s' = BPM.next_page_id_ s.
Proof.
  intros Hreach Hfind Hrun. apply reachable_pool_shape in Hreach as Hshape.
  apply (FetchPgImp_miss_spec _ _ _ _ _ _ _ Hfind) in Hrun
    as [(? & _)|(f0 & r0 & pg & tb' & r1 & r2 & _ & Hpg & _ & Hse & Hins & Hres & ->)];
    [done|].
  injection Hres as <-. simpl.
  assert (Hwf : wf hash (BPM.page_table_ s)).
  { eapply table_reachable_wf, (ps_table _ _ _ _ Hshape). }
  split_and!; try done.
  - apply list_lookup_insert_eq. by eapply lookup_lt_Some.
  - intros g Hne. by apply list_lookup_insert_ne.
  - by destruct (Insert_Done hash fuel _ _ _ tb' Hwf Hins).
  - by eapply SetEvictable_false_known.
Qed.

Lemma FetchPgImp_miss_result_witness :
  BPM.pages_ pool1_fetched !! 0%nat =
    Some (Page.Build (DiskManager.ReadPage 2 7 (BPM.disk_manager_ pool1_fetched)) 7 1 false) /\
  (forall g, g <> 0%nat -> BPM.pages_ pool1_fetched !! g = BPM.pages_ pool1_unpinned !! g) /\
  EHT.Find hash_int (BPM.page_table_ pool1_fetched) 7%Z = Some 0%nat /\
  (exists fi, LRUK.frameinfo_map_ (BPM.replacer_ pool1_fetched) !! 0%nat = Some fi /\
              LRUK.evictable_ fi = false) /\
  BPM.free_list_ pool1_fetched = BPM.free_list_ pool1_unpinned /\
  BPM.next_page_id_ pool1_fetched = BPM.next_page_id_ pool1_unpinned.
Proof.
  apply (FetchPgImp_miss_result 2 hash_int 1 2 4 ∅ pool1_unpinned 40 7 0 pool1_fetched).
  - exact pool1_unpinned_reachable.
  - vm_compute; reflexivity.
  - vm_compute; reflexivity.
Defined.

(** X14.  A frame taken over by [NewPgImp], or by [FetchPgImp] for a page
    that is not mapped, is written back first: when the page it held was
    dirty, the disk afterwards holds the bytes of that page under its id;
    when it was clean, the disk is as before. *)
Theorem frame_reuse_writes_back (page_size : nat) (hash : Z -> N) (s : BPM.t)
    (fuel : nat) (p : Z) (f : nat) (s' : BPM.t) :
  BPM.NewPgImp page_size hash fuel s = Some (Some (p, f), s') \/
  (EHT.Find hash (BPM.page_table_ s) p = None /\
   BPM.FetchPgImp page_size hash fuel p s = Some (Some f, s')) ->
  exists pg, BPM.pages_ s !! f = Some pg /\
    BPM.disk_manager_ s' = disk_after_write_back pg (BPM.disk_manager_ s) /\
    (Page.is_dirty_ pg = true ->
     DiskManager.ReadPage page_size (Page.page_id_ pg) (BPM.disk_manager_ s') = Page.data_ pg) /\
    (Page.is_dirty_ pg = false -> BPM.disk_manager_ s' = BPM.disk_manager_ s).
Proof.
  assert (Hdisk : forall pg d,
    (Page.is_dirty_ pg = true ->
     DiskManager.ReadPage page_size (Page.page_id_ pg) (disk_after_write_back pg d)
     = Page.data_ pg) /\
    (Page.is_dirty_ pg = false -> disk_after_write_back pg d = d)).
  { intros pg d. unfold disk_after_write_back, DiskManager.ReadPage.
    split; intros ->; [by rewrite lookup_insert_eq | done]. }
  intros [Hrun|[Hfind Hrun]].
  - apply NewPgImp_spec in Hrun as [(? & _)|(f0 & s0 & Hrun & E1 & E2 & E3 & E4 & E5 & _)];
      [done|].
    apply NewPg_install_spec in Hrun as (pg & tb' & r1 & r2 & Hpg & _ & _ & _ & Hres & ->).
    injection Hres as _ <-. exists pg. rewrite <- E2, <- E5. simpl.
    split_and!; [done | done | apply Hdisk | apply Hdisk].
  - apply (FetchPgImp_miss_spec _ _ _ _ _ _ _ Hfind) in Hrun
      as [(? & _)|(f0 & r0 & pg & tb' & r1 & r2 & _ & Hpg & _ & _ & _ & Hres & ->)];
      [done|].
    injection Hres as <-. exists pg. simpl.
    split_and!; [done | done | apply Hdisk | apply Hdisk].
Qed.

Lemma frame_reuse_writes_back_witness :
  exists pg, BPM.pages_ pool1_dirty !! 0%nat = Some pg /\
    BPM.disk_manager_ pool1_reused = disk_after_write_back pg (BPM.disk_manager_ pool1_dirty) /\
    (Page.is_dirty_ pg = true ->
     DiskManager.ReadPage 2 (Page.page_id_ pg) (BPM.disk_manager_ pool1_reused)
     = Page.data_ pg) /\
    (Page.is_dirty_ pg = false ->
     BPM.disk_manager_ pool1_reused = BPM.disk_manager_ pool1_dirty).
Proof.
  apply (frame_reuse_writes_back 2 hash_int pool1_dirty 40 1 0 pool1_reused).
  left. vm_compute; reflexivity.
Defined.

Lemma page_id_wrap_succ (x : Z) :
  (- 2 ^ 31 <= x < 2 ^ 31 - 1)%Z -> BPM.page_id_wrap (x + 1) = (x + 1)%Z.
Proof. intros Hx. unfold BPM.page_id_wrap. rewrite Z.mod_small; lia. Qed.

Lemma next_page_id_steps page_size hash s s' :
  pool_steps page_size hash s s' -> (0 <= BPM.next_page_id_ s)%Z ->
  (BPM.next_page_id_ s <= BPM.next_page_id_ s')%Z.
Proof.
  intros Hsteps H0.
  induction Hsteps as [|s1 fuel res s2 _ IH Hlt H|s1 fuel page_id res s2 _ IH H
                  |s1 page_id is_dirty res s2 _ IH H|s1 page_id res s2 _ IH H
                  |s1 _ IH|s1 page_id res s2 _ IH H|s1 frame_id bytes s2 _ IH H].
  - lia.
  - apply NewPgImp_spec in H as [(_ & -> & _)|(f & s0 & H & _ & _ & _ & E4 & _)]; [done|].
    apply NewPg_install_spec in H as (pg & tb' & r1 & r2 & _ & _ & _ & _ & _ & ->).
    simpl. rewrite E4, page_id_wrap_succ; lia.
  - destruct (EHT.Find hash (BPM.page_table_ s1) page_id) as [f|] eqn:Hfind.
    + apply (FetchPgImp_hit_spec _ _ _ _ _ _ _ _ Hfind) in H as (pg & _ & _ & ->). done.
    + apply (FetchPgImp_miss_spec _ _ _ _ _ _ _ Hfind) in H
        as [(_ & -> & _)|(f & r0 & pg & tb' & r1 & r2 & _ & _ & _ & _ & _ & _ & ->)]; done.
  - apply UnpinPgImp_spec in H as [[_ ->]|(f & pg & r & _ & _ & _ & _ & _ & ->)]; done.
  - apply FlushPgImp_cases in H as [[_ ->]|(f & pg & _ & _ & _ & ->)]; done.
  - done.
  - apply DeletePgImp_spec in H
      as [(_ & _ & ->)|(f & pg & _ & _ & [(_ & _ & ->)|(_ & _ & r & _ & ->)])]; done.
  - apply WriteData_spec in H as (pg & _ & ->). done.
Qed.

(** X15.  While the 32-bit counter [next_page_id_] has not reached
    2^31 - 1, page ids are not handed out twice: a page id returned by
    [NewPgImp], taken from a counter that is not negative and below
    2^31 - 1, is smaller than every page id [NewPgImp] returns later,
    whatever calls are made in between, as long as each [NewPgImp] among
    them finds the counter below 2^31 - 1. *)
Theorem page_ids_increase (page_size : nat) (hash : Z -> N) (s s1 s2 s3 : BPM.t)
    (fuel fuel' : nat) (p p' : Z) (f f' : nat) :
  (0 <= BPM.next_page_id_ s < 2 ^ 31 - 1)%Z ->
  BPM.NewPgImp page_size hash fuel s = Some (Some (p, f), s1) ->
  pool_steps page_size hash s1 s2 ->
  BPM.NewPgImp page_size hash fuel' s2 = Some (Some (p', f'), s3) ->
  (p < p')%Z.
Proof.
  intros Hp Hfirst Hsteps Hsecond. apply next_page_id_steps in Hsteps.
  - apply NewPgImp_spec in Hfirst as [(? & _)|(f0 & s0 & H & _ & _ & _ & E4 & _)]; [done|].
    apply NewPg_install_spec in H as (pg & tb' & r1 & r2 & _ & _ & _ & _ & Hres & ->).
    injection Hres as -> _. simpl in Hsteps. rewrite E4, page_id_wrap_succ in Hsteps by lia.
    apply NewPgImp_spec in Hsecond as [(? & _)|(f1 & s4 & H & _ & _ & _ & E4' & _)]; [done|].
    apply NewPg_install_spec in H as (pg' & tb'' & r1' & r2' & _ & _ & _ & _ & Hres & _).
    injection Hres as -> _. lia.
  - apply NewPgImp_spec in Hfirst as [(? & _)|(f0 & s0 & H & _ & _ & _ & E4 & _)]; [done|].
    apply NewPg_install_spec in H as (pg & tb' & r1 & r2 & _ & _ & _ & _ & _ & ->).
    simpl. rewrite E4, page_id_wrap_succ; lia.
Qed.

Lemma page_ids_increase_witness : (0 < 1)%Z.
Proof.
  apply (page_ids_increase 2 hash_int pool1 pool1_new pool1_unpinned pool1_second
           40 40 0 1 0 0).
  - vm_compute. split; [discriminate | reflexivity].
  - vm_compute; reflexivity.
  - apply (steps_UnpinPg _ _ _ pool1_new 0 false true); [apply steps_refl|].
    vm_compute; reflexivity.
  - vm_compute; reflexivity.
Defined.

(** X16.  In a pool reached by calls that return, a frame the page table
    maps a page to is a frame of the pool: [FetchPgImp] of a mapped page and
    [FlushPgImp] never index [pages_] outside of it, and both return. *)
Theorem mapped_frame_in_range (page_size : nat) (hash : Z -> N) (pool_size : nat)
    (replacer_k : N) (bucket_size : nat) (disk : gmap Z (list Byte.byte))
    (s : BPM.t) (fuel : nat) (p : Z) (f : nat) :
  BPM.reachable page_size hash pool_size replacer_k bucket_size disk s ->
  EHT.Find hash (BPM.page_table_ s) p = Some f ->
  (f < pool_size)%nat /\
  (exists s', BPM.FetchPgImp page_size hash fuel p s = Some (Some f, s')) /\
  (exists s', BPM.FlushPgImp hash p s = Some (true, s')).
Proof.
  intros Hreach Hfind. apply reachable_pool_shape in Hreach as Hshape.
  pose proof (ps_mapped _ _ _ _ Hshape p f Hfind) as Hf. split; [done|].
  destruct (lookup_lt_is_Some_2 (BPM.pages_ s) f) as [pg Hpg].
  { by rewrite (ps_pages _ _ _ _ Hshape). }
  split.
  - rewrite (FetchPgImp_hit page_size hash fuel p s f pg Hfind Hpg). eauto.
  - unfold BPM.FlushPgImp. rewrite Hfind, Hpg. simpl. eauto.
Qed.

Lemma mapped_frame_in_range_witness :
  (0 < 1)%nat /\
  (exists s', BPM.FetchPgImp 2 hash_int 40 0 pool1_new = Some (Some 0%nat, s')) /\
  (exists s', BPM.FlushPgImp hash_int 0 pool1_new = Some (true, s')).
Proof.
  apply (mapped_frame_in_range 2 hash_int 1 2 4 ∅ pool1_new 40 0 0).
  - exact pool1_new_reachable.
  - vm_compute; reflexivity.
Defined.

(** X17.  In such a pool [pages_] has [pool_size] frames and no pin count
    is negative: [UnpinPgImp] takes a pin off only where one is held. *)
Theorem pin_counts_never_negative (page_size : nat) (hash : Z -> N) (pool_size : nat)
    (replacer_k : N) (bucket_size : nat) (disk : gmap Z (list Byte.byte)) (s : BPM.t) :
  BPM.reachable page_size hash pool_size replacer_k bucket_size disk s ->
  length (BPM.pages_ s) = pool_size /\
  forall f pg, BPM.pages_ s !! f = Some pg -> (0 <= Page.pin_count_ pg)%Z.
Proof.
  intros Hreach. apply reachable_pool_shape in Hreach as Hshape.
  split; [exact (ps_pages _ _ _ _ Hshape) | exact (ps_pins _ _ _ _ Hshape)].
Qed.

Lemma pin_counts_never_negative_witness :
  length (BPM.pages_ pool1_unpinned) = 1%nat /\
  forall f pg, BPM.pages_ pool1_unpinned !! f = Some pg -> (0 <= Page.pin_count_ pg)%Z.
Proof.
  exact (pin_counts_never_negative 2 hash_int 1 2 4 ∅ pool1_unpinned pool1_unpinned_reachable).
Defined.

(** X18.  [UnpinPgImp] changes neither the page table, the disk, the free
    list nor the page id counter, and of a frame neither the payload nor the
    page id.  It never clears a dirty flag, and the only pin count it changes
    is that of the frame of the page, by one, when it returns true. *)
Theorem UnpinPgImp_footprint (hash : Z -> N) (s : BPM.t) (p : Z) (is_dirty : bool)
    (res : bool) (s' : BPM.t) :
  BPM.UnpinPgImp hash p is_dirty s = Some (res, s') ->
  BPM.page_table_ s' = BPM.page_table_ s /\
  BPM.disk_manager_ s' = BPM.disk_manager_ s /\
  BPM.free_list_ s' = BPM.free_list_ s /\
  BPM.next_page_id_ s' = BPM.next_page_id_ s /\
  forall g pg, BPM.pages_ s !! g = Some pg ->
    exists pg', BPM.pages_ s' !! g = Some pg' /\
      Page.data_ pg' = Page.data_ pg /\ Page.page_id_ pg' = Page.page_id_ pg /\
      (Page.is_dirty_ pg = true -> Page.is_dirty_ pg' = true) /\
      (Page.pin_count_ pg' = Page.pin_count_ pg \/
       (res = true /\ EHT.Find hash (BPM.page_table_ s) p = Some g /\
        Page.pin_count_ pg' = (Page.pin_count_ pg - 1)%Z)).
Proof.
  intros Hrun.
  apply UnpinPgImp_spec in Hrun
    as [[_ ->]|(f & pg0 & r & Hfind & Hpg0 & Hpin & -> & _ & ->)].
  - split_and!; try done. intros g pg Hg. exists pg. split_and!; auto.
  - simpl. split_and!; try done. intros g pg Hg.
    destruct (decide (g = f)) as [->|Hne].
    + assert (pg = pg0) as -> by congruence. eexists. split.
      * apply list_lookup_insert_eq. by eapply lookup_lt_Some.
      * simpl. split_and!; try done; [|by right].
        intros ->. by destruct is_dirty.
    + exists pg. rewrite list_lookup_insert_ne by done. split_and!; auto.
Qed.

Lemma UnpinPgImp_footprint_witness :
  BPM.page_table_ pool1_unpinned = BPM.page_table_ pool1_new /\
  BPM.disk_manager_ pool1_unpinned = BPM.disk_manager_ pool1_new /\
  BPM.free_list_ pool1_unpinned = BPM.free_list_ pool1_new /\
  BPM.next_page_id_ pool1_unpinned = BPM.next_page_id_ pool1_new /\
  forall g pg, BPM.pages_ pool1_new !! g = Some pg ->
    exists pg', BPM.pages_ pool1_unpinned !! g = Some pg' /\
      Page.data_ pg' = Page.data_ pg /\ Page.page_id_ pg' = Page.page_id_ pg /\
      (Page.is_dirty_ pg = true -> Page.is_dirty_ pg' = true) /\
      (Page.pin_count_ pg' = Page.pin_count_ pg \/
       (true = true /\ EHT.Find hash_int (BPM.page_table_ pool1_new) 0%Z = Some g /\
        Page.pin_count_ pg' = (Page.pin_count_ pg - 1)%Z)).
Proof.
  apply (UnpinPgImp_footprint hash_int pool1_new 0 false true pool1_unpinned).
  vm_compute; reflexivity.
Defined.

(** X19.  [DeletePgImp] in such a pool.  It returns false exactly when the
    page is mapped to a frame that is pinned, and then changes nothing.
    When it returns true the page is no longer mapped and every other page
    is mapped as before.  It writes nothing to the disk and leaves the page
    id counter as it is. *)
Theorem DeletePgImp_result (page_size : nat) (hash : Z -> N) (pool_size : nat)
    (replacer_k : N) (bucket_size : nat) (disk : gmap Z (list Byte.byte))
    (s : BPM.t) (p : Z) (res : bool) (s' : BPM.t) :
  BPM.reachable page_size hash pool_size replacer_k bucket_size disk s ->
  BPM.DeletePgImp page_size hash p s = Some (res, s') ->
  (res = false <->
   exists f pg, EHT.Find hash (BPM.page_table_ s) p = Some f /\
                BPM.pages_ s !! f = Some pg /\ (0 < Page.pin_count_ pg)%Z) /\
  (res = false -> s' = s) /\
  (res = true ->
   EHT.Find hash (BPM.page_table_ s') p = None /\
   forall q, q <> p ->
     EHT.Find hash (BPM.page_table_ s') q = EHT.Find hash (BPM.page_table_ s) q) /\
  BPM.disk_manager_ s' = BPM.disk_manager_ s /\
  BPM.next_page_id_ s' = BPM.next_page_id_ s.
Proof.
  intros Hreach Hrun. apply reachable_pool_shape in Hreach as Hshape.
  assert (Hwf : wf hash (BPM.page_table_ s)).
  { eapply table_reachable_wf, (ps_table _ _ _ _ Hshape). }
  destruct (Remove_spec hash (BPM.page_table_ s) p Hwf) as (_ & Hnone & Hother).
  apply DeletePgImp_spec in Hrun
    as [(Hfind & -> & ->)
       |(f & pg & Hfind & Hpg & [(Hpin & -> & ->)|(Hpin & -> & r & _ & ->)])].
  - split_and!; try done. split; [done|]. intros (f & pg & Hf & _). congruence.
  - split_and!; try done. split; [eauto | done].
  - simpl. split_and!; try done. split; [done|].
    intros (f' & pg' & Hf' & Hpg' & Hpin').
    assert (f' = f) as -> by congruence. assert (pg' = pg) as -> by congruence. lia.
Qed.

Lemma DeletePgImp_result_witness :
  (true = false <->
   exists f pg, EHT.Find hash_int (BPM.page_table_ pool1_unpinned) 0%Z = Some f /\
                BPM.pages_ pool1_unpinned !! f = Some pg /\ (0 < Page.pin_count_ pg)%Z) /\
  (true = false -> pool1_deleted = pool1_unpinned) /\
  (true = true ->
   EHT.Find hash_int (BPM.page_table_ pool1_deleted) 0%Z = None /\
   forall q, q <> 0%Z ->
     EHT.Find hash_int (BPM.page_table_ pool1_deleted) q
     = EHT.Find hash_int (BPM.page_table_ pool1_unpinned) q) /\
  BPM.disk_manager_ pool1_deleted = BPM.disk_manager_ pool1_unpinned /\
  BPM.next_page_id_ pool1_deleted = BPM.next_page_id_ pool1_unpinned.
Proof.
  apply (DeletePgImp_result 2 hash_int 1 2 4 ∅ pool1_unpinned 0 true pool1_deleted).
  - exact pool1_unpinned_reachable.
  - vm_compute; reflexivity.
Defined.

(** X20.  When the pool gives no page.  [NewPgImp] returns [nullptr]
    exactly when the free list is empty and the replacer has size 0.
    [FetchPgImp] of a page that is not mapped returns [nullptr] exactly when
    the replacer has size 0, whatever the free list holds: it does not take
    frames from the free list.  Neither changes the pool then. *)
Theorem nullptr_cases (page_size : nat) (hash : Z -> N) (s : BPM.t) (fuel : nat)
    (p : Z) (s' : BPM.t) :
  (BPM.NewPgImp page_size hash fuel s = Some (None, s') <->
   BPM.free_list_ s = [] /\ LRUK.Size (BPM.replacer_ s) = 0 /\ s' = s) /\
  (EHT.Find hash (BPM.page_table_ s) p = None ->
   (BPM.FetchPgImp page_size hash fuel p s = Some (None, s') <->
    LRUK.Size (BPM.replacer_ s) = 0 /\ s' = s)).
Proof.
  unfold LRUK.Size. split.
  - split.
    + intros Hrun.
      apply NewPgImp_spec in Hrun as [(_ & -> & Hfl & r & Hev)|(f & s0 & Hrun & _)].
      * by destruct (Evict_None_size _ _ Hev).
      * by apply NewPg_install_spec in Hrun as (? & ? & ? & ? & _ & _ & _ & _ & ? & _).
    + intros (Hfl & Hsz & ->). rewrite NewPgImp_unfold, Hfl. unfold LRUK.Evict.
      by rewrite Hsz.
  - intros Hfind. split.
    + intros Hrun.
      apply (FetchPgImp_miss_spec _ _ _ _ _ _ _ Hfind) in Hrun
        as [(_ & -> & r & Hev)|(f & r0 & pg & tb' & r1 & r2 & _ & _ & _ & _ & _ & ? & _)];
        [|done].
      by destruct (Evict_None_size _ _ Hev).
    + intros (Hsz & ->). unfold BPM.FetchPgImp, LRUK.Evict. by rewrite Hfind, Hsz.
Qed.

(** X21.  Where [NewPgImp] takes its frame: the head of the free list while
    the free list is not empty, and only when it is empty the victim of
    [Evict]. *)
Theorem NewPgImp_frame_source (page_size : nat) (hash : Z -> N) (s : BPM.t)
    (fuel : nat) (p : Z) (f : nat) (s' : BPM.t) :
  BPM.NewPgImp page_size hash fuel s = Some (Some (p, f), s') ->
  BPM.free_list_ s = f :: BPM.free_list_ s' \/
  (BPM.free_list_ s = [] /\ BPM.free_list_ s' = [] /\
   exists r, LRUK.Evict (BPM.replacer_ s) = Some (Some f, r)).
Proof.
  intros Hrun.
  apply NewPgImp_spec in Hrun as [(? & _)|(f0 & s0 & Hrun & _ & _ & _ & _ & _ & Hsrc)];
    [done|].
  apply NewPg_install_spec in Hrun as (pg & tb' & r1 & r2 & _ & _ & _ & _ & Hres & ->).
  injection Hres as _ <-. simpl.
  destruct Hsrc as [[Hfl _]|(Hfl & Hfl0 & Hev)]; [by left | right; eauto].
Qed.

Lemma NewPgImp_frame_source_witness :
  BPM.free_list_ pool1 = 0%nat :: BPM.free_list_ pool1_new \/
  (BPM.free_list_ pool1 = [] /\ BPM.free_list_ pool1_new = [] /\
   exists r, LRUK.Evict (BPM.replacer_ pool1) = Some (Some 0%nat, r)).
Proof.
  apply (NewPgImp_frame_source 2 hash_int pool1 40 0 0 pool1_new).
  vm_compute; reflexivity.
Defined.
